(** * IronBee: the Eudoxus operators and the Lua module bridge

    A shallow embedding of two modules of the IronBee inspection engine:

    - the Eudoxus operator module ([ee], [ee_match] and the streaming [ee]),
      with its [LoadEudoxus] directive, its per-transaction automaton state
      and the handler that tears that state down when a transaction ends;
    - the Lua module bridge ([lua_modules.c]): the dispatch callbacks that
      borrow a Lua runtime from the pool, and the wiring of a Lua-defined
      module's handlers into the engine's hooks.

    Pointers that may be [NULL] are options, status codes are the C enums,
    the hashes are finite maps, and what the C code reaches through the
    transaction (memory pool, capture collections, module data) is a record
    that every function takes and gives back. *)

From Stdlib Require Import ZArith List Bool Lia String Ascii.
From Stdlib.Strings Require Import Byte.
From stdpp Require Import base option list gmap strings.
From Equations Require Import Equations.
Import ListNotations.

(** ** Status codes ([ironbee/types.h]) *)

Inductive ib_status_t : Set :=
| IB_OK | IB_DECLINED | IB_EUNKNOWN | IB_ENOTIMPL | IB_EINCOMPAT | IB_EALLOC
| IB_EINVAL | IB_ENOENT | IB_ETRUNC | IB_ETIMEDOUT | IB_EAGAIN | IB_EOTHER
| IB_EBADVAL | IB_EEXIST.

Definition ib_status_eq_dec (a b : ib_status_t) : {a = b} + {a <> b}.
Proof. decide equality. Defined.

#[global] Instance ib_status_eq : EqDecision ib_status_t := ib_status_eq_dec.

(** ** Memory pools *)

(** Modelled from the spec: the memory managers ([ironbee/mm.h]) are not
    among the sources.  The spec has them as "lifetime-scoped allocation
    regions" from which everything "requests memory ... and never frees
    individually", and has "allocation-failure (scoped-memory exhaustion)".
    A pool gives [mm_left] more blocks and then none.  The sources call both
    [ib_mm_alloc] and [ib_mm_calloc]: only the latter clears the block, so a
    [uint32_t] field that the caller of [ib_mm_alloc] never writes reads as
    whatever the pool held there, [mm_stale]. *)
Record ib_mm_t : Set := { mm_left : nat; mm_stale : Z }.

Definition ib_mm_alloc (mm : ib_mm_t) : bool * ib_mm_t :=
  match mm_left mm with
  | O => (false, mm)
  | S k => (true, {| mm_left := k; mm_stale := mm_stale mm |})
  end.

(** [ib_mm_calloc] is [ib_mm_alloc] with the block cleared. *)
Definition ib_mm_calloc (mm : ib_mm_t) : bool * ib_mm_t := ib_mm_alloc mm.

(** ** The Eudoxus automaton engine (IronAutomata) *)

Module Eudoxus.

Inductive ia_eudoxus_result_t : Set :=
| IA_EUDOXUS_OK | IA_EUDOXUS_STOP | IA_EUDOXUS_ERROR | IA_EUDOXUS_END
| IA_EUDOXUS_EINVAL | IA_EUDOXUS_EALLOC | IA_EUDOXUS_EINCOMPAT
| IA_EUDOXUS_EINSANE.

Inductive ia_eudoxus_command_t : Set :=
| IA_EUDOXUS_CMD_CONTINUE | IA_EUDOXUS_CMD_STOP | IA_EUDOXUS_CMD_ERROR.

(** Modelled from the spec: the automaton library itself ([ia_eudoxus_*],
    [ironautomata/eudoxus.h]) is not among the sources; the operators only
    call it.  The spec describes it as "a precompiled multi-pattern matcher
    (Aho-Corasick-style or similar) executed incrementally over byte
    input", whose callback is handed the output of the node reached and
    "signals continue rather than stop", and which reports exhaustion when
    no transition is left.  A node has byte-labelled edges and the outputs
    that fire on entering it. *)
Record ia_node_t : Set := {
  edges : list (byte * nat);
  outputs : list (list byte)
}.

Record ia_eudoxus_t : Set := {
  start_node : nat;
  nodes : list ia_node_t
}.

(** The execution cursor: the node reached and the input not yet read. *)
Record ia_eudoxus_state_t : Set := {
  automaton : ia_eudoxus_t;
  node : nat;
  input_location : list byte
}.

Fixpoint find_edge (es : list (byte * nat)) (c : byte) : option nat :=
  match es with
  | [] => None
  | (b, target) :: es' => if Byte.eqb b c then Some target else find_edge es' c
  end.

Definition ia_eudoxus_next (a : ia_eudoxus_t) (n : nat) (c : byte) : option nat :=
  match nodes a !! n with
  | None => None
  | Some nd =>
      match find_edge (edges nd) c with
      | None => None
      | Some target =>
          match nodes a !! target with
          | None => None
          | Some _ => Some target
          end
      end
  end.

Definition node_outputs (a : ia_eudoxus_t) (n : nat) : list (list byte) :=
  match nodes a !! n with
  | None => []
  | Some nd => outputs nd
  end.

(** Modelled from the spec: [ia_eudoxus_create_state] places a fresh
    cursor on the start node; an automaton without one is refused. *)
Definition ia_eudoxus_create_state (a : ia_eudoxus_t)
  : ia_eudoxus_result_t * option ia_eudoxus_state_t :=
  match nodes a !! start_node a with
  | None => (IA_EUDOXUS_EINVAL, None)
  | Some _ =>
      (IA_EUDOXUS_OK,
       Some {| automaton := a; node := start_node a; input_location := [] |})
  end.

(** The outputs met along the input from node [n], in the order the
    automaton meets them. *)
Fixpoint ia_eudoxus_matches (a : ia_eudoxus_t) (n : nat) (input : list byte)
  : list (list byte) :=
  match input with
  | [] => []
  | c :: rest =>
      match ia_eudoxus_next a n c with
      | None => []
      | Some n' => node_outputs a n' ++ ia_eudoxus_matches a n' rest
      end
  end.

Section Execute.

(** The callback registered with the state, and the data it was
    registered with: [callback output input cbdata]. *)
Context {W : Type}.
Variable callback : list byte -> list byte -> W -> ia_eudoxus_command_t * W.

(** The outputs of the node just entered are offered to the callback in
    turn; [STOP] and [ERROR] end the run at once. *)
Fixpoint ia_eudoxus_output (outs : list (list byte)) (input : list byte) (w : W)
  : ia_eudoxus_result_t * W :=
  match outs with
  | [] => (IA_EUDOXUS_OK, w)
  | o :: outs' =>
      match callback o input w with
      | (IA_EUDOXUS_CMD_CONTINUE, w') => ia_eudoxus_output outs' input w'
      | (IA_EUDOXUS_CMD_STOP, w') => (IA_EUDOXUS_STOP, w')
      | (IA_EUDOXUS_CMD_ERROR, w') => (IA_EUDOXUS_ERROR, w')
      end
  end.

Fixpoint ia_eudoxus_run (a : ia_eudoxus_t) (n : nat) (input : list byte) (w : W)
  : ia_eudoxus_result_t * ia_eudoxus_state_t * W :=
  match input with
  | [] => (IA_EUDOXUS_OK, {| automaton := a; node := n; input_location := [] |}, w)
  | c :: rest =>
      match ia_eudoxus_next a n c with
      | None =>
          (IA_EUDOXUS_END, {| automaton := a; node := n; input_location := input |}, w)
      | Some n' =>
          match ia_eudoxus_output (node_outputs a n') rest w with
          | (IA_EUDOXUS_OK, w') => ia_eudoxus_run a n' rest w'
          | (r, w') =>
              (r, {| automaton := a; node := n'; input_location := rest |}, w')
          end
      end
  end.

(** What a call is about to read: a non-[NULL] [input] restarts the
    cursor's input, [NULL] resumes where the last call stopped. *)
Definition pending_input (state : option ia_eudoxus_state_t)
    (input : option (list byte)) (input_length : nat) : list byte :=
  match state with
  | None => []
  | Some st =>
      match input with
      | Some i => take input_length i
      | None => input_location st
      end
  end.

(** Modelled from the spec: [ia_eudoxus_execute(state, input, length)]. *)
Definition ia_eudoxus_execute (state : option ia_eudoxus_state_t)
    (input : option (list byte)) (input_length : nat) (w : W)
  : ia_eudoxus_result_t * option ia_eudoxus_state_t * W :=
  match state with
  | None => (IA_EUDOXUS_EINVAL, None, w)
  | Some st =>
      let '(r, st', w') :=
        ia_eudoxus_run (automaton st) (node st)
                       (pending_input state input input_length) w in
      (r, Some st', w')
  end.

Lemma ia_eudoxus_run_stop a n input w st' w' :
  ia_eudoxus_run a n input w = (IA_EUDOXUS_STOP, st', w') ->
  length (input_location st') < length input.
Proof.
  revert n w. induction input as [|c rest IH]; intros n w; simpl.
  - discriminate.
  - destruct (ia_eudoxus_next a n c) as [n'|]; [|discriminate].
    destruct (ia_eudoxus_output (node_outputs a n') rest w) as [r w1] eqn:Ho.
    destruct r; try (intros [= <- <-]; simpl; lia).
    intros H. apply IH in H. lia.
Qed.

Lemma ia_eudoxus_execute_stop state input len w st' w' :
  ia_eudoxus_execute state input len w = (IA_EUDOXUS_STOP, st', w') ->
  length (pending_input st' None len) < length (pending_input state input len).
Proof.
  unfold ia_eudoxus_execute. destruct state as [st|]; [|discriminate].
  destruct (ia_eudoxus_run _ _ _ w) as [[r s1] w1] eqn:Hr.
  intros [= -> <- <-]. apply ia_eudoxus_run_stop in Hr. exact Hr.
Qed.

(** What the callback keeps true of its data stays true across a run. *)
Lemma ia_eudoxus_output_invariant (P : W -> Prop) :
  (forall o i w, P w -> P (snd (callback o i w))) ->
  forall outs input w, P w -> P (snd (ia_eudoxus_output outs input w)).
Proof.
  intros Hcb outs input. induction outs as [|o outs IH]; intros w Hw; simpl.
  - exact Hw.
  - specialize (Hcb o input w Hw).
    destruct (callback o input w) as [[] w1]; simpl in *; auto.
Qed.

Lemma ia_eudoxus_run_invariant (P : W -> Prop) :
  (forall o i w, P w -> P (snd (callback o i w))) ->
  forall a n input w, P w -> P (snd (ia_eudoxus_run a n input w)).
Proof.
  intros Hcb a n input. revert n.
  induction input as [|c rest IH]; intros n w Hw; simpl.
  - exact Hw.
  - destruct (ia_eudoxus_next a n c) as [n'|]; [|exact Hw].
    pose proof (ia_eudoxus_output_invariant P Hcb (node_outputs a n') rest w Hw) as Ho.
    destruct (ia_eudoxus_output (node_outputs a n') rest w) as [r w1].
    simpl in Ho. destruct r; simpl; auto.
Qed.

Lemma ia_eudoxus_execute_invariant (P : W -> Prop) :
  (forall o i w, P w -> P (snd (callback o i w))) ->
  forall state input len w, P w -> P (snd (ia_eudoxus_execute state input len w)).
Proof.
  intros Hcb state input len w Hw. unfold ia_eudoxus_execute.
  destruct state as [st|]; [|exact Hw].
  pose proof (ia_eudoxus_run_invariant P Hcb (automaton st) (node st)
                (pending_input (Some st) input len) w Hw) as Hr.
  destruct (ia_eudoxus_run _ _ _ w) as [[r s1] w1]. exact Hr.
Qed.

End Execute.

End Eudoxus.
Import Eudoxus.


(** ** Hashes ([ironbee/hash.h]) *)

(** Keys of a no-case hash are compared in lower case. *)
Definition ascii_tolower (c : ascii) : ascii :=
  let n := nat_of_ascii c in
  if (65 <=? n)%nat && (n <=? 90)%nat then ascii_of_nat (n + 32) else c.

Fixpoint string_tolower (s : string) : string :=
  match s with
  | EmptyString => EmptyString
  | String c s' => String (ascii_tolower c) (string_tolower s')
  end.

(** Modelled from the spec: the hash library is not among the sources.  The
    spec calls what the module keeps in it an "associative store" and a
    table of patterns "under a symbolic name".  A hash maps string keys to
    values; one created with [ib_hash_create_nocase] compares keys without
    regard to case; a lookup that finds nothing is [IB_ENOENT]; setting a
    key takes a block from the pool. *)
Record ib_hash_t (V : Type) : Type := {
  nocase : bool;
  entries : gmap string V
}.
Arguments nocase {V} _.
Arguments entries {V} _.

Definition ib_hash_key {V} (h : ib_hash_t V) (key : string) : string :=
  if nocase h then string_tolower key else key.

Definition ib_hash_create {V} (mm : ib_mm_t) : ib_status_t * option (ib_hash_t V) * ib_mm_t :=
  match ib_mm_alloc mm with
  | (true, mm') => (IB_OK, Some {| nocase := false; entries := ∅ |}, mm')
  | (false, mm') => (IB_EALLOC, None, mm')
  end.

Definition ib_hash_create_nocase {V} (mm : ib_mm_t) : ib_status_t * option (ib_hash_t V) * ib_mm_t :=
  match ib_mm_alloc mm with
  | (true, mm') => (IB_OK, Some {| nocase := true; entries := ∅ |}, mm')
  | (false, mm') => (IB_EALLOC, None, mm')
  end.

Definition ib_hash_get {V} (h : ib_hash_t V) (key : string) : ib_status_t * option V :=
  match entries h !! ib_hash_key h key with
  | Some v => (IB_OK, Some v)
  | None => (IB_ENOENT, None)
  end.

Definition ib_hash_set {V} (h : ib_hash_t V) (key : string) (v : V) (mm : ib_mm_t)
  : ib_status_t * ib_hash_t V * ib_mm_t :=
  match ib_mm_alloc mm with
  | (true, mm') =>
      (IB_OK, {| nocase := nocase h; entries := <[ib_hash_key h key := v]> (entries h) |}, mm')
  | (false, mm') => (IB_EALLOC, h, mm')
  end.

(** ** The Eudoxus operator module *)

Module EE.

(** Module name. *)
Definition MODULE_NAME_STR : string := "eudoxus_operators".

Definition IB_UUID_LENGTH : nat := 37.

(** *** Fields ([ironbee/field.h]) *)

Inductive ib_ftype_t : Set :=
| IB_FTYPE_GENERIC | IB_FTYPE_NUM | IB_FTYPE_TIME | IB_FTYPE_FLOAT
| IB_FTYPE_NULSTR | IB_FTYPE_BYTESTR | IB_FTYPE_LIST | IB_FTYPE_SBUFFER.

(** Modelled from the spec: [ib_field_t] and [ib_field_value] are not among
    the sources.  The spec distinguishes the "unsupported input shape, e.g.
    list input" from the string inputs the operators scan.  An input field
    has its type tag, what [ib_field_value] reports when the value is
    fetched ([IB_OK] for a stored value, the getter's status for a dynamic
    field that fails), and the bytes of a string value. *)
Record ib_field_t : Set := {
  type : ib_ftype_t;
  fetch : ib_status_t;
  bytes : list byte
}.

Definition ib_field_value (field : ib_field_t) : ib_status_t * list byte :=
  (fetch field, bytes field).

Fixpoint strlen (s : list byte) : nat :=
  match s with
  | [] => 0
  | c :: s' => if Byte.eqb c x00 then 0 else S (strlen s')
  end.

(** *** Data of the module *)

Record ee_config_t : Type := {
  (** Hash of eudoxus patterns defined via the LoadEudoxus directive. *)
  eudoxus_pattern_hash : option (ib_hash_t ia_eudoxus_t)
}.

(** Operator instance data. *)
Record ee_operator_data_t : Set := {
  (** Unique ID for this operator instance. *)
  id : string;
  (** Pointer to the eudoxus pattern for this instance. *)
  eudoxus : ia_eudoxus_t
}.

(** Callback data for ee match.  The [tx] pointer of the C struct is the
    transaction every function here is given; [capture] addresses one of
    its capture collections, [None] is [NULL]. *)
Record ee_callback_data_t : Set := {
  capture : option nat;
  match_len : Z
}.

(** Per-tx inter-call data.  [ee_cbdata] is held in place: the block it
    points to is reachable through this struct and the automaton state
    only. *)
Record ee_tx_data_t : Set := {
  eudoxus_state : option ia_eudoxus_state_t;
  ee_cbdata : ee_callback_data_t;
  end_of_automata : bool
}.

(** A transaction, as far as this module reaches into it: its pool, its
    capture collections (each a list of named items), and this module's slot
    of the module-keyed store, which holds the hash from operator instance
    ids to per-transaction data. *)
Record ib_tx_t : Type := {
  mm : ib_mm_t;
  captures : list (list (string * list byte));
  module_data : option (ib_hash_t ee_tx_data_t)
}.

Definition tx_with_mm (tx : ib_tx_t) (mm' : ib_mm_t) : ib_tx_t :=
  {| mm := mm'; captures := captures tx; module_data := module_data tx |}.

Definition tx_with_captures (tx : ib_tx_t) (cs : list (list (string * list byte))) : ib_tx_t :=
  {| mm := mm tx; captures := cs; module_data := module_data tx |}.

Definition tx_with_module_data (tx : ib_tx_t) (h : option (ib_hash_t ee_tx_data_t)) : ib_tx_t :=
  {| mm := mm tx; captures := captures tx; module_data := h |}.

Definition uint32 (n : Z) : Z := n mod 2 ^ 32.

(** *** Captures ([ironbee/capture.h]) *)

Definition ib_capture_name (i : nat) : string :=
  String (ascii_of_nat (48 + i)) EmptyString.

(** Modelled from the spec: the capture helpers are not among the sources.
    The spec has "the capture collection's field at index 0 equals the
    matched substring bytes exactly": clearing empties the collection,
    setting item [i] replaces the item of that name.  A target that is not
    a collection of the transaction is refused. *)
Definition ib_capture_clear (capture : nat) (tx : ib_tx_t) : ib_status_t * ib_tx_t :=
  match captures tx !! capture with
  | None => (IB_EINVAL, tx)
  | Some _ => (IB_OK, tx_with_captures tx (<[capture := []]> (captures tx)))
  end.

Definition ib_capture_set_item (capture : nat) (i : nat) (field : string * list byte)
    (tx : ib_tx_t) : ib_status_t * ib_tx_t :=
  match captures tx !! capture with
  | None => (IB_EINVAL, tx)
  | Some items =>
      match ib_mm_alloc (mm tx) with
      | (false, _) => (IB_EALLOC, tx)
      | (true, mm') =>
          let kept := filter (fun it => negb (String.eqb (fst it) (ib_capture_name i))) items in
          (IB_OK, tx_with_captures (tx_with_mm tx mm') (<[capture := kept ++ [field]]> (captures tx)))
      end
  end.

(** [ib_bytestr_dup_mem] and [ib_field_create] copy into a block of the
    transaction's pool. *)
Definition ib_bytestr_dup_mem (tx : ib_tx_t) (data : list byte)
  : ib_status_t * list byte * ib_tx_t :=
  match ib_mm_alloc (mm tx) with
  | (true, mm') => (IB_OK, data, tx_with_mm tx mm')
  | (false, _) => (IB_EALLOC, [], tx)
  end.

Definition ib_field_create (tx : ib_tx_t) (name : string) (bs : list byte)
  : ib_status_t * (string * list byte) * ib_tx_t :=
  match ib_mm_alloc (mm tx) with
  | (true, mm') => (IB_OK, (name, bs), tx_with_mm tx mm')
  | (false, _) => (IB_EALLOC, (name, []), tx)
  end.

(** *** The match callback *)

Definition set_match_len (cb : ee_callback_data_t) (n : Z) : ee_callback_data_t :=
  {| capture := capture cb; match_len := n |}.

(** Eudoxus first match callback function.  Called when a match occurs. *)
Definition ee_first_match_callback (output : list byte) (input : list byte)
    (cbdata : ee_callback_data_t * ib_tx_t)
  : ia_eudoxus_command_t * (ee_callback_data_t * ib_tx_t) :=
  let '(ee_cbdata, tx) := cbdata in
  (* If the match length is not zero, we've already matched something. *)
  if (0 <? match_len ee_cbdata)%Z then
    (IA_EUDOXUS_CMD_CONTINUE, (set_match_len ee_cbdata 0, tx))
  else
    let ee_cbdata := set_match_len ee_cbdata (uint32 (Z.of_nat (length output))) in
    match capture ee_cbdata with
    | None => (IA_EUDOXUS_CMD_STOP, (ee_cbdata, tx))
    | Some capture =>
        match ib_capture_clear capture tx with
        | (IB_OK, tx) =>
            match ib_bytestr_dup_mem tx output with
            | (IB_OK, bs, tx) =>
                match ib_field_create tx (ib_capture_name 0) bs with
                | (IB_OK, field, tx) =>
                    match ib_capture_set_item capture 0 field tx with
                    | (IB_OK, tx) => (IA_EUDOXUS_CMD_STOP, (ee_cbdata, tx))
                    | (_, tx) => (IA_EUDOXUS_CMD_ERROR, (ee_cbdata, tx))
                    end
                | (_, _, tx) => (IA_EUDOXUS_CMD_ERROR, (ee_cbdata, tx))
                end
            | (_, _, tx) => (IA_EUDOXUS_CMD_ERROR, (ee_cbdata, tx))
            end
        | (_, tx) => (IA_EUDOXUS_CMD_ERROR, (ee_cbdata, tx))
        end
    end.

(** *** Helper function for stream and non-stream execution *)

(** One turn of the [for (;;)] loop of [ee_operator_execute_common]: either
    the function returns (status, data, transaction, result), or the loop
    goes round again with [input = NULL]. *)
Definition ee_execute_pass (full_match : bool) (input_len : nat)
    (input : option (list byte)) (data : ee_tx_data_t) (tx : ib_tx_t)
  : (ib_status_t * ee_tx_data_t * ib_tx_t * Z) + (ee_tx_data_t * ib_tx_t) :=
  let state := eudoxus_state data in
  (* Execute the automata. *)
  let '(ia_rc, state', (cb, tx')) :=
    ia_eudoxus_execute ee_first_match_callback state input input_len (ee_cbdata data, tx) in
  let data' :=
    {| eudoxus_state := state'; ee_cbdata := cb; end_of_automata := end_of_automata data |} in
  match ia_rc with
  | IA_EUDOXUS_STOP =>
      if full_match then
        (* We have a full match. Return OK. *)
        if (match_len cb =? Z.of_nat input_len)%Z then inl (IB_OK, data', tx', 1%Z)
        (* We do not have a full match. Continue matching. *)
        else inr (data', tx')
      (* We have a partial or full match. Great. *)
      else inl (IB_OK, data', tx', 1%Z)
  | IA_EUDOXUS_END =>
      inl (IB_OK,
           {| eudoxus_state := state'; ee_cbdata := cb; end_of_automata := true |},
           tx', 0%Z)
  | IA_EUDOXUS_OK => inl (IB_OK, data', tx', 0%Z)
  | _ => inl (IB_EUNKNOWN, data', tx', 0%Z)
  end.

Lemma ee_execute_pass_again full_match input_len input data tx data' tx' :
  ee_execute_pass full_match input_len input data tx = inr (data', tx') ->
  length (pending_input (eudoxus_state data') None input_len)
  < length (pending_input (eudoxus_state data) input input_len).
Proof.
  unfold ee_execute_pass.
  destruct (ia_eudoxus_execute _ _ _ _ _) as [[ia_rc state'] [cb tx1]] eqn:Hx.
  destruct ia_rc; try discriminate.
  destruct full_match; [|discriminate].
  destruct (match_len cb =? Z.of_nat input_len)%Z; [discriminate|].
  intros [= <- <-]. simpl. eapply ia_eudoxus_execute_stop. exact Hx.
Qed.

(** The value of an expression together with the equation that says so. *)
Definition inspect {A : Type} (a : A) : {b : A | a = b} := exist _ a eq_refl.

Equations? ee_execute_loop (full_match : bool) (input_len : nat)
    (input : option (list byte)) (data : ee_tx_data_t) (tx : ib_tx_t)
  : ib_status_t * ee_tx_data_t * ib_tx_t * Z
  by wf (length (pending_input (eudoxus_state data) input input_len)) lt :=
ee_execute_loop full_match input_len input data tx with
    inspect (ee_execute_pass full_match input_len input data tx) := {
  | exist _ (inl returned) _ => returned
  | exist _ (inr (data', tx')) Hpass =>
      ee_execute_loop full_match input_len None data' tx' }.
Proof. eapply ee_execute_pass_again. exact Hpass. Qed.

Definition ee_operator_execute_common (tx : ib_tx_t) (operator_data : ee_operator_data_t)
    (data : ee_tx_data_t) (field : ib_field_t) (full_match : bool)
  : ib_status_t * ee_tx_data_t * ib_tx_t * Z :=
  let run (input : list byte) (input_len : nat) :=
    if end_of_automata data then
      (* Nothing to do. *)
      (IB_OK, data, tx, 0%Z)
    else
      (* Loop until we exit by error or success. *)
      ee_execute_loop full_match input_len (Some input) data tx in
  match type field with
  | IB_FTYPE_NULSTR =>
      match ib_field_value field with
      | (IB_OK, input) => run input (strlen input)
      | (rc, _) => (rc, data, tx, 0%Z)
      end
  | IB_FTYPE_BYTESTR =>
      match ib_field_value field with
      | (IB_OK, bs) => run bs (length bs)
      | (rc, _) => (rc, data, tx, 0%Z)
      end
  | IB_FTYPE_LIST => (IB_ENOTIMPL, data, tx, 0%Z)
  | _ => (IB_EINVAL, data, tx, 0%Z)
  end.

(** Common code for [ee] and [ee_match] operators. *)
Definition ee_match_operator_execute_nonstream (tx : ib_tx_t)
    (instance_data : ee_operator_data_t) (field : ib_field_t)
    (capture : option nat) (full_match : bool)
  : ib_status_t * ib_tx_t * Z :=
  let operator_data := instance_data in
  (* Not streaming, so create data for this use only *)
  let local_cbdata := {| capture := capture; match_len := 0 |} in
  match ia_eudoxus_create_state (eudoxus operator_data) with
  | (IA_EUDOXUS_OK, state) =>
      let local_data :=
        {| eudoxus_state := state; ee_cbdata := local_cbdata; end_of_automata := false |} in
      let '(rc, _, tx', result) :=
        ee_operator_execute_common tx operator_data local_data field full_match in
      (rc, tx', result)
  | (_, _) => (IB_EINVAL, tx, 0%Z)
  end.

(** Execute the [ee] operator. *)
Definition ee_operator_execute (tx : ib_tx_t) (field : ib_field_t)
    (capture : option nat) (instance_data : ee_operator_data_t)
  : ib_status_t * ib_tx_t * Z :=
  ee_match_operator_execute_nonstream tx instance_data field capture false.

(** Execute the [ee_match] operator. *)
Definition ee_match_operator_execute (tx : ib_tx_t) (field : ib_field_t)
    (capture : option nat) (instance_data : ee_operator_data_t)
  : ib_status_t * ib_tx_t * Z :=
  ee_match_operator_execute_nonstream tx instance_data field capture true.

(** *** Per-transaction state of the streaming operator *)

(** Modelled from the spec: [ib_tx_get_module_data] and
    [ib_tx_set_module_data] are not among the sources.  The spec has the
    transaction own "a module-keyed associative store (transaction-local
    data) used by modules ... to stash per-transaction state": the slot of
    this module is read ([IB_ENOENT] while nothing was stored) and
    written. *)
Definition ib_tx_get_module_data (tx : ib_tx_t)
  : ib_status_t * option (ib_hash_t ee_tx_data_t) :=
  match module_data tx with
  | Some hash => (IB_OK, Some hash)
  | None => (IB_ENOENT, None)
  end.

Definition ib_tx_set_module_data (tx : ib_tx_t) (hash : ib_hash_t ee_tx_data_t)
  : ib_status_t * ib_tx_t :=
  match ib_mm_alloc (mm tx) with
  | (true, mm') => (IB_OK, tx_with_module_data (tx_with_mm tx mm') (Some hash))
  | (false, _) => (IB_EALLOC, tx)
  end.

(** Get or create an ib_hash_t inside of [tx] for storing the operator state. *)
Definition get_or_create_operator_data_hash (tx : ib_tx_t)
  : ib_status_t * option (ib_hash_t ee_tx_data_t) * ib_tx_t :=
  (* Get or create the hash that contains the rule data. *)
  match ib_tx_get_module_data tx with
  | (IB_OK, Some hash) => (IB_OK, Some hash, tx)
  | _ =>
      match ib_hash_create (mm tx) with
      | (IB_OK, Some hash, mm') =>
          match ib_tx_set_module_data (tx_with_mm tx mm') hash with
          | (IB_OK, tx') => (IB_OK, Some hash, tx')
          | (rc, tx') => (rc, None, tx')
          end
      | (rc, hash, mm') => (rc, hash, tx_with_mm tx mm')
      end
  end.

Definition ib_hash_get_ex {V} (h : ib_hash_t V) (key : string) (key_length : nat)
  : ib_status_t * option V :=
  ib_hash_get h (String.substring 0 key_length key).

Definition ib_hash_set_ex {V} (h : ib_hash_t V) (key : string) (key_length : nat)
    (v : V) (mm : ib_mm_t) : ib_status_t * ib_hash_t V * ib_mm_t :=
  ib_hash_set h (String.substring 0 key_length key) v mm.

(** Return the per-transaction state for the operator. *)
Definition get_ee_tx_data (tx : ib_tx_t) (instance_data : ee_operator_data_t)
  : ib_status_t * option ee_tx_data_t * ib_tx_t :=
  match get_or_create_operator_data_hash tx with
  | (IB_OK, Some hash, tx') =>
      match ib_hash_get_ex hash (id instance_data) (IB_UUID_LENGTH - 1) with
      | (IB_OK, tx_data) => (IB_OK, tx_data, tx')
      | (rc, _) => (rc, None, tx')
      end
  | (rc, _, tx') => (rc, None, tx')
  end.

(** Store the per-transaction data for use with the operator. *)
Definition set_ee_tx_data (tx : ib_tx_t) (instance_data : ee_operator_data_t)
    (tx_data : ee_tx_data_t) : ib_status_t * ib_tx_t :=
  match get_or_create_operator_data_hash tx with
  | (IB_OK, Some hash, tx') =>
      let '(rc, hash', mm') :=
        ib_hash_set_ex hash (id instance_data) (IB_UUID_LENGTH - 1) tx_data (mm tx') in
      (rc, tx_with_module_data (tx_with_mm tx' mm') (Some hash'))
  | (rc, _, tx') => (rc, tx')
  end.

(** The hash holds a pointer to the [ee_tx_data_t]: what a callee wrote
    through that pointer is what the entry shows afterwards.  An instance
    whose data never made it into the hash has nothing to show. *)
Definition tx_data_written (tx : ib_tx_t) (instance_data : ee_operator_data_t)
    (data : ee_tx_data_t) : ib_tx_t :=
  match module_data tx with
  | None => tx
  | Some hash =>
      let key := ib_hash_key hash (String.substring 0 (IB_UUID_LENGTH - 1) (id instance_data)) in
      tx_with_module_data tx
        (Some {| nocase := nocase hash;
                 entries := alter (fun _ => data) key (entries hash) |})
  end.

(** Execute the [ee] operator in a streaming fashion.  [None] is the
    process going down: [data] is written through without a check, and
    [ee_operator_execute_common] asserts it. *)
Definition ee_operator_execute_stream (tx : ib_tx_t) (field : ib_field_t)
    (capture : option nat) (instance_data : ee_operator_data_t)
  : option (ib_status_t * ib_tx_t * Z) :=
  let operator_data := instance_data in
  let execute (tx : ib_tx_t) (data : ee_tx_data_t) :=
    let '(rc, data', tx', result) :=
      ee_operator_execute_common tx operator_data data field false in
    Some (rc, tx_data_written tx' operator_data data', result) in
  (* Persist data. *)
  match get_ee_tx_data tx operator_data with
  | (IB_ENOENT, _, tx) =>
      (* Data not found create it *)
      let '(data, mm1) := ib_mm_alloc (mm tx) in
      let '(ee_cbdata, mm2) := ib_mm_alloc mm1 in
      let tx := tx_with_mm tx mm2 in
      if negb ee_cbdata then Some (IB_EALLOC, tx, 0%Z)
      else if negb data then None
      else
        (* [tx] and [capture] are set, [match_len] is not. *)
        let ee_cbdata := {| capture := capture; match_len := mm_stale mm2 |} in
        match ia_eudoxus_create_state (eudoxus operator_data) with
        | (IA_EUDOXUS_OK, state) =>
            let data :=
              {| eudoxus_state := state; ee_cbdata := ee_cbdata; end_of_automata := false |} in
            let '(_, tx) := set_ee_tx_data tx operator_data data in
            execute tx data
        | (_, _) => Some (IB_EINVAL, tx, 0%Z)
        end
  | (IB_OK, Some data, tx) => execute tx data
  | (IB_OK, None, tx) => None
  | (rc, _, tx) =>
      (* Error getting the state -- abort *)
      Some (rc, tx, 0%Z)
  end.

(** *** Transaction finished *)

(** Modelled from the spec: [ib_mpool_lite_create] and
    [ib_hash_iterator_create] are not among the sources; both allocate, and
    the handler tests both for the spec's "allocation-failure".  The pool is
    taken from the process heap, of which [heap] blocks are left; the
    iterator is the pool's first block. *)
Definition ib_mpool_lite_create (heap : nat) : ib_status_t * option ib_mm_t :=
  match heap with
  | O => (IB_EALLOC, None)
  | S k => (IB_OK, Some {| mm_left := k; mm_stale := 0 |})
  end.

Definition ib_hash_iterator_create (mm : ib_mm_t) : bool := fst (ib_mm_alloc mm).

Definition ia_eudoxus_destroy_state (data : ee_tx_data_t) : ee_tx_data_t :=
  match eudoxus_state data with
  | Some _ =>
      {| eudoxus_state := None; ee_cbdata := ee_cbdata data;
         end_of_automata := end_of_automata data |}
  | None => data
  end.

(** Destroy the eudoxus state when the transaction is complete. *)
Definition ee_tx_finished_handler (heap : nat) (tx : ib_tx_t) : ib_status_t * ib_tx_t :=
  match ib_tx_get_module_data tx with
  | (IB_ENOENT, _) =>
      (* Nothing to do. *)
      (IB_OK, tx)
  | (IB_OK, Some hash) =>
      match ib_mpool_lite_create heap with
      | (IB_OK, Some mpl) =>
          if negb (ib_hash_iterator_create mpl) then (IB_EALLOC, tx)
          else
            (* every entry of the hash is visited once *)
            (IB_OK,
             tx_with_module_data tx
               (Some {| nocase := nocase hash;
                        entries := ia_eudoxus_destroy_state <$> entries hash |}))
      | (rc, _) => (rc, tx)
      end
  | (rc, _) => (rc, tx)
  end.

(** The automaton states a transaction still holds. *)
Definition live_states (tx : ib_tx_t) : list (string * ee_tx_data_t) :=
  match module_data tx with
  | None => []
  | Some hash =>
      filter (fun kd => bool_decide (is_Some (eudoxus_state (snd kd))))
             (map_to_list (entries hash))
  end.

(** *** Configuration: the engine, [LoadEudoxus] and operator creation *)

Inductive ee_execute_fn : Set :=
| EXEC_ee_operator_execute
| EXEC_ee_operator_execute_stream
| EXEC_ee_match_operator_execute.

(** An operator as registered: name, whether it is a stream operator, and
    the execute function (every one is created by [ee_operator_create]). *)
Record ib_operator_t : Set := {
  op_name : string;
  op_stream : bool;
  op_execute : ee_execute_fn
}.

Record ib_context_t : Type := {
  module_config : gmap string ee_config_t
}.

(** Modelled from the spec: the engine ([ironbee/engine.h]) is not among
    the sources.  The spec has it own the hook registry, the operators and
    the "main" and "configuration" memory contexts, and has modules look
    their configuration up "via engine+module lookup".  Here it is the
    modules known by name, the main context, the main pool and the cleanups
    registered with it, the operators, and the handlers hooked to the
    transaction-finished state; a registration takes a block of the main
    pool. *)
Record ib_engine_t : Type := {
  modules : list string;
  context_main : option ib_context_t;
  mm_main : ib_mm_t;
  cleanups : list ia_eudoxus_t;
  operators : list ib_operator_t;
  tx_finished_hooks : list string
}.

Definition ib_engine_module_get (ib : ib_engine_t) (name : string) : ib_status_t :=
  if existsb (String.eqb name) (modules ib) then IB_OK else IB_ENOENT.

Definition ib_context_module_config (context : ib_context_t) (name : string)
  : ib_status_t * option ee_config_t :=
  match module_config context !! name with
  | Some config => (IB_OK, Some config)
  | None => (IB_EINVAL, None)
  end.

(** Access configuration data. *)
Definition ee_get_config (ib : ib_engine_t) : option ee_config_t :=
  match ib_engine_module_get ib MODULE_NAME_STR with
  | IB_OK =>
      match context_main ib with
      | None => None
      | Some context =>
          match ib_context_module_config context MODULE_NAME_STR with
          | (IB_OK, config) => config
          | (_, _) => None
          end
      end
  | _ => None
  end.

(** The configuration is reached by pointer: what is written to it is what
    the main context holds afterwards. *)
Definition engine_with_config (ib : ib_engine_t) (config : ee_config_t) (mm' : ib_mm_t)
    (cleanups' : list ia_eudoxus_t) : ib_engine_t :=
  {| modules := modules ib;
     context_main :=
       match context_main ib with
       | None => None
       | Some context =>
           Some {| module_config := <[MODULE_NAME_STR := config]> (module_config context) |}
       end;
     mm_main := mm';
     cleanups := cleanups';
     operators := operators ib;
     tx_finished_hooks := tx_finished_hooks ib |}.

Record ib_cfgparser_t : Type := {
  ib : ib_engine_t;
  curr_file : string
}.

Section Directive.

(** What the directive asks of the file system and of the automaton
    library. *)
Variable ib_util_relative_file : string -> string -> string.
Variable access_R_OK : string -> bool.
Variable ia_eudoxus_create_from_path : string -> ia_eudoxus_result_t * option ia_eudoxus_t.

(** Load a eudoxus pattern so it can be used in rules.  [None] is a failed
    assertion. *)
Definition load_eudoxus_pattern_param2 (cp : ib_cfgparser_t) (name : string)
    (pattern_name : string) (filename : string)
  : option (ib_status_t * ib_engine_t) :=
  let ib := ib cp in
  match ee_get_config ib with
  | None => None
  | Some config =>
      match eudoxus_pattern_hash config with
      | None => None
      | Some eudoxus_pattern_hash =>
          (* Check if the pattern name is already in use *)
          match ib_hash_get eudoxus_pattern_hash pattern_name with
          | (IB_OK, _) => Some (IB_EEXIST, ib)
          | (_, _) =>
              let automata_file := ib_util_relative_file (curr_file cp) filename in
              if negb (access_R_OK automata_file) then Some (IB_EINVAL, ib)
              else
                match ia_eudoxus_create_from_path automata_file with
                | (IA_EUDOXUS_OK, Some eudoxus) =>
                    (* Destroy this machine when the engine is destroyed. *)
                    match ib_mm_alloc (mm_main ib) with
                    | (false, _) => Some (IB_EALLOC, ib)
                    | (true, mm1) =>
                        let cleanups1 := cleanups ib ++ [eudoxus] in
                        match ib_hash_set eudoxus_pattern_hash pattern_name eudoxus mm1 with
                        | (IB_OK, hash', mm2) =>
                            Some (IB_OK,
                                  engine_with_config ib
                                    {| eudoxus_pattern_hash := Some hash' |} mm2 cleanups1)
                        | (rc, _, mm2) =>
                            Some (rc, engine_with_config ib config mm2 cleanups1)
                        end
                    end
                | (_, _) => Some (IB_EINVAL, ib)
                end
          end
      end
  end.

End Directive.

(** Create an instance of the [ee] operator.  [uuid] is what
    [ib_uuid_create_v4] comes back with. *)
Definition ee_operator_create (ib : ib_engine_t) (mm : ib_mm_t) (parameters : string)
    (uuid : ib_status_t * string)
  : option (ib_status_t * option ee_operator_data_t * ib_mm_t) :=
  match ee_get_config ib with
  | None => None
  | Some config =>
      match eudoxus_pattern_hash config with
      | None => None
      | Some eudoxus_pattern_hash =>
          (* Get my module object *)
          match ib_engine_module_get ib MODULE_NAME_STR with
          | IB_OK =>
              (* Allocate a rule data object, populate it *)
              match ib_mm_alloc mm with
              | (false, mm') => Some (IB_EALLOC, None, mm')
              | (true, mm') =>
                  match ib_hash_get eudoxus_pattern_hash parameters with
                  | (IB_ENOENT, _) => Some (IB_ENOENT, None, mm')
                  | (IB_OK, Some eudoxus) =>
                      match uuid with
                      | (IB_OK, id) =>
                          Some (IB_OK, Some {| id := id; eudoxus := eudoxus |}, mm')
                      | (rc, _) => Some (rc, None, mm')
                      end
                  | (rc, _) => Some (rc, None, mm')
                  end
              end
          | rc => Some (rc, None, mm)
          end
      end
  end.

Definition ib_operator_register (ib : ib_engine_t) (op : ib_operator_t)
  : ib_status_t * ib_engine_t :=
  match ib_mm_alloc (mm_main ib) with
  | (false, _) => (IB_EALLOC, ib)
  | (true, mm') =>
      (IB_OK,
       {| modules := modules ib; context_main := context_main ib; mm_main := mm';
          cleanups := cleanups ib; operators := operators ib ++ [op];
          tx_finished_hooks := tx_finished_hooks ib |})
  end.

Definition ib_hook_tx_register (ib : ib_engine_t) (handler : string)
  : ib_status_t * ib_engine_t :=
  match ib_mm_alloc (mm_main ib) with
  | (false, _) => (IB_EALLOC, ib)
  | (true, mm') =>
      (IB_OK,
       {| modules := modules ib; context_main := context_main ib; mm_main := mm';
          cleanups := cleanups ib; operators := operators ib;
          tx_finished_hooks := tx_finished_hooks ib ++ [handler] |})
  end.

(** Initialize the eudoxus operator module. *)
Definition ee_module_init (ib : ib_engine_t) : option (ib_status_t * ib_engine_t) :=
  match ee_get_config ib with
  | None => None
  | Some config =>
      let created :=
        match eudoxus_pattern_hash config with
        | Some _ => (IB_OK, ib)
        | None =>
            match ib_hash_create_nocase (mm_main ib) with
            | (IB_OK, hash, mm') =>
                (IB_OK, engine_with_config ib {| eudoxus_pattern_hash := hash |} mm' (cleanups ib))
            | (rc, _, _) => (rc, ib)
            end
        end in
      match created with
      | (IB_OK, ib) =>
          match ib_operator_register ib
                  {| op_name := "ee"; op_stream := false;
                     op_execute := EXEC_ee_operator_execute |} with
          | (IB_OK, ib) =>
              match ib_operator_register ib
                      {| op_name := "ee"; op_stream := true;
                         op_execute := EXEC_ee_operator_execute_stream |} with
              | (IB_OK, ib) =>
                  match ib_operator_register ib
                          {| op_name := "ee_match"; op_stream := false;
                             op_execute := EXEC_ee_match_operator_execute |} with
                  | (IB_OK, ib) =>
                      match ib_hook_tx_register ib "ee_tx_finished_handler" with
                      | (IB_OK, ib) => Some (IB_OK, ib)
                      | (rc, ib) => Some (rc, ib)
                      end
                  | (rc, ib) => Some (rc, ib)
                  end
              | (rc, ib) => Some (rc, ib)
              end
          | (rc, ib) => Some (rc, ib)
          end
      | (rc, ib) => Some (rc, ib)
      end
  end.

(** *** Inputs used in the examples *)

Definition bytestr (s : list byte) : ib_field_t :=
  {| type := IB_FTYPE_BYTESTR; fetch := IB_OK; bytes := s |}.

(** A trie for the single pattern GET: the output is the pattern. *)
Definition trie_GET : ia_eudoxus_t :=
  {| start_node := 0;
     nodes := [ {| edges := [("G"%byte, 1)]; outputs := [] |};
                {| edges := [("E"%byte, 2)]; outputs := [] |};
                {| edges := [("T"%byte, 3)]; outputs := [] |};
                {| edges := []; outputs := [list_byte_of_string "GET"] |} ] |}.

(** A trie for the patterns a, ab and abc. *)
Definition trie_abc : ia_eudoxus_t :=
  {| start_node := 0;
     nodes := [ {| edges := [("a"%byte, 1)]; outputs := [] |};
                {| edges := [("b"%byte, 2)]; outputs := [list_byte_of_string "a"] |};
                {| edges := [("c"%byte, 3)]; outputs := [list_byte_of_string "ab"] |};
                {| edges := []; outputs := [list_byte_of_string "abc"] |} ] |}.

(** A fresh transaction with two capture collections, whose pool hands out
    blocks that read as [stale]. *)
Definition tx_fresh (stale : Z) : ib_tx_t :=
  {| mm := {| mm_left := 16; mm_stale := stale |};
     captures := [[]; []];
     module_data := None |}.

Definition op_GET : ee_operator_data_t :=
  {| id := "6ba7b810-9dad-41d1-80b4-00c04fd430c8"; eudoxus := trie_GET |}.

Definition op_abc : ee_operator_data_t :=
  {| id := "6ba7b811-9dad-41d1-80b4-00c04fd430c8"; eudoxus := trie_abc |}.

Definition engine_configured : ib_engine_t :=
  {| modules := [MODULE_NAME_STR];
     context_main :=
       Some {| module_config :=
                 {[ MODULE_NAME_STR :=
                      {| eudoxus_pattern_hash :=
                           Some {| nocase := true; entries := {[ "methods"%string := trie_GET ]} |} |} ]} |};
     mm_main := {| mm_left := 16; mm_stale := 0 |};
     cleanups := [trie_GET];
     operators := [];
     tx_finished_hooks := [] |}.

(** The length the full-match comparison is made against. *)
Definition field_length (field : ib_field_t) : nat :=
  match type field with
  | IB_FTYPE_NULSTR => strlen (bytes field)
  | _ => length (bytes field)
  end.

(** The data an operator instance has in the transaction's store. *)
Definition tx_data (tx : ib_tx_t) (instance_data : ee_operator_data_t)
  : option ee_tx_data_t :=
  match module_data tx with
  | None => None
  | Some hash =>
      entries hash !! ib_hash_key hash (String.substring 0 (IB_UUID_LENGTH - 1) (id instance_data))
  end.

(** Successive streaming calls on one transaction, one per chunk. *)
Fixpoint ee_stream_feeds (tx : ib_tx_t) (capture : option nat)
    (instance_data : ee_operator_data_t) (chunks : list (list byte))
  : list (option (ib_status_t * Z)) * ib_tx_t :=
  match chunks with
  | [] => ([], tx)
  | chunk :: chunks' =>
      match ee_operator_execute_stream tx (bytestr chunk) capture instance_data with
      | None => ([None], tx)
      | Some (rc, tx', result) =>
          let '(rs, tx'') := ee_stream_feeds tx' capture instance_data chunks' in
          (Some (rc, result) :: rs, tx'')
      end
  end.

(** *** The loop of [ee_operator_execute_common] *)

Lemma ee_execute_loop_eq full_match input_len input data tx :
  ee_execute_loop full_match input_len input data tx =
  match ee_execute_pass full_match input_len input data tx with
  | inl returned => returned
  | inr (data', tx') => ee_execute_loop full_match input_len None data' tx'
  end.
Proof.
  rewrite ee_execute_loop_equation_1. unfold ee_execute_loop_unfold_clause_1.
  destruct (inspect _) as [x e]. destruct e.
  destruct (ee_execute_pass full_match input_len input data tx) as [r | [d t]];
    reflexivity.
Qed.

(** Induction along the turns of the loop. *)
Lemma ee_execute_loop_ind full_match input_len
    (P : option (list byte) -> ee_tx_data_t -> ib_tx_t ->
         ib_status_t * ee_tx_data_t * ib_tx_t * Z -> Prop) :
  (forall input data tx returned,
      ee_execute_pass full_match input_len input data tx = inl returned ->
      P input data tx returned) ->
  (forall input data tx data' tx' returned,
      ee_execute_pass full_match input_len input data tx = inr (data', tx') ->
      P None data' tx' returned ->
      P input data tx returned) ->
  forall input data tx,
    P input data tx (ee_execute_loop full_match input_len input data tx).
Proof.
  intros Hret Hagain input data tx.
  remember (length (pending_input (eudoxus_state data) input input_len)) as k eqn:Hk.
  revert input data tx Hk.
  induction k as [k IH] using lt_wf_ind. intros input data tx ->.
  rewrite ee_execute_loop_eq.
  destruct (ee_execute_pass full_match input_len input data tx) as [r | [d t]] eqn:Hp.
  - apply Hret, Hp.
  - eapply Hagain; [exact Hp|].
    eapply IH; [|reflexivity]. eapply ee_execute_pass_again, Hp.
Qed.


(** *** [ee] and [ee_match] *)

Lemma ee_execute_pass_accepts input_len input data tx rc data' tx' :
  ee_execute_pass true input_len input data tx = inl (rc, data', tx', 1%Z) ->
  match_len (ee_cbdata data') = Z.of_nat input_len.
Proof.
  unfold ee_execute_pass.
  destruct (ia_eudoxus_execute _ _ _ _ _) as [[ia_rc state'] [cb tx1]].
  destruct ia_rc; try discriminate.
  destruct (match_len cb =? Z.of_nat input_len)%Z eqn:E; [|discriminate].
  intros [= _ <- _]. simpl. apply Z.eqb_eq, E.
Qed.

Lemma ee_execute_loop_accepts input_len input data tx rc data' tx' :
  ee_execute_loop true input_len input data tx = (rc, data', tx', 1%Z) ->
  match_len (ee_cbdata data') = Z.of_nat input_len.
Proof.
  revert rc data' tx'.
  apply (ee_execute_loop_ind true input_len
           (fun _ _ _ returned => forall rc data' tx',
                returned = (rc, data', tx', 1%Z) ->
                match_len (ee_cbdata data') = Z.of_nat input_len)).
  - intros i d t r Hp rc data' tx' ->. eapply ee_execute_pass_accepts, Hp.
  - intros i d t d1 t1 r _ IH. exact IH.
Qed.

(** *** The streaming operator *)

Definition string_field (field : ib_field_t) : Prop :=
  (type field = IB_FTYPE_NULSTR \/ type field = IB_FTYPE_BYTESTR) /\ fetch field = IB_OK.

Lemma tx_data_written_same tx instance_data data :
  tx_data tx instance_data = Some data ->
  tx_data_written tx instance_data data = tx.
Proof.
  unfold tx_data, tx_data_written. destruct tx as [m c [[nc es]|]]; simpl; [|discriminate].
  intros H. unfold tx_with_module_data. simpl. do 3 f_equal.
  apply alter_id. intros x Hx. congruence.
Qed.

Lemma tx_data_written_lookup tx instance_data data0 data :
  tx_data tx instance_data = Some data0 ->
  tx_data (tx_data_written tx instance_data data) instance_data = Some data.
Proof.
  unfold tx_data, tx_data_written. destruct (module_data tx) as [[nc es]|]; simpl; [|discriminate].
  intros H. unfold ib_hash_key in *. simpl in *.
  rewrite lookup_alter_eq, H. reflexivity.
Qed.

Lemma tx_data_module_data tx tx' instance_data :
  module_data tx' = module_data tx ->
  tx_data tx' instance_data = tx_data tx instance_data.
Proof. unfold tx_data. intros ->. reflexivity. Qed.

(** The stored data is found again by [get_ee_tx_data], and nothing is
    allocated for it. *)
Lemma get_ee_tx_data_found tx instance_data data :
  tx_data tx instance_data = Some data ->
  get_ee_tx_data tx instance_data = (IB_OK, Some data, tx).
Proof.
  unfold tx_data, get_ee_tx_data, get_or_create_operator_data_hash, ib_tx_get_module_data.
  destruct (module_data tx) as [hash|]; [|discriminate].
  intros H. unfold ib_hash_get_ex, ib_hash_get. rewrite H. reflexivity.
Qed.

(** A call that finds the data runs the common helper on it and shows the
    outcome through the store. *)
Lemma ee_operator_execute_stream_found tx field capture instance_data data :
  tx_data tx instance_data = Some data ->
  ee_operator_execute_stream tx field capture instance_data =
  let '(rc, data', tx', result) :=
    ee_operator_execute_common tx instance_data data field false in
  Some (rc, tx_data_written tx' instance_data data', result).
Proof.
  intros H. unfold ee_operator_execute_stream.
  rewrite (get_ee_tx_data_found _ _ _ H). reflexivity.
Qed.



(** [ee] never goes round the loop twice. *)
Lemma ee_execute_loop_one_pass input_len input data tx :
  ee_execute_pass false input_len input data tx
  = inl (ee_execute_loop false input_len input data tx).
Proof.
  rewrite ee_execute_loop_eq. unfold ee_execute_pass.
  destruct (ia_eudoxus_execute _ _ _ _ _) as [[ia_rc state'] [cb tx1]].
  destruct ia_rc; reflexivity.
Qed.

Lemma ee_stream_exhausted_noop tx instance_data data capture field :
  tx_data tx instance_data = Some data ->
  end_of_automata data = true ->
  string_field field ->
  ee_operator_execute_stream tx field capture instance_data = Some (IB_OK, tx, 0%Z).
Proof.
  intros Hd He [Ht Hf].
  rewrite (ee_operator_execute_stream_found _ _ _ _ _ Hd).
  unfold ee_operator_execute_common, ib_field_value. rewrite Hf, He.
  destruct Ht as [-> | ->]; rewrite (tx_data_written_same _ _ _ Hd); reflexivity.
Qed.


(** The transaction after the chunk GE has been fed to a streaming GET
    operator with capture target [target]: the cursor sits on node 2 and the
    callback data holds [m] as its match length. *)
Definition tx_after_GE (target : option nat) (stale m : Z) : ib_tx_t :=
  {| mm := {| mm_left := 11; mm_stale := stale |};
     captures := [[]; []];
     module_data :=
       Some {| nocase := false;
               entries :=
                 {[ String.substring 0 (IB_UUID_LENGTH - 1) (id op_GET) :=
                      {| eudoxus_state :=
                           Some {| automaton := trie_GET; node := 2; input_location := [] |};
                         ee_cbdata := {| capture := target; match_len := m |};
                         end_of_automata := false |} ]} |} |}.

Lemma ee_stream_GE target stale :
  ee_operator_execute_stream (tx_fresh stale) (bytestr (list_byte_of_string "GE")) target op_GET
  = Some (IB_OK, tx_after_GE target stale stale, 0%Z).
Proof. vm_compute. reflexivity. Qed.

Lemma ee_stream_T_after_reset stale p :
  exists tx',
    ee_operator_execute_stream (tx_after_GE None stale (Z.pos p))
      (bytestr (list_byte_of_string "T /")) None op_GET
    = Some (IB_OK, tx', 0%Z)
    /\ option_map end_of_automata (tx_data tx' op_GET) = Some true.
Proof. eexists. split; vm_compute; reflexivity. Qed.

Lemma ee_stream_T_after_zero stale :
  exists tx',
    ee_operator_execute_stream (tx_after_GE None stale 0)
      (bytestr (list_byte_of_string "T /")) None op_GET
    = Some (IB_OK, tx', 1%Z).
Proof. eexists. vm_compute. reflexivity. Qed.

(** C2 (the streamed GET).  The data of an instance is created on the
    first streaming call and found again on the next, which goes on from the
    cursor the first one left.  The fresh callback data gets its [tx] and
    [capture] written but not its [match_len]: when the block the pool
    handed out does not read as 0 there, the callback takes the match on
    GET for a second one, resets the length and lets the automaton run on,
    and feeding GE then T / gives result 0 twice, with the automaton
    latched as exhausted.  Only a block that reads as 0 gives result 1 on
    the second chunk. *)
Theorem ee_stream_GET_needs_zeroed_block :
  forall stale, (0 < stale)%Z ->
    fst (ee_stream_feeds (tx_fresh stale) None op_GET
           [list_byte_of_string "GE"; list_byte_of_string "T /"])
    = [Some (IB_OK, 0%Z); Some (IB_OK, 0%Z)]
    /\ fst (ee_stream_feeds (tx_fresh 0) None op_GET
             [list_byte_of_string "GE"; list_byte_of_string "T /"])
       = [Some (IB_OK, 0%Z); Some (IB_OK, 1%Z)].
Proof.
  intros stale H. split; [|vm_compute; reflexivity].
  unfold ee_stream_feeds. rewrite ee_stream_GE.
  destruct stale as [|p|p]; try lia.
  destruct (ee_stream_T_after_reset (Z.pos p) p) as (tx' & -> & _). reflexivity.
Qed.

Lemma ee_stream_GET_needs_zeroed_block_witness :
  fst (ee_stream_feeds (tx_fresh 7) None op_GET
         [list_byte_of_string "GE"; list_byte_of_string "T /"])
  = [Some (IB_OK, 0%Z); Some (IB_OK, 0%Z)].
Proof.
  apply (ee_stream_GET_needs_zeroed_block 7). vm_compute. reflexivity.
Defined.

(** *** What a run leaves alone *)

(** The callback data keeps its capture target, the module data of the
    transaction is not touched, and no capture collection but the target is
    written. *)
Definition kept (target : option nat) (tx0 : ib_tx_t) (w : ee_callback_data_t * ib_tx_t) : Prop :=
  capture (fst w) = target
  /\ module_data (snd w) = module_data tx0
  /\ forall j : nat, Some j <> target -> captures (snd w) !! j = captures tx0 !! j.

Lemma kept_refl cb tx : kept (capture cb) tx (cb, tx).
Proof. repeat split. Qed.

Ltac kept_solve Hc Hm Hj Hne :=
  unfold kept; simpl; split; [congruence | split; [exact Hm |]];
  let j := fresh "j" in let Hjt := fresh "Hjt" in
  intros j Hjt; rewrite ?Hne by exact Hjt; apply Hj, Hjt.

Lemma ee_first_match_callback_kept target tx0 output input w :
  kept target tx0 w -> kept target tx0 (snd (ee_first_match_callback output input w)).
Proof.
  destruct w as [cb tx]. intros (Hc & Hm & Hj). simpl in Hc, Hm, Hj.
  assert (Hne : forall (c : nat) (j : nat) (l : list (list (string * list byte))) v,
             capture cb = Some c -> Some j <> target -> <[c:=v]> l !! j = l !! j).
  { intros c j l v Ec Hjt. apply list_lookup_insert_ne. congruence. }
  unfold ee_first_match_callback.
  destruct (0 <? match_len cb)%Z; [kept_solve Hc Hm Hj Hne|]. simpl.
  destruct (capture cb) as [c|] eqn:Ec; [|kept_solve Hc Hm Hj Hne].
  specialize (Hne c). 
  assert (Hne' : forall (j : nat) (l : list (list (string * list byte))) v,
             Some j <> target -> <[c:=v]> l !! j = l !! j) by (intros; apply Hne; auto).
  clear Hne.
  unfold ib_capture_clear. destruct (captures tx !! c) as [items|];
    [|kept_solve Hc Hm Hj Hne'].
  unfold ib_bytestr_dup_mem. simpl.
  destruct (ib_mm_alloc (mm tx)) as [[] m1]; simpl; [|kept_solve Hc Hm Hj Hne'].
  unfold ib_field_create. simpl.
  destruct (ib_mm_alloc m1) as [[] m2]; simpl; [|kept_solve Hc Hm Hj Hne'].
  unfold ib_capture_set_item. simpl.
  destruct (<[c:=[]]> (captures tx) !! c) as [items'|]; [|kept_solve Hc Hm Hj Hne'].
  destruct (ib_mm_alloc m2) as [[] m3]; simpl; kept_solve Hc Hm Hj Hne'.
Qed.

Lemma ee_execute_pass_kept target tx0 full_match input_len input data tx :
  kept target tx0 (ee_cbdata data, tx) ->
  match ee_execute_pass full_match input_len input data tx with
  | inl (_, data', tx', _) => kept target tx0 (ee_cbdata data', tx')
  | inr (data', tx') => kept target tx0 (ee_cbdata data', tx')
  end.
Proof.
  intros Hk. unfold ee_execute_pass.
  pose proof (ia_eudoxus_execute_invariant ee_first_match_callback (kept target tx0)
                (fun o i w => ee_first_match_callback_kept target tx0 o i w)
                (eudoxus_state data) input input_len _ Hk) as Hx.
  destruct (ia_eudoxus_execute _ _ _ _ _) as [[ia_rc state'] [cb tx1]].
  simpl in Hx.
  destruct ia_rc; try exact Hx.
  destruct full_match; [|exact Hx].
  destruct (match_len cb =? Z.of_nat input_len)%Z; exact Hx.
Qed.

Lemma ee_execute_loop_kept target tx0 full_match input_len input data tx :
  kept target tx0 (ee_cbdata data, tx) ->
  let '(_, data', tx', _) := ee_execute_loop full_match input_len input data tx in
  kept target tx0 (ee_cbdata data', tx').
Proof.
  apply (ee_execute_loop_ind full_match input_len
           (fun _ data tx returned =>
              kept target tx0 (ee_cbdata data, tx) ->
              let '(_, data', tx', _) := returned in
              kept target tx0 (ee_cbdata data', tx'))).
  - intros i d t [[[rc d'] t'] r] Hp Hk.
    pose proof (ee_execute_pass_kept target tx0 full_match input_len i d t Hk) as H.
    rewrite Hp in H. exact H.
  - intros i d t d1 t1 r Hp IH Hk. apply IH.
    pose proof (ee_execute_pass_kept target tx0 full_match input_len i d t Hk) as H.
    rewrite Hp in H. exact H.
Qed.

Lemma ee_operator_execute_common_kept tx operator_data data field full_match :
  let '(_, data', tx', _) :=
    ee_operator_execute_common tx operator_data data field full_match in
  kept (capture (ee_cbdata data)) tx (ee_cbdata data', tx').
Proof.
  unfold ee_operator_execute_common, ib_field_value.
  pose proof (kept_refl (ee_cbdata data) tx) as Hk.
  pose proof (fun len => ee_execute_loop_kept (capture (ee_cbdata data)) tx full_match len
                           (Some (bytes field)) data tx Hk) as Hl.
  destruct (type field); try exact Hk;
    (destruct (fetch field); try exact Hk);
    (destruct (end_of_automata data); [exact Hk|]); apply Hl.
Qed.

Lemma tx_data_written_inv tx instance_data data data' :
  tx_data (tx_data_written tx instance_data data) instance_data = Some data' ->
  data' = data.
Proof.
  unfold tx_data, tx_data_written. destruct (module_data tx) as [[nc es]|] eqn:E; simpl.
  - unfold ib_hash_key. simpl. rewrite lookup_alter_eq.
    destruct (es !! _); simpl; congruence.
  - rewrite E. discriminate.
Qed.

Lemma tx_data_written_captures tx instance_data data :
  captures (tx_data_written tx instance_data data) = captures tx.
Proof. unfold tx_data_written. destruct (module_data tx); reflexivity. Qed.

(** Without stored data [get_ee_tx_data] reports [IB_ENOENT], or
    [IB_EALLOC] when the hash could not be set up; there is still no data
    afterwards. *)
Lemma get_ee_tx_data_absent tx instance_data :
  tx_data tx instance_data = None ->
  exists rc tx1,
    get_ee_tx_data tx instance_data = (rc, None, tx1)
    /\ (rc = IB_ENOENT \/ rc = IB_EALLOC)
    /\ tx_data tx1 instance_data = None.
Proof.
  unfold tx_data, get_ee_tx_data, get_or_create_operator_data_hash, ib_tx_get_module_data.
  destruct (module_data tx) as [hash|] eqn:Em.
  - intros H. unfold ib_hash_get_ex, ib_hash_get. rewrite H.
    exists IB_ENOENT, tx. rewrite Em. auto.
  - intros _. unfold ib_hash_create, ib_tx_set_module_data, ib_mm_alloc. simpl.
    destruct (mm_left (mm tx)) as [|[|k]]; simpl.
    + exists IB_EALLOC, (tx_with_mm tx (mm tx)). simpl. rewrite Em. auto.
    + exists IB_EALLOC, (tx_with_mm tx {| mm_left := 0; mm_stale := mm_stale (mm tx) |}).
      simpl. rewrite Em. auto.
    + eexists IB_ENOENT, _. split; [reflexivity|]. split; [auto|]. reflexivity.
Qed.

(** The first chunk is fed with collection 0 as capture target, the second
    with collection 1: the match on GET is written to collection 0. *)
Example ee_stream_capture_example :
  ee_operator_execute_stream (tx_fresh 0) (bytestr (list_byte_of_string "GE")) (Some 0) op_GET
  = Some (IB_OK, tx_after_GE (Some 0) 0 0, 0%Z)
  /\ option_map (fun r => (fst (fst r), captures (snd (fst r)), snd r))
       (ee_operator_execute_stream (tx_after_GE (Some 0) 0 0)
          (bytestr (list_byte_of_string "T /")) (Some 1) op_GET)
     = Some (IB_OK, [[("0"%string, list_byte_of_string "GET")]; []], 1%Z).
Proof. split; vm_compute; reflexivity. Qed.

(** *** Transaction finished *)

(** With two blocks of heap (the pool and the iterator) the handler visits
    every entry and no automaton state is left. *)
Lemma ee_tx_finished_handler_destroys_all heap tx hash :
  module_data tx = Some hash ->
  2 <= heap ->
  exists tx',
    ee_tx_finished_handler heap tx = (IB_OK, tx')
    /\ live_states tx' = []
    /\ forall instance_data,
         tx_data tx' instance_data
         = ia_eudoxus_destroy_state <$> tx_data tx instance_data.
Proof.
  intros Hm Hh. unfold ee_tx_finished_handler, ib_tx_get_module_data. rewrite Hm.
  destruct heap as [|[|k]]; try lia. simpl.
  eexists. split; [reflexivity|]. split.
  - unfold live_states. simpl.
    match goal with |- ?l = [] => destruct l as [|[key d] rest] eqn:E end;
      [reflexivity|exfalso].
    assert (Hin : (key, d) ∈ (key, d) :: rest) by left.
    rewrite <- E in Hin. apply list_elem_of_filter in Hin as [Hlive Hin].
    apply elem_of_map_to_list in Hin.
    rewrite lookup_fmap in Hin.
    destruct (entries hash !! key) as [d0|]; simpl in Hin; [|discriminate].
    injection Hin as <-. apply bool_decide_unpack in Hlive. simpl in Hlive.
    unfold ia_eudoxus_destroy_state in Hlive.
    destruct (eudoxus_state d0) eqn:Es; simpl in Hlive.
    + destruct Hlive; discriminate.
    + rewrite Es in Hlive. destruct Hlive; discriminate.
  - intros instance_data. unfold tx_data. simpl. rewrite Hm.
    unfold ib_hash_key. simpl. apply lookup_fmap.
Qed.

(** C4 (teardown at transaction-finished).  The handler takes a pool from
    the heap and an iterator from that pool before it visits anything; when
    either allocation fails it returns [IB_EALLOC] with the transaction as
    it was, every automaton state still in place.  So it is with the state
    of a streaming GET operator that has been fed one chunk. *)
Theorem ee_tx_finished_handler_alloc_failure :
  (forall heap tx hash,
      module_data tx = Some hash -> heap < 2 ->
      ee_tx_finished_handler heap tx = (IB_EALLOC, tx))
  /\ ee_tx_finished_handler 1 (tx_after_GE None 0 0) = (IB_EALLOC, tx_after_GE None 0 0)
  /\ length (live_states (tx_after_GE None 0 0)) = 1
  /\ length (live_states (snd (ee_tx_finished_handler 1 (tx_after_GE None 0 0)))) = 1
  /\ length (live_states (snd (ee_tx_finished_handler 2 (tx_after_GE None 0 0)))) = 0.
Proof.
  split.
  - intros heap tx hash Hm Hh.
    unfold ee_tx_finished_handler, ib_tx_get_module_data. rewrite Hm.
    destruct heap as [|[|k]]; try lia; reflexivity.
  - repeat split; vm_compute; reflexivity.
Qed.

Lemma ee_tx_finished_handler_alloc_failure_witness :
  ee_tx_finished_handler 0 (tx_after_GE (Some 0) 0 0) = (IB_EALLOC, tx_after_GE (Some 0) 0 0).
Proof.
  eapply (proj1 ee_tx_finished_handler_alloc_failure); [reflexivity|lia].
Defined.

(** *** Input fields that are not strings *)

Definition field_of_type (t : ib_ftype_t) : ib_field_t :=
  {| type := t; fetch := IB_OK; bytes := [] |}.

(** What the type test of [ee_operator_execute_common] answers for a field
    that is neither a NUL-terminated nor a byte string. *)
Definition unsupported_status (t : ib_ftype_t) : ib_status_t :=
  match t with
  | IB_FTYPE_LIST => IB_ENOTIMPL
  | _ => IB_EINVAL
  end.

(** C9, as stated, fails: a number field is not a supported input of [ee],
    and the operator answers [IB_EINVAL], not [IB_ENOTIMPL]. *)
Lemma ee_number_field_is_einval :
  ~ (forall field,
        type field <> IB_FTYPE_NULSTR -> type field <> IB_FTYPE_BYTESTR ->
        fst (fst (ee_operator_execute (tx_fresh 0) field None op_GET)) = IB_ENOTIMPL).
Proof.
  intros H. specialize (H (field_of_type IB_FTYPE_NUM)).
  assert (E : fst (fst (ee_operator_execute (tx_fresh 0) (field_of_type IB_FTYPE_NUM)
                          None op_GET)) = IB_EINVAL) by (vm_compute; reflexivity).
  rewrite E in H. discriminate H; discriminate.
Qed.

(** *** Pattern names *)

(** On an engine whose configuration has no pattern hash yet, the module's
    initialisation creates a no-case hash, registers the three operators
    and hooks the handler to the transaction-finished state. *)
Example ee_module_init_registers :
  let ib0 :=
    {| modules := [MODULE_NAME_STR];
       context_main :=
         Some {| module_config := {[ MODULE_NAME_STR := {| eudoxus_pattern_hash := None |} ]} |};
       mm_main := {| mm_left := 8; mm_stale := 0 |};
       cleanups := []; operators := []; tx_finished_hooks := [] |} in
  match ee_module_init ib0 with
  | Some (rc, ib1) =>
      rc = IB_OK
      /\ option_map (fun config => option_map nocase (eudoxus_pattern_hash config))
           (ee_get_config ib1) = Some (Some true)
      /\ map (fun op => (op_name op, op_stream op, op_execute op)) (operators ib1)
         = [("ee"%string, false, EXEC_ee_operator_execute);
            ("ee"%string, true, EXEC_ee_operator_execute_stream);
            ("ee_match"%string, false, EXEC_ee_match_operator_execute)]
      /\ tx_finished_hooks ib1 = ["ee_tx_finished_handler"%string]
  | None => False
  end.
Proof. vm_compute. repeat split; reflexivity. Qed.

(** C8 (pattern names).  [LoadEudoxus] under a name the pattern hash
    already holds returns [IB_EEXIST] and leaves the engine, and so the
    hash, as it was.  Creating an operator for a name the hash does not
    hold never succeeds: it returns [IB_ENOENT], unless the pool cannot
    give the block for the instance, which is [IB_EALLOC]. *)
Theorem ee_pattern_name_defined_once :
  (forall relative access_R_OK create_from_path cp name pattern_name filename
          config hash eudoxus0,
      ee_get_config (ib cp) = Some config ->
      eudoxus_pattern_hash config = Some hash ->
      ib_hash_get hash pattern_name = (IB_OK, Some eudoxus0) ->
      load_eudoxus_pattern_param2 relative access_R_OK create_from_path
        cp name pattern_name filename
      = Some (IB_EEXIST, ib cp))
  /\ (forall ib mm parameters uuid config hash,
      ee_get_config ib = Some config ->
      eudoxus_pattern_hash config = Some hash ->
      ib_hash_get hash parameters = (IB_ENOENT, None) ->
      ee_operator_create ib mm parameters uuid
      = Some (if fst (ib_mm_alloc mm) then IB_ENOENT else IB_EALLOC,
              None, snd (ib_mm_alloc mm))).
Proof.
  split.
  - intros relative access_R_OK create_from_path cp name pattern_name filename
           config hash eudoxus0 Hc Hh Hg.
    unfold load_eudoxus_pattern_param2. rewrite Hc, Hh, Hg. reflexivity.
  - intros ib0 mm0 parameters uuid config hash Hc Hh Hg.
    unfold ee_operator_create. rewrite Hc, Hh.
    unfold ee_get_config in Hc.
    destruct (ib_engine_module_get ib0 MODULE_NAME_STR); try discriminate.
    destruct (ib_mm_alloc mm0) as [[] mm']; simpl; [|reflexivity].
    rewrite Hg. reflexivity.
Qed.

(** The name is compared without regard to case: [Methods] is taken once
    [methods] is defined. *)
Lemma ee_pattern_name_defined_once_witness :
  load_eudoxus_pattern_param2 (fun _ file => file) (fun _ => true)
    (fun _ => (IA_EUDOXUS_OK, Some trie_abc))
    {| ib := engine_configured; curr_file := "ironbee.conf" |}
    "LoadEudoxus" "Methods" "methods.e"
  = Some (IB_EEXIST, engine_configured)
  /\ ee_operator_create engine_configured {| mm_left := 4; mm_stale := 0 |} "verbs"
       (IB_OK, id op_GET)
     = Some (IB_ENOENT, None, {| mm_left := 3; mm_stale := 0 |}).
Proof.
  split.
  - eapply (proj1 ee_pattern_name_defined_once); vm_compute; reflexivity.
  - eapply (proj2 ee_pattern_name_defined_once); vm_compute; reflexivity.
Defined.

(** *** Which match lengths are compared *)

Lemma ee_first_match_callback_skips output input cb tx :
  (0 <? match_len cb)%Z = true ->
  ee_first_match_callback output input (cb, tx)
  = (IA_EUDOXUS_CMD_CONTINUE, (set_match_len cb 0, tx)).
Proof. intros H. unfold ee_first_match_callback. rewrite H. reflexivity. Qed.

Lemma ee_first_match_callback_records output input cb tx :
  (0 <? match_len cb)%Z = false ->
  exists command cb' tx',
    ee_first_match_callback output input (cb, tx) = (command, (cb', tx'))
    /\ command <> IA_EUDOXUS_CMD_CONTINUE
    /\ match_len cb' = uint32 (Z.of_nat (length output)).
Proof.
  intros H. unfold ee_first_match_callback. rewrite H. simpl.
  destruct (capture cb) as [c|]; [|repeat eexists; discriminate].
  destruct (ib_capture_clear c tx) as [[] tx1]; try (repeat eexists; discriminate).
  destruct (ib_bytestr_dup_mem tx1 output) as [[[] bs] tx2];
    try (repeat eexists; discriminate).
  destruct (ib_field_create tx2 (ib_capture_name 0) bs) as [[[] field] tx3];
    try (repeat eexists; discriminate).
  destruct (ib_capture_set_item c 0 field tx3) as [[] tx4];
    repeat eexists; discriminate.
Qed.

(** The stored length after the outputs of one node have been offered. *)
Lemma ia_eudoxus_output_recorded outs input cb tx :
  let '(r, (cb', _)) := ia_eudoxus_output ee_first_match_callback outs input (cb, tx) in
  match outs with
  | [] => r = IA_EUDOXUS_OK /\ cb' = cb
  | o1 :: outs' =>
      if (0 <? match_len cb)%Z then
        match outs' with
        | [] => r = IA_EUDOXUS_OK /\ match_len cb' = 0%Z
        | o2 :: _ =>
            r <> IA_EUDOXUS_OK /\ match_len cb' = uint32 (Z.of_nat (length o2))
        end
      else r <> IA_EUDOXUS_OK /\ match_len cb' = uint32 (Z.of_nat (length o1))
  end.
Proof.
  assert (Hrec : forall o outs' cb tx,
             (0 <? match_len cb)%Z = false ->
             let '(r, (cb', _)) :=
               ia_eudoxus_output ee_first_match_callback (o :: outs') input (cb, tx) in
             r <> IA_EUDOXUS_OK /\ match_len cb' = uint32 (Z.of_nat (length o))).
  { intros o outs' cb0 tx0 H. cbn [ia_eudoxus_output].
    destruct (ee_first_match_callback_records o input cb0 tx0 H)
      as (command & cb' & tx' & -> & Hc & Hl).
    destruct command; [contradiction| |]; split; (discriminate || exact Hl). }
  destruct outs as [|o1 outs']; [simpl; auto|].
  destruct (0 <? match_len cb)%Z eqn:E; [|apply Hrec, E].
  cbn [ia_eudoxus_output]. rewrite (ee_first_match_callback_skips _ _ _ _ E).
  destruct outs' as [|o2 outs'']; [simpl; auto|].
  apply Hrec. reflexivity.
Qed.

Lemma ia_eudoxus_run_recorded a n input cb tx state' cb' tx' :
  ia_eudoxus_run ee_first_match_callback a n input (cb, tx)
  = (IA_EUDOXUS_STOP, state', (cb', tx')) ->
  if (0 <? match_len cb)%Z then
    exists o1 o2 rest,
      ia_eudoxus_matches a n input = o1 :: o2 :: rest
      /\ match_len cb' = uint32 (Z.of_nat (length o2))
  else
    exists o rest,
      ia_eudoxus_matches a n input = o :: rest
      /\ match_len cb' = uint32 (Z.of_nat (length o)).
Proof.
  revert n cb tx. induction input as [|c input IH]; intros n cb tx; simpl.
  - discriminate.
  - destruct (ia_eudoxus_next a n c) as [n'|]; [|discriminate].
    pose proof (ia_eudoxus_output_recorded (node_outputs a n') input cb tx) as Ho.
    destruct (ia_eudoxus_output _ _ _ _) as [r [cb1 tx1]].
    destruct (node_outputs a n') as [|o1 outs'].
    + destruct Ho as [-> ->]. simpl. apply IH.
    + destruct (0 <? match_len cb)%Z eqn:E.
      * destruct outs' as [|o2 outs''].
        -- destruct Ho as [-> Hl]. intros H. apply IH in H.
           rewrite Hl in H. simpl in H.
           destruct H as (o & rest & -> & H). eauto.
        -- destruct Ho as [Hr Hl].
           destruct r; try contradiction; intros [= _ <- _]; simpl; eauto.
      * destruct Ho as [Hr Hl].
        destruct r; try contradiction; intros [= _ <- _]; simpl; eauto.
Qed.

(** C5, as stated, fails: on the trie for a, ab and abc the input abc is
    accepted by [ee_match], and the first match, a, does not have the length
    of the input. *)
Lemma ee_match_accepts_on_third_match :
  ~ (forall instance_data input,
        snd (ee_match_operator_execute (tx_fresh 0) (bytestr input) None instance_data)
        = 1%Z ->
        option_map (@length byte)
          (head (ia_eudoxus_matches (eudoxus instance_data)
                   (start_node (eudoxus instance_data)) input))
        = Some (length input)).
Proof.
  intros H. specialize (H op_abc (list_byte_of_string "abc")).
  vm_compute in H. specialize (H eq_refl). discriminate H.
Qed.

Example ee_match_abc :
  ia_eudoxus_matches trie_abc 0 (list_byte_of_string "abc")
  = [list_byte_of_string "a"; list_byte_of_string "ab"; list_byte_of_string "abc"]
  /\ ee_match_operator_execute (tx_fresh 0) (bytestr (list_byte_of_string "abc")) None op_abc
     = (IB_OK, tx_fresh 0, 1%Z)
  /\ ee_match_operator_execute (tx_fresh 0) (bytestr (list_byte_of_string "ab")) None op_abc
     = (IB_OK, tx_fresh 0, 0%Z).
Proof. repeat split; vm_compute; reflexivity. Qed.

(** C5, amended (one match length per stopping pass).  A pass of the
    automaton that stops has recorded exactly one match length, the one the
    full-match test then compares with the input length.  In a pass entered
    with no length stored that is the length of the first match of the
    pass.  In a pass entered with a length stored (a resumed pass) the first
    match only resets the stored length to 0 and is skipped, and the length
    recorded is that of the second match; so the lengths of later matches
    are compared as well, not only that of the first. *)
Theorem ee_match_one_length_per_pass :
  forall input_len input data tx st state' cb' tx',
    eudoxus_state data = Some st ->
    ia_eudoxus_execute ee_first_match_callback (eudoxus_state data) input input_len
                       (ee_cbdata data, tx)
    = (IA_EUDOXUS_STOP, state', (cb', tx')) ->
    let matches :=
      ia_eudoxus_matches (automaton st) (node st)
                         (pending_input (Some st) input input_len) in
    (if (0 <? match_len (ee_cbdata data))%Z then
       exists o1 o2 rest,
         matches = o1 :: o2 :: rest
         /\ match_len cb' = uint32 (Z.of_nat (length o2))
     else
       exists o rest,
         matches = o :: rest
         /\ match_len cb' = uint32 (Z.of_nat (length o)))
    /\ ee_execute_pass true input_len input data tx
       = let data' := {| eudoxus_state := state'; ee_cbdata := cb';
                         end_of_automata := end_of_automata data |} in
         if (match_len cb' =? Z.of_nat input_len)%Z
         then inl (IB_OK, data', tx', 1%Z)
         else inr (data', tx').
Proof.
  intros input_len input data tx st state' cb' tx' Hs Hx. split.
  - rewrite Hs in Hx. unfold ia_eudoxus_execute in Hx.
    destruct (ia_eudoxus_run _ _ _ _ _) as [[r s1] [cb1 tx1]] eqn:Hr.
    injection Hx as -> _ <- _.
    apply ia_eudoxus_run_recorded in Hr. exact Hr.
  - unfold ee_execute_pass. rewrite Hx. reflexivity.
Qed.

(** The resumed pass of [ee_match] over abc: entered on node 1 with length 1
    stored, it skips ab and records abc. *)
Lemma ee_match_one_length_per_pass_witness :
  exists o1 o2 rest,
    ia_eudoxus_matches trie_abc 1 (list_byte_of_string "bc") = o1 :: o2 :: rest
    /\ match_len {| capture := None; match_len := 3 |} = uint32 (Z.of_nat (length o2)).
Proof.
  apply (proj1 (ee_match_one_length_per_pass 3 None
           {| eudoxus_state :=
                Some {| automaton := trie_abc; node := 1;
                        input_location := list_byte_of_string "bc" |};
              ee_cbdata := {| capture := None; match_len := 1 |};
              end_of_automata := false |}
           (tx_fresh 0)
           {| automaton := trie_abc; node := 1;
              input_location := list_byte_of_string "bc" |}
           (Some {| automaton := trie_abc; node := 3; input_location := [] |})
           {| capture := None; match_len := 3 |}
           (tx_fresh 0) eq_refl eq_refl)).
Defined.

(** *** What a pass over the input reports *)

(** The bytes of a string field that the operators hand to the automaton. *)
Definition ee_input (field : ib_field_t) : list byte :=
  take (field_length field) (bytes field).

(** The status and result that [ee_execute_pass] makes of what the automaton
    reports, when it is not asked for a full match. *)
Definition ee_pass_status (r : ia_eudoxus_result_t) : ib_status_t * Z :=
  match r with
  | IA_EUDOXUS_STOP => (IB_OK, 1%Z)
  | IA_EUDOXUS_END => (IB_OK, 0%Z)
  | IA_EUDOXUS_OK => (IB_OK, 0%Z)
  | _ => (IB_EUNKNOWN, 0%Z)
  end.

(** The callback on a match met with no length stored, as the automaton
    sees it: it stops, or fails. *)
Definition ee_first_match (o : list byte) (w : ee_callback_data_t * ib_tx_t)
  : ia_eudoxus_result_t * (ee_callback_data_t * ib_tx_t) :=
  match ee_first_match_callback o [] w with
  | (IA_EUDOXUS_CMD_STOP, w') => (IA_EUDOXUS_STOP, w')
  | (_, w') => (IA_EUDOXUS_ERROR, w')
  end.

Lemma ee_first_match_result o w :
  fst (ee_first_match o w) = IA_EUDOXUS_STOP \/ fst (ee_first_match o w) = IA_EUDOXUS_ERROR.
Proof.
  unfold ee_first_match. destruct (ee_first_match_callback o [] w) as [[] w']; auto.
Qed.

Lemma ia_eudoxus_output_first o outs input cb tx :
  (0 <? match_len cb)%Z = false ->
  ia_eudoxus_output ee_first_match_callback (o :: outs) input (cb, tx)
  = ee_first_match o (cb, tx).
Proof.
  intros H. cbn [ia_eudoxus_output]. unfold ee_first_match.
  change (ee_first_match_callback o input (cb, tx))
    with (ee_first_match_callback o [] (cb, tx)).
  destruct (ee_first_match_callback_records o [] cb tx H)
    as (command & cb' & tx' & -> & Hc & _).
  destruct command; [contradiction | reflexivity | reflexivity].
Qed.

(** A run entered with no length stored goes as far as the first match and
    calls the callback there, once; without a match it calls nothing. *)
Lemma ia_eudoxus_run_first a n input cb tx :
  (0 <? match_len cb)%Z = false ->
  match ia_eudoxus_matches a n input with
  | [] =>
      exists r st,
        ia_eudoxus_run ee_first_match_callback a n input (cb, tx) = (r, st, (cb, tx))
        /\ (r = IA_EUDOXUS_OK \/ r = IA_EUDOXUS_END)
  | o :: _ =>
      exists st,
        ia_eudoxus_run ee_first_match_callback a n input (cb, tx)
        = (fst (ee_first_match o (cb, tx)), st, snd (ee_first_match o (cb, tx)))
  end.
Proof.
  intros H. revert n. induction input as [|c rest IH]; intros n;
    cbn [ia_eudoxus_run ia_eudoxus_matches].
  - eauto.
  - destruct (ia_eudoxus_next a n c) as [n'|]; [|eauto].
    destruct (node_outputs a n') as [|o outs]; cbn [app].
    + cbn [ia_eudoxus_output]. apply IH.
    + rewrite (ia_eudoxus_output_first o outs rest cb tx H).
      destruct (ee_first_match_result o (cb, tx)) as [E | E];
        destruct (ee_first_match o (cb, tx)) as [r w']; simpl in E; subst r;
        eexists; reflexivity.
Qed.

(** [ee] makes one pass. *)
Lemma ee_execute_loop_false input_len input data tx st r st' cb tx' :
  eudoxus_state data = Some st ->
  ia_eudoxus_run ee_first_match_callback (automaton st) (node st)
                 (pending_input (Some st) input input_len) (ee_cbdata data, tx)
  = (r, st', (cb, tx')) ->
  ee_execute_loop false input_len input data tx
  = (fst (ee_pass_status r),
     {| eudoxus_state := Some st'; ee_cbdata := cb;
        end_of_automata :=
          match r with IA_EUDOXUS_END => true | _ => end_of_automata data end |},
     tx', snd (ee_pass_status r)).
Proof.
  intros Hs Hr.
  pose proof (ee_execute_loop_one_pass input_len input data tx) as Hp.
  unfold ee_execute_pass, ia_eudoxus_execute in Hp. rewrite Hs, Hr in Hp.
  destruct r; injection Hp as <-; reflexivity.
Qed.

(** The one-shot operators on a string field: the automaton is started on
    its start node and given the field's bytes. *)
Lemma ee_operator_execute_run tx field capture instance_data state r st' cb tx' :
  string_field field ->
  ia_eudoxus_create_state (eudoxus instance_data) = (IA_EUDOXUS_OK, state) ->
  ia_eudoxus_run ee_first_match_callback (eudoxus instance_data)
                 (start_node (eudoxus instance_data)) (ee_input field)
                 ({| capture := capture; match_len := 0 |}, tx)
  = (r, st', (cb, tx')) ->
  ee_operator_execute tx field capture instance_data
  = (fst (ee_pass_status r), tx', snd (ee_pass_status r)).
Proof.
  intros [Ht Hf] Hc Hr.
  unfold ee_operator_execute, ee_match_operator_execute_nonstream. rewrite Hc.
  unfold ia_eudoxus_create_state in Hc.
  destruct (nodes (eudoxus instance_data) !! start_node (eudoxus instance_data));
    [|discriminate].
  injection Hc as <-.
  unfold ee_input, field_length in Hr.
  unfold ee_operator_execute_common, ib_field_value. rewrite Hf.
  destruct Ht as [Ht | Ht]; rewrite Ht in *; cbn [end_of_automata];
    erewrite ee_execute_loop_false by (try reflexivity; exact Hr); reflexivity.
Qed.

(** X1.  On a string field and without a capture target, [ee] returns
    [IB_OK], leaves the transaction as it was, and its result is 1 exactly
    when the automaton meets an output somewhere along the field's bytes:
    it stops at the first one. *)
Theorem ee_finds_first_match :
  forall tx field instance_data state,
    string_field field ->
    ia_eudoxus_create_state (eudoxus instance_data) = (IA_EUDOXUS_OK, state) ->
    ee_operator_execute tx field None instance_data
    = (IB_OK, tx,
       match ia_eudoxus_matches (eudoxus instance_data)
               (start_node (eudoxus instance_data)) (ee_input field) with
       | [] => 0%Z
       | _ :: _ => 1%Z
       end).
Proof.
  intros tx field instance_data state Hf Hc.
  pose proof (ia_eudoxus_run_first (eudoxus instance_data)
                (start_node (eudoxus instance_data)) (ee_input field)
                {| capture := None; match_len := 0 |} tx eq_refl) as Hrun.
  destruct (ia_eudoxus_matches _ _ _) as [|o rest].
  - destruct Hrun as (r & st & Hr & Hcase).
    rewrite (ee_operator_execute_run _ _ _ _ _ _ _ _ _ Hf Hc Hr).
    destruct Hcase as [-> | ->]; reflexivity.
  - destruct Hrun as (st & Hr).
    rewrite (ee_operator_execute_run _ _ _ _ _ _ _ _ _ Hf Hc Hr). reflexivity.
Qed.

Lemma ee_finds_first_match_witness :
  ee_operator_execute (tx_fresh 0) (bytestr (list_byte_of_string "GET /")) None op_GET
  = (IB_OK, tx_fresh 0, 1%Z).
Proof.
  apply (ee_finds_first_match (tx_fresh 0) (bytestr (list_byte_of_string "GET /")) op_GET
           (Some {| automaton := trie_GET; node := 0; input_location := [] |})).
  - split; [right|]; reflexivity.
  - reflexivity.
Defined.

(** *** Captures *)

Lemma ee_first_match_captured o cb tx c items :
  (0 <? match_len cb)%Z = false ->
  capture cb = Some c ->
  captures tx !! c = Some items ->
  3 <= mm_left (mm tx) ->
  ee_first_match o (cb, tx)
  = (IA_EUDOXUS_STOP,
     (set_match_len cb (uint32 (Z.of_nat (length o))),
      {| mm := {| mm_left := mm_left (mm tx) - 3; mm_stale := mm_stale (mm tx) |};
         captures := <[c := [(ib_capture_name 0, o)]]> (captures tx);
         module_data := module_data tx |})).
Proof.
  intros Hm Hc Hi Hl.
  assert (Hlt : c < length (captures tx)) by (eapply lookup_lt_Some; exact Hi).
  unfold ee_first_match, ee_first_match_callback. rewrite Hm.
  cbn [set_match_len capture]. rewrite Hc.
  unfold ib_capture_clear. rewrite Hi.
  destruct tx as [[left stale] cs md]. cbn in Hl, Hlt, Hi |- *.
  destruct left as [|[|[|k]]]; try lia.
  unfold ib_bytestr_dup_mem, ib_field_create, ib_capture_set_item, ib_mm_alloc,
    tx_with_captures, tx_with_mm. cbn.
  rewrite list_lookup_insert_eq by exact Hlt. cbn.
  rewrite list_insert_insert_eq.
  replace (k - 0) with k by lia. reflexivity.
Qed.

(** X2.  With a capture target that is a collection of the transaction and
    three blocks left in its pool, an [ee] that meets a match returns
    [IB_OK] with result 1 and leaves in the target exactly one item, named 0,
    holding the bytes of the first match; whatever the collection held is
    gone, the other collections and the module data are as they were. *)
Theorem ee_capture_holds_first_match :
  forall tx field c instance_data state o rest items,
    string_field field ->
    ia_eudoxus_create_state (eudoxus instance_data) = (IA_EUDOXUS_OK, state) ->
    ia_eudoxus_matches (eudoxus instance_data)
      (start_node (eudoxus instance_data)) (ee_input field) = o :: rest ->
    captures tx !! c = Some items ->
    3 <= mm_left (mm tx) ->
    ee_operator_execute tx field (Some c) instance_data
    = (IB_OK,
       {| mm := {| mm_left := mm_left (mm tx) - 3; mm_stale := mm_stale (mm tx) |};
          captures := <[c := [(ib_capture_name 0, o)]]> (captures tx);
          module_data := module_data tx |},
       1%Z).
Proof.
  intros tx field c instance_data state o rest items Hf Hc Hm Hi Hl.
  pose proof (ia_eudoxus_run_first (eudoxus instance_data)
                (start_node (eudoxus instance_data)) (ee_input field)
                {| capture := Some c; match_len := 0 |} tx eq_refl) as Hrun.
  rewrite Hm in Hrun. destruct Hrun as (st & Hr).
  rewrite (ee_first_match_captured o {| capture := Some c; match_len := 0 |} tx c items
             eq_refl eq_refl Hi Hl) in Hr.
  cbn [fst snd] in Hr.
  rewrite (ee_operator_execute_run _ _ _ _ _ _ _ _ _ Hf Hc Hr). reflexivity.
Qed.

Lemma ee_capture_holds_first_match_witness :
  ee_operator_execute (tx_fresh 0) (bytestr (list_byte_of_string "GET /")) (Some 1) op_GET
  = (IB_OK,
     {| mm := {| mm_left := 16 - 3; mm_stale := 0 |};
        captures := <[1 := [(ib_capture_name 0, list_byte_of_string "GET")]]> [[]; []];
        module_data := None |},
     1%Z).
Proof.
  apply (ee_capture_holds_first_match (tx_fresh 0)
           (bytestr (list_byte_of_string "GET /")) 1 op_GET
           (Some {| automaton := trie_GET; node := 0; input_location := [] |})
           (list_byte_of_string "GET") [] []).
  - split; [right|]; reflexivity.
  - reflexivity.
  - reflexivity.
  - reflexivity.
  - simpl. lia.
Defined.

Lemma ee_first_match_not_captured o cb tx c :
  (0 <? match_len cb)%Z = false ->
  capture cb = Some c ->
  captures tx !! c = None \/ mm_left (mm tx) < 3 ->
  fst (ee_first_match o (cb, tx)) = IA_EUDOXUS_ERROR.
Proof.
  intros Hm Hc Hbad.
  unfold ee_first_match, ee_first_match_callback. rewrite Hm.
  cbn [set_match_len capture]. rewrite Hc.
  unfold ib_capture_clear.
  destruct (captures tx !! c) as [items|] eqn:Hi; [|reflexivity].
  destruct Hbad as [Hbad | Hl]; [discriminate|].
  assert (Hlt : c < length (captures tx)) by (eapply lookup_lt_Some; exact Hi).
  destruct tx as [[left stale] cs md]. cbn in Hl, Hlt, Hi |- *.
  unfold ib_bytestr_dup_mem, ib_field_create, ib_capture_set_item, ib_mm_alloc,
    tx_with_captures, tx_with_mm.
  destruct left as [|[|[|k]]]; try lia; cbn; try reflexivity.
  rewrite list_lookup_insert_eq by exact Hlt. reflexivity.
Qed.

(** X3.  A match that cannot be captured is reported as a failure, not as a
    match: when the capture target is not a collection of the transaction,
    or its pool has fewer than the three blocks the capture takes, [ee]
    returns [IB_EUNKNOWN] with result 0 although the automaton met a
    match. *)
Theorem ee_capture_failure_hides_match :
  forall tx field c instance_data state o rest,
    string_field field ->
    ia_eudoxus_create_state (eudoxus instance_data) = (IA_EUDOXUS_OK, state) ->
    ia_eudoxus_matches (eudoxus instance_data)
      (start_node (eudoxus instance_data)) (ee_input field) = o :: rest ->
    captures tx !! c = None \/ mm_left (mm tx) < 3 ->
    exists tx',
      ee_operator_execute tx field (Some c) instance_data = (IB_EUNKNOWN, tx', 0%Z).
Proof.
  intros tx field c instance_data state o rest Hf Hc Hm Hbad.
  pose proof (ia_eudoxus_run_first (eudoxus instance_data)
                (start_node (eudoxus instance_data)) (ee_input field)
                {| capture := Some c; match_len := 0 |} tx eq_refl) as Hrun.
  rewrite Hm in Hrun. destruct Hrun as (st & Hr).
  pose proof (ee_first_match_not_captured o {| capture := Some c; match_len := 0 |}
                tx c eq_refl eq_refl Hbad) as He.
  destruct (ee_first_match o _) as [r [cb1 tx1]]. cbn [fst snd] in Hr, He. subst r.
  exists tx1.
  rewrite (ee_operator_execute_run _ _ _ _ _ _ _ _ _ Hf Hc Hr). reflexivity.
Qed.

Lemma ee_capture_failure_hides_match_witness :
  exists tx',
    ee_operator_execute (tx_fresh 0) (bytestr (list_byte_of_string "GET /")) (Some 2) op_GET
    = (IB_EUNKNOWN, tx', 0%Z).
Proof.
  apply (ee_capture_failure_hides_match (tx_fresh 0)
           (bytestr (list_byte_of_string "GET /")) 2 op_GET
           (Some {| automaton := trie_GET; node := 0; input_location := [] |})
           (list_byte_of_string "GET") []).
  - split; [right|]; reflexivity.
  - reflexivity.
  - reflexivity.
  - left. reflexivity.
Defined.


(** *** [ee_match] accepts a match of the whole input *)

(** Where a run stops, what is still to be met was to be met from where it
    started. *)
Lemma ia_eudoxus_run_matches {W : Type}
    (callback : list byte -> list byte -> W -> ia_eudoxus_command_t * W)
    a n input w r st' w' :
  ia_eudoxus_run callback a n input w = (r, st', w') ->
  automaton st' = a
  /\ forall o, In o (ia_eudoxus_matches a (node st') (input_location st')) ->
               In o (ia_eudoxus_matches a n input).
Proof.
  revert n w. induction input as [|c rest IH]; intros n w; cbn [ia_eudoxus_run].
  - intros [= <- <- <-]. simpl. auto.
  - cbn [ia_eudoxus_matches].
    destruct (ia_eudoxus_next a n c) as [n'|] eqn:En.
    + destruct (ia_eudoxus_output callback (node_outputs a n') rest w) as [r1 w1].
      destruct r1;
        try (intros [= <- <- <-]; simpl; split; [reflexivity|];
             intros o Ho; apply in_or_app; right; exact Ho).
      intros H. apply IH in H as [Ha Hin]. split; [exact Ha|].
      intros o Ho. apply in_or_app. right. apply Hin, Ho.
    + intros [= <- <- <-]. simpl. rewrite En. auto.
Qed.

Lemma ee_execute_loop_accepts_match a (M : list (list byte)) input_len input data tx :
  forall st rc data' tx',
    eudoxus_state data = Some st ->
    automaton st = a ->
    (forall o, In o (ia_eudoxus_matches a (node st)
                       (pending_input (Some st) input input_len)) -> In o M) ->
    ee_execute_loop true input_len input data tx = (rc, data', tx', 1%Z) ->
    rc = IB_OK
    /\ exists o, In o M /\ uint32 (Z.of_nat (length o)) = Z.of_nat input_len.
Proof.
  apply (ee_execute_loop_ind true input_len
           (fun input data tx returned =>
              forall st rc data' tx',
                eudoxus_state data = Some st ->
                automaton st = a ->
                (forall o, In o (ia_eudoxus_matches a (node st)
                                   (pending_input (Some st) input input_len)) -> In o M) ->
                returned = (rc, data', tx', 1%Z) ->
                rc = IB_OK
                /\ exists o, In o M /\ uint32 (Z.of_nat (length o)) = Z.of_nat input_len)).
  - intros i d t returned Hp st rc data' tx' Hs Ha HM ->.
    unfold ee_execute_pass, ia_eudoxus_execute in Hp. rewrite Hs in Hp.
    destruct (ia_eudoxus_run _ _ _ _ _) as [[r s1] [cb1 tx1]] eqn:Hr.
    destruct r; try discriminate.
    destruct (match_len cb1 =? Z.of_nat input_len)%Z eqn:E; [|discriminate].
    injection Hp as <- _ _. split; [reflexivity|].
    apply Z.eqb_eq in E. rewrite Ha in Hr.
    apply ia_eudoxus_run_recorded in Hr.
    destruct (0 <? match_len (ee_cbdata d))%Z.
    + destruct Hr as (o1 & o2 & rest & Hm & Hl). exists o2. split; [|congruence].
      apply HM. rewrite Hm. right. left. reflexivity.
    + destruct Hr as (o & rest & Hm & Hl). exists o. split; [|congruence].
      apply HM. rewrite Hm. left. reflexivity.
  - intros i d t d1 t1 returned Hp IH st rc data' tx' Hs Ha HM Hret.
    unfold ee_execute_pass, ia_eudoxus_execute in Hp. rewrite Hs in Hp.
    destruct (ia_eudoxus_run _ _ _ _ _) as [[r s1] [cb1 tx1]] eqn:Hr.
    rewrite Ha in Hr. apply ia_eudoxus_run_matches in Hr as [Ha1 Hin].
    destruct r; try discriminate.
    destruct (match_len cb1 =? Z.of_nat input_len)%Z; [discriminate|].
    injection Hp as <- <-.
    apply (IH s1 rc data' tx' eq_refl Ha1); [|exact Hret].
    intros o Ho. apply HM, Hin. exact Ho.
Qed.

(** X4.  [ee_match] returns result 1 only with status [IB_OK], and only
    when one of the outputs the automaton meets along the field's bytes has
    the length of those bytes (as a [uint32_t]). *)
Theorem ee_match_accepts_whole_match :
  forall tx field capture instance_data rc tx',
    ee_match_operator_execute tx field capture instance_data = (rc, tx', 1%Z) ->
    rc = IB_OK
    /\ exists o,
         In o (ia_eudoxus_matches (eudoxus instance_data)
                 (start_node (eudoxus instance_data)) (ee_input field))
         /\ uint32 (Z.of_nat (length o)) = Z.of_nat (field_length field).
Proof.
  intros tx field capture instance_data rc tx'.
  unfold ee_match_operator_execute, ee_match_operator_execute_nonstream,
    ia_eudoxus_create_state.
  destruct (nodes (eudoxus instance_data) !! start_node (eudoxus instance_data));
    [|discriminate].
  destruct (ee_operator_execute_common _ _ _ _ _) as [[[rc1 d1] tx1] r1] eqn:Hx.
  intros [= -> -> ->].
  unfold ee_operator_execute_common, ib_field_value in Hx.
  unfold ee_input, field_length.
  destruct (type field); try discriminate;
    (destruct (fetch field); try discriminate);
    cbn [end_of_automata] in Hx;
    eapply ee_execute_loop_accepts_match; try exact Hx; try reflexivity;
    intros o Ho; exact Ho.
Qed.

Lemma ee_match_accepts_whole_match_witness :
  IB_OK = IB_OK
  /\ exists o,
       In o (ia_eudoxus_matches (eudoxus op_abc) (start_node (eudoxus op_abc))
               (ee_input (bytestr (list_byte_of_string "abc"))))
       /\ uint32 (Z.of_nat (length o))
          = Z.of_nat (field_length (bytestr (list_byte_of_string "abc"))).
Proof.
  apply (ee_match_accepts_whole_match (tx_fresh 0)
           (bytestr (list_byte_of_string "abc")) None op_abc IB_OK (tx_fresh 0)).
  vm_compute. reflexivity.
Defined.

(** *** The per-transaction store *)

(** The key an operator instance is stored under. *)
Definition ee_tx_key (instance_data : ee_operator_data_t) : string :=
  String.substring 0 (IB_UUID_LENGTH - 1) (id instance_data).

(** The hash the module keeps in a transaction is the one it made with
    [ib_hash_create]: keys are compared as they are. *)
Definition ee_store_ok (tx : ib_tx_t) : Prop :=
  match module_data tx with
  | Some hash => nocase hash = false
  | None => True
  end.

Lemma ib_mm_alloc_stale m : mm_stale (snd (ib_mm_alloc m)) = mm_stale m.
Proof. unfold ib_mm_alloc. destruct (mm_left m); reflexivity. Qed.

Lemma get_or_create_operator_data_hash_spec tx :
  let '(rc, h, tx1) := get_or_create_operator_data_hash tx in
  (forall b, tx_data tx1 b = tx_data tx b)
  /\ (ee_store_ok tx -> ee_store_ok tx1)
  /\ mm_stale (mm tx1) = mm_stale (mm tx)
  /\ captures tx1 = captures tx
  /\ (rc = IB_OK -> exists hash, h = Some hash /\ module_data tx1 = Some hash)
  /\ (rc = IB_OK \/ rc = IB_EALLOC).
Proof.
  unfold get_or_create_operator_data_hash, ib_tx_get_module_data.
  destruct (module_data tx) as [hash|] eqn:Em.
  - repeat split; eauto.
  - unfold ib_hash_create, ib_tx_set_module_data, ib_mm_alloc, tx_data, ee_store_ok.
    cbn. rewrite Em.
    destruct (mm_left (mm tx)) as [|[|k]]; cbn; rewrite ?Em;
      repeat split; auto; try discriminate.
    eauto.
Qed.

(** Without stored data for the instance, [get_ee_tx_data] leaves the store
    of every instance as it was. *)
Lemma get_ee_tx_data_spec tx instance_data :
  let '(rc, d, tx1) := get_ee_tx_data tx instance_data in
  (forall b, tx_data tx1 b = tx_data tx b)
  /\ (ee_store_ok tx -> ee_store_ok tx1)
  /\ mm_stale (mm tx1) = mm_stale (mm tx)
  /\ captures tx1 = captures tx.
Proof.
  unfold get_ee_tx_data.
  pose proof (get_or_create_operator_data_hash_spec tx) as H.
  destruct (get_or_create_operator_data_hash tx) as [[rc h] tx1].
  destruct H as (H1 & H2 & H3 & H4 & _).
  destruct rc, h as [hash|]; try (repeat split; assumption).
  destruct (ib_hash_get_ex hash (id instance_data) (IB_UUID_LENGTH - 1)) as [[] d];
    repeat split; assumption.
Qed.

Lemma set_ee_tx_data_spec tx instance_data data :
  let '(rc, tx') := set_ee_tx_data tx instance_data data in
  (if decide (rc = IB_OK) then tx_data tx' instance_data = Some data
   else tx_data tx' instance_data = tx_data tx instance_data)
  /\ (ee_store_ok tx ->
      ee_store_ok tx'
      /\ forall b, ee_tx_key b <> ee_tx_key instance_data -> tx_data tx' b = tx_data tx b)
  /\ mm_stale (mm tx') = mm_stale (mm tx)
  /\ captures tx' = captures tx.
Proof.
  unfold set_ee_tx_data.
  pose proof (get_or_create_operator_data_hash_spec tx) as H.
  destruct (get_or_create_operator_data_hash tx) as [[rc h] tx1].
  destruct H as (H1 & H2 & H3 & H4 & H5 & H6).
  assert (Hfail : rc <> IB_OK ->
            (if decide (rc = IB_OK) then tx_data tx1 instance_data = Some data
             else tx_data tx1 instance_data = tx_data tx instance_data)
            /\ (ee_store_ok tx ->
                ee_store_ok tx1
                /\ forall b, ee_tx_key b <> ee_tx_key instance_data ->
                             tx_data tx1 b = tx_data tx b)
            /\ mm_stale (mm tx1) = mm_stale (mm tx)
            /\ captures tx1 = captures tx).
  { intros Hne. destruct (decide (rc = IB_OK)); [contradiction|]. auto 10. }
  destruct rc; try (apply Hfail; discriminate).
  destruct (H5 eq_refl) as (hash & -> & Hm).
  unfold ib_hash_set_ex, ib_hash_set.
  pose proof (ib_mm_alloc_stale (mm tx1)) as Hs.
  destruct (ib_mm_alloc (mm tx1)) as [[] mm'] eqn:Ea; cbn in Hs |- *.
  - split; [|split; [|split]].
    + unfold tx_data. cbn. unfold ib_hash_key. cbn. apply lookup_insert_eq.
    + intros Hok. specialize (H2 Hok). unfold ee_store_ok in H2. rewrite Hm in H2.
      split; [unfold ee_store_ok; cbn; exact H2|].
      intros b Hb. rewrite <- H1. unfold tx_data. cbn. rewrite Hm.
      unfold ib_hash_key. cbn. rewrite H2. apply lookup_insert_ne.
      intros E. apply Hb. symmetry. exact E.
    + congruence.
    + exact H4.
  - split; [|split; [|split]].
    + rewrite <- H1. unfold tx_data. cbn. rewrite Hm. reflexivity.
    + intros Hok. specialize (H2 Hok). unfold ee_store_ok in H2. rewrite Hm in H2.
      split; [unfold ee_store_ok; cbn; exact H2|].
      intros b _. rewrite <- H1. unfold tx_data. cbn. rewrite Hm. reflexivity.
    + congruence.
    + exact H4.
Qed.

(** X5.  What [set_ee_tx_data] stores is what [get_ee_tx_data] finds: after
    a store that returned [IB_OK], the lookup for the same instance returns
    [IB_OK] with that data and changes nothing; a store that failed has left
    the instance's entry as it was. *)
Theorem ee_tx_data_round_trip :
  forall tx instance_data data rc tx',
    set_ee_tx_data tx instance_data data = (rc, tx') ->
    (rc = IB_OK -> get_ee_tx_data tx' instance_data = (IB_OK, Some data, tx'))
    /\ (rc <> IB_OK -> tx_data tx' instance_data = tx_data tx instance_data).
Proof.
  intros tx instance_data data rc tx' Hset.
  pose proof (set_ee_tx_data_spec tx instance_data data) as H.
  rewrite Hset in H. destruct H as (H & _).
  destruct (decide (rc = IB_OK)) as [-> | Hne].
  - split; [|intros Hc; contradiction].
    intros _. apply get_ee_tx_data_found, H.
  - split; [intros Hc; contradiction|]. intros _. exact H.
Qed.

Lemma ee_tx_data_round_trip_witness :
  let data := {| eudoxus_state := None;
                 ee_cbdata := {| capture := None; match_len := 0 |};
                 end_of_automata := true |} in
  let tx' := snd (set_ee_tx_data (tx_fresh 0) op_GET data) in
  get_ee_tx_data tx' op_GET = (IB_OK, Some data, tx').
Proof.
  intros data tx'.
  apply (proj1 (ee_tx_data_round_trip (tx_fresh 0) op_GET data IB_OK tx'
                  ltac:(vm_compute; reflexivity)) eq_refl).
Defined.

Lemma tx_data_written_other tx a b data :
  ee_store_ok tx ->
  ee_tx_key b <> ee_tx_key a ->
  tx_data (tx_data_written tx a data) b = tx_data tx b.
Proof.
  unfold ee_store_ok, tx_data, tx_data_written.
  destruct (module_data tx) as [[nc es]|] eqn:Em; cbn; rewrite ?Em; [|reflexivity].
  intros -> Hb. unfold ib_hash_key. cbn. apply lookup_alter_ne.
  intros E. apply Hb. symmetry. exact E.
Qed.

Lemma tx_data_written_ok tx a data :
  ee_store_ok tx -> ee_store_ok (tx_data_written tx a data).
Proof.
  unfold ee_store_ok, tx_data_written.
  destruct (module_data tx) as [[nc es]|] eqn:Em; cbn; rewrite ?Em; auto.
Qed.

Lemma ee_store_ok_module_data tx tx' :
  module_data tx' = module_data tx -> ee_store_ok tx -> ee_store_ok tx'.
Proof. unfold ee_store_ok. intros ->. auto. Qed.

(** X6.  Streaming instances do not disturb one another: a streaming call
    for one instance leaves what the transaction stores for every instance
    with another id as it was, whether the call finds its own data, creates
    it, or fails. *)
Theorem ee_stream_instances_apart :
  forall tx field capture a b rc tx' result,
    ee_store_ok tx ->
    ee_tx_key b <> ee_tx_key a ->
    ee_operator_execute_stream tx field capture a = Some (rc, tx', result) ->
    tx_data tx' b = tx_data tx b /\ ee_store_ok tx'.
Proof.
  intros tx field capture a b rc tx' result Hok Hab Hrun.
  destruct (tx_data tx a) as [data|] eqn:Hd.
  - rewrite (ee_operator_execute_stream_found _ _ _ _ _ Hd) in Hrun.
    pose proof (ee_operator_execute_common_kept tx a data field false) as Hk.
    destruct (ee_operator_execute_common _ _ _ _ _) as [[[rc3 data3] tx3] r3].
    injection Hrun as <- <- <-. destruct Hk as (_ & Hm & _). cbn in Hm.
    pose proof (ee_store_ok_module_data _ _ Hm Hok) as Hok3.
    split; [|apply tx_data_written_ok, Hok3].
    rewrite (tx_data_written_other _ _ _ _ Hok3 Hab). apply tx_data_module_data, Hm.
  - destruct (get_ee_tx_data_absent tx a Hd) as (rc1 & tx1 & Hget & Hrc & _).
    pose proof (get_ee_tx_data_spec tx a) as Hspec. rewrite Hget in Hspec.
    destruct Hspec as (H1 & H2 & _). specialize (H2 Hok).
    unfold ee_operator_execute_stream in Hrun. rewrite Hget in Hrun.
    destruct Hrc as [-> | ->].
    2:{ injection Hrun as <- <- <-. auto. }
    destruct (ib_mm_alloc (mm tx1)) as [b1 mm1].
    destruct (ib_mm_alloc mm1) as [b2 mm2].
    assert (Hmm : tx_data (tx_with_mm tx1 mm2) b = tx_data tx b
                  /\ ee_store_ok (tx_with_mm tx1 mm2)).
    { split; [rewrite <- H1; reflexivity | exact H2]. }
    destruct b2; cbn in Hrun.
    2:{ injection Hrun as <- <- <-. exact Hmm. }
    destruct b1; cbn in Hrun; [|discriminate].
    destruct (ia_eudoxus_create_state (eudoxus a)) as [[] state];
      try (injection Hrun as <- <- <-; exact Hmm).
    match type of Hrun with
    | context [set_ee_tx_data ?t ?o ?d] =>
        pose proof (set_ee_tx_data_spec t o d) as Hset;
        destruct (set_ee_tx_data t o d) as [rc2 tx2]
    end.
    destruct Hset as (_ & Hset & _). destruct (Hset (proj2 Hmm)) as [Hok2 Hb2].
    match type of Hrun with
    | context [ee_operator_execute_common ?t ?o ?d ?f ?m] =>
        pose proof (ee_operator_execute_common_kept t o d f m) as Hk;
        destruct (ee_operator_execute_common t o d f m) as [[[rc3 data3] tx3] r3]
    end.
    injection Hrun as <- <- <-. destruct Hk as (_ & Hm & _). cbn in Hm.
    pose proof (ee_store_ok_module_data _ _ Hm Hok2) as Hok3.
    split; [|apply tx_data_written_ok, Hok3].
    rewrite (tx_data_written_other _ _ _ _ Hok3 Hab).
    rewrite (tx_data_module_data _ _ _ Hm). rewrite (Hb2 b Hab). exact (proj1 Hmm).
Qed.

Lemma ee_stream_instances_apart_witness :
  exists rc tx' result,
    ee_operator_execute_stream (tx_after_GE None 0 0)
      (bytestr (list_byte_of_string "abc")) None op_abc = Some (rc, tx', result)
    /\ tx_data tx' op_GET = tx_data (tx_after_GE None 0 0) op_GET
    /\ ee_store_ok tx'.
Proof.
  eexists _, _, _. split; [vm_compute; reflexivity|].
  eapply (ee_stream_instances_apart (tx_after_GE None 0 0)
            (bytestr (list_byte_of_string "abc")) None op_abc op_GET).
  - reflexivity.
  - vm_compute. discriminate.
  - vm_compute. reflexivity.
Defined.

(** *** Chunks *)

(** A run that read all its input without stopping has met the outputs of
    that input, and what comes next is met from the node it reached. *)
Lemma ia_eudoxus_run_ok_matches {W : Type}
    (callback : list byte -> list byte -> W -> ia_eudoxus_command_t * W)
    a n c1 c2 w st w1 :
  ia_eudoxus_run callback a n c1 w = (IA_EUDOXUS_OK, st, w1) ->
  ia_eudoxus_matches a n (c1 ++ c2)
  = ia_eudoxus_matches a n c1 ++ ia_eudoxus_matches a (node st) c2.
Proof.
  revert n w. induction c1 as [|c c1 IH]; intros n w;
    cbn [ia_eudoxus_run app ia_eudoxus_matches].
  - intros [= <- <-]. reflexivity.
  - destruct (ia_eudoxus_next a n c) as [n'|]; [|discriminate].
    destruct (ia_eudoxus_output callback (node_outputs a n') c1 w) as [r1 w2].
    destruct r1; try discriminate.
    intros H. rewrite (IH _ _ H). apply app_assoc.
Qed.

(** X7.  Streaming keeps a partial match across chunks.  When the first
    chunk fed to a streaming [ee] without capture target (on a pool that
    hands out zeroed blocks) neither matched nor exhausted the automaton,
    the call on the second chunk returns what the one-shot [ee] returns on
    the two chunks joined. *)
Theorem ee_stream_chunks_as_one :
  forall tx instance_data c1 c2 tx1 data1 rc2 tx2 result2 tx0,
    tx_data tx instance_data = None ->
    mm_stale (mm tx) = 0%Z ->
    ee_operator_execute_stream tx (bytestr c1) None instance_data
    = Some (IB_OK, tx1, 0%Z) ->
    tx_data tx1 instance_data = Some data1 ->
    end_of_automata data1 = false ->
    ee_operator_execute_stream tx1 (bytestr c2) None instance_data
    = Some (rc2, tx2, result2) ->
    ee_operator_execute tx0 (bytestr (c1 ++ c2)) None instance_data
    = (rc2, tx0, result2).
Proof.
  intros tx op c1 c2 tx1 data1 rc2 tx2 result2 tx0 Hnone Hstale H1 Hd1 Hflag H2.
  destruct (get_ee_tx_data_absent tx op Hnone) as (rc1 & txa & Hget & Hrc & _).
  pose proof (get_ee_tx_data_spec tx op) as Hspec. rewrite Hget in Hspec.
  destruct Hspec as (_ & _ & Hsa & _).
  unfold ee_operator_execute_stream in H1. rewrite Hget in H1.
  destruct Hrc as [-> | ->]; [|discriminate].
  pose proof (ib_mm_alloc_stale (mm txa)) as Hs1.
  destruct (ib_mm_alloc (mm txa)) as [b1 mm1].
  pose proof (ib_mm_alloc_stale mm1) as Hs2.
  destruct (ib_mm_alloc mm1) as [b2 mm2]. cbn in Hs1, Hs2.
  assert (Hz : mm_stale mm2 = 0%Z) by congruence. rewrite Hz in H1.
  destruct b2; cbn in H1; [|discriminate].
  destruct b1; cbn in H1; [|discriminate].
  destruct (ia_eudoxus_create_state (eudoxus op)) as [[] state] eqn:Hcs;
    try discriminate.
  assert (Hstate : state = Some {| automaton := eudoxus op;
                                   node := start_node (eudoxus op);
                                   input_location := [] |}).
  { unfold ia_eudoxus_create_state in Hcs.
    destruct (nodes (eudoxus op) !! start_node (eudoxus op)); [|discriminate].
    injection Hcs as <-. reflexivity. }
  rewrite Hstate in H1.
  destruct (set_ee_tx_data _ _ _) as [rcs txs].
  unfold ee_operator_execute_common, ib_field_value, bytestr in H1.
  cbn [type fetch bytes end_of_automata] in H1.
  pose proof (ia_eudoxus_run_first (eudoxus op) (start_node (eudoxus op))
                (take (length c1) c1) {| capture := None; match_len := 0 |} txs eq_refl)
    as Hrun.
  destruct (ia_eudoxus_matches _ _ (take (length c1) c1)) as [|o rest] eqn:Hm1.
  2:{ destruct Hrun as (st & Hr).
      erewrite ee_execute_loop_false in H1 by (try reflexivity; exact Hr).
      destruct (ee_first_match_result o ({| capture := None; match_len := 0 |}, txs))
        as [E | E]; rewrite E in H1; discriminate. }
  destruct Hrun as (r & st1 & Hr & Hcase).
  erewrite ee_execute_loop_false in H1 by (try reflexivity; exact Hr).
  pose proof (ia_eudoxus_run_matches _ _ _ _ _ _ _ _ Hr) as [Ha _].
  destruct Hcase as [-> | ->]; cbn in H1; injection H1 as <-.
  2:{ apply tx_data_written_inv in Hd1. subst data1. discriminate. }
  pose proof (ia_eudoxus_run_ok_matches _ _ _ _ c2 _ _ _ Hr) as Happ.
  rewrite Hm1 in Happ. rewrite firstn_all in Happ. cbn [app] in Happ.
  pose proof (tx_data_written_inv _ _ _ _ Hd1) as Hdata. subst data1.
  (* the call on the second chunk *)
  rewrite (ee_operator_execute_stream_found _ _ _ _ _ Hd1) in H2.
  unfold ee_operator_execute_common, ib_field_value, bytestr in H2.
  cbn [type fetch bytes end_of_automata] in H2.
  match type of H2 with
  | context [ee_execute_loop false _ _ _ ?t] =>
      pose proof (ia_eudoxus_run_first (automaton st1) (node st1)
                    (take (length c2) c2) {| capture := None; match_len := 0 |} t eq_refl)
        as Hrun2
  end.
  (* the two chunks at once *)
  assert (Hone : ee_operator_execute tx0 (bytestr (c1 ++ c2)) None op
                 = (IB_OK, tx0,
                    match ia_eudoxus_matches (automaton st1) (node st1) c2 with
                    | [] => 0%Z
                    | _ :: _ => 1%Z
                    end)).
  { pose proof (ia_eudoxus_run_first (eudoxus op) (start_node (eudoxus op))
                  (ee_input (bytestr (c1 ++ c2)))
                  {| capture := None; match_len := 0 |} tx0 eq_refl) as Hrun0.
    assert (Hin : ee_input (bytestr (c1 ++ c2)) = c1 ++ c2) by apply firstn_all.
    assert (Hsf : string_field (bytestr (c1 ++ c2)))
      by (split; [right|]; reflexivity).
    destruct (ia_eudoxus_matches (eudoxus op) (start_node (eudoxus op))
                (ee_input (bytestr (c1 ++ c2)))) as [|o0 rest0] eqn:Hm0;
      rewrite Hin, Happ, <- Ha in Hm0; rewrite Hm0.
    - destruct Hrun0 as (r0 & st0 & Hr0 & Hcase0).
      rewrite (ee_operator_execute_run _ _ _ _ _ _ _ _ _ Hsf Hcs Hr0).
      destruct Hcase0 as [-> | ->]; reflexivity.
    - destruct Hrun0 as (st0 & Hr0).
      rewrite (ee_operator_execute_run _ _ _ _ _ _ _ _ _ Hsf Hcs Hr0). reflexivity. }
  rewrite Hone.
  destruct (ia_eudoxus_matches (automaton st1) (node st1) (take (length c2) c2))
    as [|o2 rest2] eqn:Hm2; rewrite firstn_all in Hm2; rewrite Hm2.
  - destruct Hrun2 as (r2 & st2 & Hr2 & Hcase2).
    erewrite ee_execute_loop_false in H2 by (try reflexivity; exact Hr2).
    destruct Hcase2 as [-> | ->]; cbn in H2; injection H2 as <- _ <-; reflexivity.
  - destruct Hrun2 as (st2 & Hr2).
    erewrite ee_execute_loop_false in H2 by (try reflexivity; exact Hr2).
    cbn in H2. injection H2 as <- _ <-. reflexivity.
Qed.

Lemma ee_stream_chunks_as_one_witness :
  ee_operator_execute (tx_fresh 0)
    (bytestr (list_byte_of_string "GE" ++ list_byte_of_string "T /")) None op_GET
  = (IB_OK, tx_fresh 0, 1%Z).
Proof.
  assert (H2 : exists tx2,
             ee_operator_execute_stream (tx_after_GE None 0 0)
               (bytestr (list_byte_of_string "T /")) None op_GET
             = Some (IB_OK, tx2, 1%Z)).
  { eexists. vm_compute. reflexivity. }
  destruct H2 as [tx2 H2].
  apply (ee_stream_chunks_as_one (tx_fresh 0) op_GET
           (list_byte_of_string "GE") (list_byte_of_string "T /")
           (tx_after_GE None 0 0)
           {| eudoxus_state :=
                Some {| automaton := trie_GET; node := 2; input_location := [] |};
              ee_cbdata := {| capture := None; match_len := 0 |};
              end_of_automata := false |}
           IB_OK tx2 1%Z (tx_fresh 0)).
  - reflexivity.
  - reflexivity.
  - vm_compute. reflexivity.
  - vm_compute. reflexivity.
  - reflexivity.
  - exact H2.
Defined.

(** *** Teardown *)

Lemma ia_eudoxus_destroy_state_again data :
  ia_eudoxus_destroy_state (ia_eudoxus_destroy_state data) = ia_eudoxus_destroy_state data.
Proof.
  unfold ia_eudoxus_destroy_state. destruct (eudoxus_state data) eqn:E; cbn; [reflexivity|].
  rewrite E. reflexivity.
Qed.

(** X8.  With a pool and an iterator to be had, the transaction-finished
    handler returns [IB_OK] and leaves no automaton state in the
    transaction: every stored entry keeps its callback data and its
    [end_of_automata] flag and has its state set to [NULL]; the pool and the
    captures of the transaction are not touched, and running the handler
    again changes nothing more. *)
Theorem ee_tx_finished_handler_teardown :
  forall heap tx hash,
    module_data tx = Some hash ->
    2 <= heap ->
    exists tx',
      ee_tx_finished_handler heap tx = (IB_OK, tx')
      /\ live_states tx' = []
      /\ (forall instance_data,
             tx_data tx' instance_data
             = ia_eudoxus_destroy_state <$> tx_data tx instance_data)
      /\ mm tx' = mm tx
      /\ captures tx' = captures tx
      /\ ee_tx_finished_handler heap tx' = (IB_OK, tx').
Proof.
  intros heap tx hash Hm Hh.
  destruct (ee_tx_finished_handler_destroys_all heap tx hash Hm Hh)
    as (tx' & Hrun & Hlive & Hdata).
  exists tx'. repeat (split; [assumption|]).
  unfold ee_tx_finished_handler, ib_tx_get_module_data in Hrun |- *.
  rewrite Hm in Hrun.
  destruct heap as [|[|k]]; try lia. cbn in Hrun |- *.
  injection Hrun as <-. cbn. repeat (split; [reflexivity|]).
  unfold tx_with_module_data. cbn. do 4 f_equal.
  apply map_eq. intros key. rewrite !lookup_fmap.
  destruct (entries hash !! key); cbn; [|reflexivity].
  f_equal. apply ia_eudoxus_destroy_state_again.
Qed.

Lemma ee_tx_finished_handler_teardown_witness :
  exists tx',
    ee_tx_finished_handler 2 (tx_after_GE None 0 0) = (IB_OK, tx')
    /\ live_states tx' = []
    /\ (forall instance_data,
           tx_data tx' instance_data
           = ia_eudoxus_destroy_state <$> tx_data (tx_after_GE None 0 0) instance_data)
    /\ mm tx' = mm (tx_after_GE None 0 0)
    /\ captures tx' = captures (tx_after_GE None 0 0)
    /\ ee_tx_finished_handler 2 tx' = (IB_OK, tx').
Proof.
  apply (ee_tx_finished_handler_teardown 2 (tx_after_GE None 0 0) _ eq_refl). lia.
Defined.

(** *** Patterns: from [LoadEudoxus] to the operator *)

Lemma ee_get_config_ext ib ib' :
  modules ib' = modules ib ->
  context_main ib' = context_main ib ->
  ee_get_config ib' = ee_get_config ib.
Proof. unfold ee_get_config, ib_engine_module_get. intros -> ->. reflexivity. Qed.

Lemma ee_get_config_module ib config :
  ee_get_config ib = Some config ->
  ib_engine_module_get ib MODULE_NAME_STR = IB_OK.
Proof.
  unfold ee_get_config. destruct (ib_engine_module_get ib MODULE_NAME_STR); congruence.
Qed.

Lemma ee_get_config_engine_with_config ib config config' mm' cleanups' :
  ee_get_config ib = Some config ->
  ee_get_config (engine_with_config ib config' mm' cleanups') = Some config'.
Proof.
  intros H. pose proof (ee_get_config_module _ _ H) as Hm.
  unfold ee_get_config in *. unfold ib_engine_module_get in *.
  unfold engine_with_config. cbn [modules context_main].
  destruct (existsb (String.eqb MODULE_NAME_STR) (modules ib)); [|discriminate].
  destruct (context_main ib) as [context|]; [|discriminate].
  unfold ib_context_module_config. cbn [module_config].
  rewrite lookup_insert_eq. reflexivity.
Qed.

(** X9.  A pattern that [LoadEudoxus] has loaded is the one the operator is
    created with.  After a directive that returned [IB_OK], the automaton
    read from the file is registered for destruction with the engine, and
    creating an operator for a name that the pattern hash takes for the
    directive's name gives an instance with that automaton (or [IB_EALLOC]
    when the instance cannot be allocated); for every other name operator
    creation goes as it did before the directive. *)
Theorem ee_loaded_pattern_is_found :
  forall ib_util_relative_file access_R_OK ia_eudoxus_create_from_path
         cp name pattern_name filename ib' config hash,
    ee_get_config (ib cp) = Some config ->
    eudoxus_pattern_hash config = Some hash ->
    load_eudoxus_pattern_param2 ib_util_relative_file access_R_OK
      ia_eudoxus_create_from_path cp name pattern_name filename = Some (IB_OK, ib') ->
    exists eudoxus,
      ia_eudoxus_create_from_path (ib_util_relative_file (curr_file cp) filename)
      = (IA_EUDOXUS_OK, Some eudoxus)
      /\ cleanups ib' = cleanups (ib cp) ++ [eudoxus]
      /\ forall mm parameters uuid,
           ee_operator_create ib' mm parameters (IB_OK, uuid)
           = if decide (ib_hash_key hash parameters = ib_hash_key hash pattern_name)
             then
               match ib_mm_alloc mm with
               | (true, mm') =>
                   Some (IB_OK, Some {| id := uuid; eudoxus := eudoxus |}, mm')
               | (false, mm') => Some (IB_EALLOC, None, mm')
               end
             else ee_operator_create (ib cp) mm parameters (IB_OK, uuid).
Proof.
  intros rel acc create cp name pattern_name filename ib' config hash Hcfg Hh Hload.
  unfold load_eudoxus_pattern_param2 in Hload. rewrite Hcfg, Hh in Hload.
  unfold ib_hash_get in Hload.
  destruct (entries hash !! ib_hash_key hash pattern_name) eqn:Hl; [discriminate|].
  destruct (acc (rel (curr_file cp) filename)); cbn [negb] in Hload; [|discriminate].
  destruct (create (rel (curr_file cp) filename)) as [[] [eudoxus|]] eqn:Hcreate;
    try discriminate.
  unfold ib_hash_set in Hload.
  destruct (ib_mm_alloc (mm_main (ib cp))) as [[] mm1]; [|discriminate].
  destruct (ib_mm_alloc mm1) as [[] mm2]; [|discriminate].
  injection Hload as <-.
  exists eudoxus. split; [reflexivity|]. split; [reflexivity|].
  intros mm0 parameters uuid.
  pose proof (ee_get_config_module _ _ Hcfg) as Hmod.
  unfold ee_operator_create.
  rewrite (ee_get_config_engine_with_config _ _ _ _ _ Hcfg), Hcfg, Hh.
  cbn [eudoxus_pattern_hash].
  replace (ib_engine_module_get (engine_with_config _ _ _ _) MODULE_NAME_STR)
    with IB_OK by (symmetry; exact Hmod).
  rewrite Hmod.
  destruct (ib_mm_alloc mm0) as [[] mm']; [|destruct (decide _); reflexivity].
  unfold ib_hash_get. cbn [entries].
  change (ib_hash_key {| nocase := nocase hash;
                         entries := <[ib_hash_key hash pattern_name:=eudoxus]> (entries hash) |}
            parameters)
    with (ib_hash_key hash parameters).
  destruct (decide _) as [E | E].
  - rewrite E, lookup_insert_eq. reflexivity.
  - rewrite lookup_insert_ne by (intros E'; apply E; symmetry; exact E'). reflexivity.
Qed.

Lemma ee_loaded_pattern_is_found_witness :
  let rel := fun _ f : string => f in
  let acc := fun _ : string => true in
  let create := fun _ : string => (IA_EUDOXUS_OK, Some trie_abc) in
  let cp := {| ib := engine_configured; curr_file := "ironbee.conf" |} in
  exists ib',
    load_eudoxus_pattern_param2 rel acc create cp "LoadEudoxus" "Letters" "abc.e"
    = Some (IB_OK, ib')
    /\ ee_operator_create ib' {| mm_left := 1; mm_stale := 0 |} "LETTERS" (IB_OK, id op_abc)
       = Some (IB_OK, Some op_abc, {| mm_left := 0; mm_stale := 0 |}).
Proof.
  intros rel acc create cp.
  assert (Hload : exists ib',
             load_eudoxus_pattern_param2 rel acc create cp "LoadEudoxus" "Letters" "abc.e"
             = Some (IB_OK, ib')).
  { eexists. vm_compute. reflexivity. }
  destruct Hload as [ib' Hload]. exists ib'. split; [exact Hload|].
  destruct (ee_loaded_pattern_is_found rel acc create cp "LoadEudoxus" "Letters" "abc.e" ib'
              _ _ ltac:(vm_compute; reflexivity) eq_refl Hload)
    as (eudoxus & Hc & _ & Hop).
  injection Hc as <-. rewrite Hop. reflexivity.
Defined.

(** X10.  Initialising the module does not lose patterns: with a pattern
    hash already in the configuration, [ee_module_init] leaves the
    configuration and the automata registered for destruction as they
    were, whatever it returns; it fails only with [IB_EALLOC], and when it
    returns [IB_OK] it has registered the operators [ee], the streaming
    [ee] and [ee_match], in this order, and one transaction-finished
    handler.  Without a pattern hash, an initialisation that returns
    [IB_OK] has made an empty one that compares names without regard to
    case. *)
Theorem ee_module_init_configuration :
  forall ib config rc ib',
    ee_get_config ib = Some config ->
    ee_module_init ib = Some (rc, ib') ->
    (rc = IB_OK \/ rc = IB_EALLOC)
    /\ (forall hash,
           eudoxus_pattern_hash config = Some hash ->
           ee_get_config ib' = Some config /\ cleanups ib' = cleanups ib)
    /\ (rc = IB_OK ->
        ee_get_config ib'
        = Some {| eudoxus_pattern_hash :=
                    Some (match eudoxus_pattern_hash config with
                          | Some hash => hash
                          | None => {| nocase := true; entries := ∅ |}
                          end) |}
        /\ operators ib'
           = operators ib
             ++ [ {| op_name := "ee"; op_stream := false;
                     op_execute := EXEC_ee_operator_execute |};
                  {| op_name := "ee"; op_stream := true;
                     op_execute := EXEC_ee_operator_execute_stream |};
                  {| op_name := "ee_match"; op_stream := false;
                     op_execute := EXEC_ee_match_operator_execute |} ]
        /\ tx_finished_hooks ib' = tx_finished_hooks ib ++ ["ee_tx_finished_handler"%string]).
Proof.
  intros ib0 config rc ib' Hcfg Hinit.
  unfold ee_module_init in Hinit. rewrite Hcfg in Hinit.
  assert (Hregs : forall ib1,
             match ib_operator_register ib1
                     {| op_name := "ee"; op_stream := false;
                        op_execute := EXEC_ee_operator_execute |} with
             | (IB_OK, ib) =>
                 match ib_operator_register ib
                         {| op_name := "ee"; op_stream := true;
                            op_execute := EXEC_ee_operator_execute_stream |} with
                 | (IB_OK, ib) =>
                     match ib_operator_register ib
                             {| op_name := "ee_match"; op_stream := false;
                                op_execute := EXEC_ee_match_operator_execute |} with
                     | (IB_OK, ib) =>
                         match ib_hook_tx_register ib "ee_tx_finished_handler" with
                         | (IB_OK, ib) => Some (IB_OK, ib)
                         | (rc, ib) => Some (rc, ib)
                         end
                     | (rc, ib) => Some (rc, ib)
                     end
                 | (rc, ib) => Some (rc, ib)
                 end
             | (rc, ib) => Some (rc, ib)
             end = Some (rc, ib') ->
             (rc = IB_OK \/ rc = IB_EALLOC)
             /\ ee_get_config ib' = ee_get_config ib1
             /\ cleanups ib' = cleanups ib1
             /\ (rc = IB_OK ->
                 operators ib'
                 = operators ib1
                   ++ [ {| op_name := "ee"; op_stream := false;
                           op_execute := EXEC_ee_operator_execute |};
                        {| op_name := "ee"; op_stream := true;
                           op_execute := EXEC_ee_operator_execute_stream |};
                        {| op_name := "ee_match"; op_stream := false;
                           op_execute := EXEC_ee_match_operator_execute |} ]
                 /\ tx_finished_hooks ib'
                    = tx_finished_hooks ib1 ++ ["ee_tx_finished_handler"%string])).
  { intros ib1. unfold ib_operator_register, ib_hook_tx_register, ib_mm_alloc.
    destruct (mm_left (mm_main ib1)) as [|[|[|[|k]]]]; cbn;
      intros [= <- <-]; cbn;
      (split; [auto|]); (split; [apply ee_get_config_ext; reflexivity|]);
      (split; [reflexivity|]); intros Hrc; try discriminate.
    rewrite <- !app_assoc. split; reflexivity. }
  destruct config as [[hash|]]; cbn [eudoxus_pattern_hash] in *.
  - apply Hregs in Hinit as (Hrc & Hc & Hcl & Hok).
    split; [exact Hrc|]. split.
    + intros h [= <-]. split; congruence.
    + intros Hr. split; [congruence | apply Hok, Hr].
  - unfold ib_hash_create_nocase in Hinit.
    destruct (ib_mm_alloc (mm_main ib0)) as [[] mm'].
    + apply Hregs in Hinit as (Hrc & Hc & Hcl & Hok).
      split; [exact Hrc|]. split; [discriminate|].
      intros Hr. split; [|apply Hok, Hr].
      rewrite Hc. eapply ee_get_config_engine_with_config, Hcfg.
    + injection Hinit as <- <-. split; [auto|]. split; discriminate.
Qed.

Lemma ee_module_init_configuration_witness :
  exists ib',
    ee_module_init engine_configured = Some (IB_OK, ib')
    /\ ee_get_config ib' = ee_get_config engine_configured
    /\ length (operators ib') = 3.
Proof.
  assert (Hinit : exists ib', ee_module_init engine_configured = Some (IB_OK, ib')).
  { eexists. vm_compute. reflexivity. }
  destruct Hinit as [ib' Hinit]. exists ib'. split; [exact Hinit|].
  destruct (ee_module_init_configuration engine_configured _ IB_OK ib'
              ltac:(vm_compute; reflexivity) Hinit) as (_ & Hkeep & Hok).
  destruct (Hkeep _ eq_refl) as [Hc _].
  destruct (Hok eq_refl) as (_ & Hops & _).
  split; [rewrite Hc; vm_compute; reflexivity|].
  rewrite Hops. reflexivity.
Defined.

(** *** [ee_match] on an input that is a pattern *)

(** X17.  [ee_match] accepts an input whose first match is the input:
    when the first output the automaton meets along the bytes of a string
    field has their length, [ee_match] without capture target returns
    [IB_OK] with result 1 in its first pass and leaves the transaction as
    it was. *)
Theorem ee_match_accepts_first_whole_match :
  forall tx field instance_data state o rest,
    string_field field ->
    ia_eudoxus_create_state (eudoxus instance_data) = (IA_EUDOXUS_OK, state) ->
    ia_eudoxus_matches (eudoxus instance_data)
      (start_node (eudoxus instance_data)) (ee_input field) = o :: rest ->
    uint32 (Z.of_nat (length o)) = Z.of_nat (field_length field) ->
    ee_match_operator_execute tx field None instance_data = (IB_OK, tx, 1%Z).
Proof.
  intros tx field instance_data state o rest [Ht Hf] Hc Hm Hlen.
  pose proof (ia_eudoxus_run_first (eudoxus instance_data)
                (start_node (eudoxus instance_data)) (ee_input field)
                {| capture := None; match_len := 0 |} tx eq_refl) as Hrun.
  rewrite Hm in Hrun. destruct Hrun as (st & Hr).
  change (ee_first_match o ({| capture := None; match_len := 0 |}, tx))
    with (IA_EUDOXUS_STOP,
          ({| capture := None; match_len := uint32 (Z.of_nat (length o)) |}, tx)) in Hr.
  cbn [fst snd] in Hr.
  unfold ee_match_operator_execute, ee_match_operator_execute_nonstream. rewrite Hc.
  unfold ia_eudoxus_create_state in Hc.
  destruct (nodes (eudoxus instance_data) !! start_node (eudoxus instance_data));
    [|discriminate].
  injection Hc as <-.
  unfold ee_input, field_length in Hr, Hlen.
  unfold ee_operator_execute_common, ib_field_value. rewrite Hf.
  destruct Ht as [Ht | Ht]; rewrite Ht in *; cbn [end_of_automata];
    rewrite ee_execute_loop_eq; unfold ee_execute_pass, ia_eudoxus_execute;
    cbn [eudoxus_state ee_cbdata automaton node pending_input];
    rewrite Hr; cbn [match_len]; rewrite Hlen, Z.eqb_refl; reflexivity.
Qed.

Lemma ee_match_accepts_first_whole_match_witness :
  ee_match_operator_execute (tx_fresh 0) (bytestr (list_byte_of_string "GET")) None op_GET
  = (IB_OK, tx_fresh 0, 1%Z).
Proof.
  apply (ee_match_accepts_first_whole_match (tx_fresh 0)
           (bytestr (list_byte_of_string "GET")) op_GET
           (Some {| automaton := trie_GET; node := 0; input_location := [] |})
           (list_byte_of_string "GET") []).
  - split; [right|]; reflexivity.
  - reflexivity.
  - reflexivity.
  - reflexivity.
Defined.

(** *** [ee_match] and the length of the input *)




(** *** The call that creates the per-transaction data *)

(** With five blocks in the pool of the transaction (two for the hash and
    its place in the transaction if there is none yet, one each for the
    data, the callback data and the entry of the hash) and an automaton
    whose state can be created, the streaming call that finds no data
    creates it, stores it and runs the common helper on it. *)
Lemma ee_operator_execute_stream_created tx field capture instance_data state :
  tx_data tx instance_data = None ->
  5 <= mm_left (mm tx) ->
  ia_eudoxus_create_state (eudoxus instance_data) = (IA_EUDOXUS_OK, state) ->
  let data :=
    {| eudoxus_state := state;
       ee_cbdata := {| capture := capture; match_len := mm_stale (mm tx) |};
       end_of_automata := false |} in
  exists txs,
    tx_data txs instance_data = Some data
    /\ captures txs = captures tx
    /\ ee_operator_execute_stream tx field capture instance_data
       = let '(rc, data', tx', result) :=
           ee_operator_execute_common txs instance_data data field false in
         Some (rc, tx_data_written tx' instance_data data', result).
Proof.
  intros Hnone Hpool Hcs data. subst data.
  unfold ee_operator_execute_stream, get_ee_tx_data, get_or_create_operator_data_hash,
    ib_tx_get_module_data.
  unfold tx_data in Hnone.
  destruct tx as [[left stale] cs md]. cbn [mm mm_left mm_stale module_data captures] in *.
  do 5 (destruct left as [|left]; [lia|]).
  destruct md as [hash|].
  - unfold ib_hash_get_ex, ib_hash_get. rewrite Hnone.
    unfold ib_mm_alloc, tx_with_mm. cbn [mm mm_left mm_stale negb fst snd captures module_data].
    rewrite Hcs.
    unfold set_ee_tx_data, get_or_create_operator_data_hash, ib_tx_get_module_data,
      ib_hash_set_ex, ib_hash_set, ib_mm_alloc, tx_with_mm, tx_with_module_data.
    cbn [mm mm_left mm_stale negb fst snd captures module_data].
    eexists. split; [|split; [|reflexivity]]; [|reflexivity].
    unfold tx_data, ib_hash_key. cbn [module_data nocase entries].
    apply lookup_insert_eq.
  - unfold ib_hash_create, ib_tx_set_module_data, ib_mm_alloc, tx_with_mm,
      tx_with_module_data.
    cbn [mm mm_left mm_stale negb fst snd captures module_data].
    unfold ib_hash_get_ex, ib_hash_get. cbn [entries]. rewrite lookup_empty.
    unfold ib_mm_alloc. cbn [mm mm_left mm_stale negb fst snd captures module_data].
    rewrite Hcs.
    unfold set_ee_tx_data, get_or_create_operator_data_hash, ib_tx_get_module_data,
      ib_hash_set_ex, ib_hash_set, ib_mm_alloc, tx_with_mm, tx_with_module_data.
    cbn [mm mm_left mm_stale negb fst snd captures module_data].
    eexists. split; [|split; [|reflexivity]]; [|reflexivity].
    unfold tx_data, ib_hash_key. cbn [module_data nocase entries].
    apply lookup_insert_eq.
Qed.

(** *** Runs that end in exhaustion *)




(** *** Exhaustion is latched *)






(** *** Input fields that are not strings, in every operator *)

(** C9, amended (inputs that are not strings).  For an input field that is
    neither a NUL-terminated string nor a byte string the automaton is not
    run: [ee_operator_execute_common] returns with the per-transaction data
    and the transaction as they were and result 0, with status
    [IB_ENOTIMPL] for a list and [IB_EINVAL] for every other type.  So do
    [ee] and [ee_match] once their transient state has been created.  So
    does the streaming [ee]: a call that finds the instance's data leaves
    the transaction as it was, and the call that creates the data (with
    room for it in the pool) leaves it stored as created, the cursor not
    moved, and the captures untouched. *)
Theorem ee_unsupported_field :
  forall field,
    type field <> IB_FTYPE_NULSTR -> type field <> IB_FTYPE_BYTESTR ->
    (forall tx operator_data data full_match,
        ee_operator_execute_common tx operator_data data field full_match
        = (unsupported_status (type field), data, tx, 0%Z))
    /\ (forall tx capture instance_data state,
        ia_eudoxus_create_state (eudoxus instance_data) = (IA_EUDOXUS_OK, state) ->
        ee_operator_execute tx field capture instance_data
        = (unsupported_status (type field), tx, 0%Z)
        /\ ee_match_operator_execute tx field capture instance_data
           = (unsupported_status (type field), tx, 0%Z))
    /\ (forall tx capture instance_data data,
        tx_data tx instance_data = Some data ->
        ee_operator_execute_stream tx field capture instance_data
        = Some (unsupported_status (type field), tx, 0%Z))
    /\ (forall tx capture instance_data state,
        tx_data tx instance_data = None ->
        5 <= mm_left (mm tx) ->
        ia_eudoxus_create_state (eudoxus instance_data) = (IA_EUDOXUS_OK, state) ->
        exists tx',
          ee_operator_execute_stream tx field capture instance_data
          = Some (unsupported_status (type field), tx', 0%Z)
          /\ tx_data tx' instance_data
             = Some {| eudoxus_state := state;
                       ee_cbdata := {| capture := capture; match_len := mm_stale (mm tx) |};
                       end_of_automata := false |}
          /\ captures tx' = captures tx).
Proof.
  intros field Hn Hb.
  assert (Hcommon : forall tx operator_data data full_match,
             ee_operator_execute_common tx operator_data data field full_match
             = (unsupported_status (type field), data, tx, 0%Z)).
  { intros. unfold ee_operator_execute_common.
    destruct (type field); try reflexivity; contradiction. }
  split; [exact Hcommon|]. split; [|split].
  - intros tx capture instance_data state Hs.
    unfold ee_operator_execute, ee_match_operator_execute,
      ee_match_operator_execute_nonstream.
    rewrite Hs, !Hcommon. split; reflexivity.
  - intros tx capture instance_data data Hd.
    rewrite (ee_operator_execute_stream_found _ _ _ _ _ Hd), Hcommon.
    rewrite (tx_data_written_same _ _ _ Hd). reflexivity.
  - intros tx capture instance_data state Hnone Hpool Hcs.
    destruct (ee_operator_execute_stream_created tx field capture instance_data state
                Hnone Hpool Hcs) as (txs & Hstored & Hcap & ->).
    rewrite Hcommon, (tx_data_written_same _ _ _ Hstored).
    exists txs. repeat split; assumption.
Qed.

Lemma ee_unsupported_field_witness :
  exists tx',
    ee_operator_execute_stream (tx_fresh 0) (field_of_type IB_FTYPE_LIST) (Some 1) op_GET
    = Some (IB_ENOTIMPL, tx', 0%Z)
    /\ tx_data tx' op_GET
       = Some {| eudoxus_state :=
                   Some {| automaton := trie_GET; node := 0; input_location := [] |};
                 ee_cbdata := {| capture := Some 1; match_len := 0 |};
                 end_of_automata := false |}
    /\ captures tx' = captures (tx_fresh 0).
Proof.
  apply (proj2 (proj2 (proj2 (ee_unsupported_field (field_of_type IB_FTYPE_LIST)
                                ltac:(discriminate) ltac:(discriminate))))
           (tx_fresh 0) (Some 1) op_GET
           (Some {| automaton := trie_GET; node := 0; input_location := [] |})).
  - reflexivity.
  - simpl. lia.
  - reflexivity.
Defined.

(** *** The capture target of a streaming instance *)

(** C10 (the capture target of a streaming instance is fixed by its first
    call).  The call that creates the per-transaction data stores its
    [capture] argument in it.  A later call that meets a match writes the
    match to the stored target, whatever [capture] it is passed: the
    collection stored holds the match as its only item, named 0.  A call
    that finds the data does not look at its own [capture] argument: the
    outcome is the same whatever is passed, the stored target stays, and no
    capture collection other than the stored target is written. *)
Theorem ee_stream_capture_is_first_calls :
  (forall tx field capture0 instance_data state,
      tx_data tx instance_data = None ->
      5 <= mm_left (mm tx) ->
      ia_eudoxus_create_state (eudoxus instance_data) = (IA_EUDOXUS_OK, state) ->
      exists rc tx' result data',
        ee_operator_execute_stream tx field capture0 instance_data = Some (rc, tx', result)
        /\ tx_data tx' instance_data = Some data'
        /\ capture (ee_cbdata data') = capture0)
  /\ (forall tx field capture1 instance_data data st c items o rest,
      tx_data tx instance_data = Some data ->
      end_of_automata data = false ->
      eudoxus_state data = Some st ->
      capture (ee_cbdata data) = Some c ->
      (0 <? match_len (ee_cbdata data))%Z = false ->
      string_field field ->
      ia_eudoxus_matches (automaton st) (node st) (ee_input field) = o :: rest ->
      captures tx !! c = Some items ->
      3 <= mm_left (mm tx) ->
      exists tx',
        ee_operator_execute_stream tx field capture1 instance_data = Some (IB_OK, tx', 1%Z)
        /\ captures tx' = <[c := [(ib_capture_name 0, o)]]> (captures tx))
  /\ (forall tx field capture0 instance_data rc tx' result data',
      tx_data tx instance_data = None ->
      ee_operator_execute_stream tx field capture0 instance_data = Some (rc, tx', result) ->
      tx_data tx' instance_data = Some data' ->
      capture (ee_cbdata data') = capture0)
  /\ (forall tx field capture1 capture2 instance_data data,
      tx_data tx instance_data = Some data ->
      ee_operator_execute_stream tx field capture1 instance_data
      = ee_operator_execute_stream tx field capture2 instance_data)
  /\ (forall tx field capture1 instance_data data rc tx' result,
      tx_data tx instance_data = Some data ->
      ee_operator_execute_stream tx field capture1 instance_data = Some (rc, tx', result) ->
      (exists data',
          tx_data tx' instance_data = Some data'
          /\ capture (ee_cbdata data') = capture (ee_cbdata data))
      /\ forall j : nat, Some j <> capture (ee_cbdata data) ->
                          captures tx' !! j = captures tx !! j).
Proof.
  split; [|split; [|split; [|split]]].
  - intros tx field capture0 instance_data state Hnone Hpool Hcs.
    destruct (ee_operator_execute_stream_created tx field capture0 instance_data state
                Hnone Hpool Hcs) as (txs & Hstored & _ & ->).
    match goal with
    | |- context [ee_operator_execute_common ?t ?o ?d ?f ?m] =>
        pose proof (ee_operator_execute_common_kept t o d f m) as Hk;
        destruct (ee_operator_execute_common t o d f m) as [[[rc3 data3] tx3] r3]
    end.
    destruct Hk as (Hc & Hm & _). cbn in Hc, Hm.
    exists rc3, (tx_data_written tx3 instance_data data3), r3, data3.
    split; [reflexivity|]. split; [|exact Hc].
    eapply tx_data_written_lookup.
    rewrite (tx_data_module_data txs tx3) by exact Hm. exact Hstored.
  - intros tx field capture1 instance_data data st c items o rest
      Hd He Hs Hc Hml [Ht Hf] Hm Hi Hl.
    rewrite (ee_operator_execute_stream_found _ _ _ _ _ Hd).
    pose proof (ia_eudoxus_run_first (automaton st) (node st) (ee_input field)
                  (ee_cbdata data) tx Hml) as Hrun.
    rewrite Hm in Hrun. destruct Hrun as (st' & Hr).
    rewrite (ee_first_match_captured o (ee_cbdata data) tx c items Hml Hc Hi Hl) in Hr.
    cbn [fst snd] in Hr.
    unfold ee_input, field_length in Hr.
    unfold ee_operator_execute_common, ib_field_value. rewrite Hf, He.
    destruct Ht as [Ht | Ht]; rewrite Ht in *;
      erewrite ee_execute_loop_false by (try exact Hs; exact Hr);
      cbn [ee_pass_status fst snd];
      (eexists; split; [reflexivity | rewrite tx_data_written_captures; reflexivity]).
  - intros tx field capture0 instance_data rc tx' result data' Hnone Hrun Hd.
    destruct (get_ee_tx_data_absent tx instance_data Hnone) as (rc1 & tx1 & Hget & Hrc & Hn1).
    unfold ee_operator_execute_stream in Hrun. rewrite Hget in Hrun.
    destruct Hrc as [-> | ->].
    2:{ injection Hrun as <- <- <-. congruence. }
    destruct (ib_mm_alloc (mm tx1)) as [b1 mm1].
    destruct (ib_mm_alloc mm1) as [b2 mm2].
    destruct b2; simpl in Hrun.
    2:{ injection Hrun as <- <- <-.
        rewrite (tx_data_module_data tx1) in Hd by reflexivity. congruence. }
    destruct b1; simpl in Hrun; [|discriminate].
    destruct (ia_eudoxus_create_state (eudoxus instance_data)) as [[] state];
      try (injection Hrun as <- <- <-;
           rewrite (tx_data_module_data tx1) in Hd by reflexivity; congruence).
    destruct (set_ee_tx_data _ _ _) as [rc2 tx2].
    pose proof (ee_operator_execute_common_kept tx2 instance_data
                  {| eudoxus_state := state;
                     ee_cbdata := {| capture := capture0; match_len := mm_stale mm2 |};
                     end_of_automata := false |} field false) as Hk.
    destruct (ee_operator_execute_common _ _ _ _ _) as [[[rc3 data3] tx3] r3].
    injection Hrun as <- <- <-.
    apply tx_data_written_inv in Hd. subst data'.
    destruct Hk as (Hc & _). exact Hc.
  - intros tx field capture1 capture2 instance_data data Hd.
    rewrite !(ee_operator_execute_stream_found _ _ _ _ _ Hd). reflexivity.
  - intros tx field capture1 instance_data data rc tx' result Hd Hrun.
    rewrite (ee_operator_execute_stream_found _ _ _ _ _ Hd) in Hrun.
    pose proof (ee_operator_execute_common_kept tx instance_data data field false) as Hk.
    destruct (ee_operator_execute_common _ _ _ _ _) as [[[rc3 data3] tx3] r3].
    injection Hrun as <- <- <-.
    destruct Hk as (Hc & Hm & Hj). simpl in Hc, Hm, Hj. split.
    + exists data3. split; [|exact Hc].
      eapply tx_data_written_lookup.
      rewrite (tx_data_module_data tx tx3) by exact Hm. exact Hd.
    + intros j Hjt. rewrite tx_data_written_captures. apply Hj, Hjt.
Qed.

(** The data was created with collection 0 as capture target; the chunk
    that completes GET is fed with collection 1 as argument, and the match
    is written to collection 0. *)
Lemma ee_stream_capture_is_first_calls_witness :
  exists tx',
    ee_operator_execute_stream (tx_after_GE (Some 0) 0 0)
      (bytestr (list_byte_of_string "T /")) (Some 1) op_GET
    = Some (IB_OK, tx', 1%Z)
    /\ captures tx'
       = <[0 := [(ib_capture_name 0, list_byte_of_string "GET")]]>
           (captures (tx_after_GE (Some 0) 0 0)).
Proof.
  eapply (proj1 (proj2 ee_stream_capture_is_first_calls) (tx_after_GE (Some 0) 0 0)
            (bytestr (list_byte_of_string "T /")) (Some 1) op_GET
            {| eudoxus_state :=
                 Some {| automaton := trie_GET; node := 2; input_location := [] |};
               ee_cbdata := {| capture := Some 0; match_len := 0 |};
               end_of_automata := false |}
            {| automaton := trie_GET; node := 2; input_location := [] |}
            0 [] (list_byte_of_string "GET") []).
  - vm_compute. reflexivity.
  - reflexivity.
  - reflexivity.
  - reflexivity.
  - reflexivity.
  - split; [right|]; reflexivity.
  - reflexivity.
  - reflexivity.
  - simpl. lia.
Defined.

End EE.

(** ** The Lua module bridge ([lua_modules.c]) *)

Module ModLua.

(** *** What the bridge sees of a Lua runtime *)

(** Modelled from the spec: the Lua interpreter is not among the sources.
    The spec has the bridge ask the scripting runtime "does this module
    define a handler for event E (a capability probe)" and invoke "a single
    generic dispatcher inside that runtime".  A runtime is given by the
    types of the values the bridge looks up in it and by what the calls it
    makes come back with; Lua code is not run and the value stack is not
    kept.  A function that asserts [lua_checkstack] before anything else,
    and is reached with a pooled runtime, has [None] for the assertion
    failing: the process is aborted there.  The probes below are reached
    from the wiring on the main Lua state, and from
    [modlua_callback_setup] and [modlua_logevent] after these have
    tested the stack themselves; their own assertions are taken to
    hold. *)

Inductive lua_type_t : Set :=
| LUA_TNIL | LUA_TBOOLEAN | LUA_TNUMBER | LUA_TSTRING | LUA_TTABLE
| LUA_TFUNCTION | LUA_TUSERDATA.

Definition lua_isnil (t : lua_type_t) : bool :=
  match t with LUA_TNIL => true | _ => false end.
Definition lua_istable (t : lua_type_t) : bool :=
  match t with LUA_TTABLE => true | _ => false end.
Definition lua_isfunction (t : lua_type_t) : bool :=
  match t with LUA_TFUNCTION => true | _ => false end.

Record ib_module_t : Set := {
  idx : nat;
  name : string
}.

(** A container to hold both ibmod_lua and a user-defined Lua module. *)
Record modlua_modules_t : Set := {
  modlua : ib_module_t;
  module : ib_module_t
}.

Record lua_State : Type := {
  (** the global [modlua] and its fields *)
  global_modlua : lua_type_t;
  get_callbacks : lua_type_t;
  get_callbacks_logevents : lua_type_t;
  dispatch_module : lua_type_t;
  dispatch_module_logevent : lua_type_t;
  has_module : lua_type_t;
  (** [modlua.get_callbacks(ib, module index, state)]: the status of
      [ib_lua_pcall] and the type of the value returned *)
  call_get_callbacks : nat -> nat -> ib_status_t * lua_type_t;
  call_get_callbacks_logevents : nat -> ib_status_t * lua_type_t;
  (** [modlua.has_module(ib, module)]: [None] when [lua_pcall] fails, else
      the boolean returned, if it is one *)
  call_has_module : nat -> option (option bool);
  (** the dispatchers, called with the handler and the payload *)
  call_dispatch_module : nat -> nat -> ib_status_t;
  call_dispatch_module_logevent : nat -> ib_status_t;
  (** whether the stack can grow when [lua_checkstack] asks for room *)
  lua_checkstack : bool
}.

(** Push the specified handler for a lua module on top of the Lua stack L. *)
Definition modlua_push_lua_handler (modlua_modules : modlua_modules_t) (state : nat)
    (L : lua_State) : ib_status_t :=
  if lua_isnil (global_modlua L) then IB_EINVAL
  else if negb (lua_istable (global_modlua L)) then IB_EINVAL
  else if lua_isnil (get_callbacks L) then IB_EINVAL
  else if negb (lua_isfunction (get_callbacks L)) then IB_EINVAL
  else
    match call_get_callbacks L (idx (module modlua_modules)) state with
    | (IB_OK, result) =>
        (* Is the result a table, which should list the functions. *)
        if lua_istable result then IB_OK
        else if lua_isnil result then IB_ENOENT
        else IB_EINVAL
    | (rc, _) => rc
    end.

Definition modlua_push_lua_handler_logevents (modlua_modules : modlua_modules_t)
    (L : lua_State) : ib_status_t :=
  if lua_isnil (global_modlua L) then IB_EINVAL
  else if negb (lua_istable (global_modlua L)) then IB_EINVAL
  else if lua_isnil (get_callbacks_logevents L) then IB_EINVAL
  else if negb (lua_isfunction (get_callbacks_logevents L)) then IB_EINVAL
  else
    match call_get_callbacks_logevents L (idx (module modlua_modules)) with
    | (IB_OK, result) =>
        if lua_istable result then IB_OK
        else if lua_isnil result then IB_ENOENT
        else IB_EINVAL
    | (rc, _) => rc
    end.

(** Push the lua callback dispatcher function to the stack. *)
Definition modlua_push_dispatcher (state : nat) (L : lua_State) : ib_status_t :=
  if lua_isnil (global_modlua L) then IB_EINVAL
  else if negb (lua_istable (global_modlua L)) then IB_EINVAL
  else if lua_isnil (dispatch_module L) then IB_EINVAL
  else if negb (lua_isfunction (dispatch_module L)) then IB_EINVAL
  else IB_OK.

(** Check if a Lua module has a callback handler for a log events *)
Definition modlua_has_callback_logevents (ibmod_modules : modlua_modules_t)
    (L : lua_State) : ib_status_t :=
  modlua_push_lua_handler_logevents ibmod_modules L.

(** Check if a Lua module has a callback handler for a particular state. *)
Definition module_has_callback (ibmod_modules : modlua_modules_t) (state : nat)
    (L : lua_State) : ib_status_t :=
  modlua_push_lua_handler ibmod_modules state L.

(** Push the first 8 arguments for the callback dispatch lua function.
    [None] is [assert(lua_checkstack(L, 9))] failing. *)
Definition modlua_callback_setup (state : nat) (L : lua_State)
    (modlua_modules : modlua_modules_t) : option ib_status_t :=
  if negb (lua_checkstack L) then None
  else
    (* Push Lua dispatch method to stack. *)
    match modlua_push_dispatcher state L with
    | IB_OK =>
        (* Push Lua handler onto the table. *)
        match modlua_push_lua_handler modlua_modules state L with
        | IB_OK => Some IB_OK
        | rc => Some rc
        end
    | rc => Some rc
    end.

(** Check if a module is registered in a Lua stack.  [None] is
    [assert(lua_checkstack(L, 4))] failing. *)
Definition modlua_contains_module (L : lua_State) (module : ib_module_t) : option bool :=
  if negb (lua_checkstack L) then None
  else if lua_isnil (global_modlua L) then Some false
  else if negb (lua_istable (global_modlua L)) then Some false
  else if lua_isnil (has_module L) then Some false
  else if negb (lua_isfunction (has_module L)) then Some false
  else
    match call_has_module L (idx module) with
    | None => Some false
    | Some None => Some false
    | Some (Some result) => Some result
    end.

(** *** The runtime pool and the other collaborators of a hook invocation *)

(** Modelled from the spec: [modlua_acquirestate] and [modlua_releasestate]
    (the runtime pool), [ib_context_module_config] and the two reload
    functions are not among the sources.  The spec has "scripting-runtime
    instances are a pooled, limited resource" that a worker must "acquire"
    and "release".  An invocation is given what each of these calls answers
    and the runtime the pool hands out; the calls made on the pool and the
    call into the Lua dispatcher are recorded in the order they happen.
    A dispatcher returns a status, or is aborted by a failed assertion
    ([None]) with the calls made until then. *)
Record modlua_env_t : Type := {
  module_config : ib_status_t;
  acquirestate : ib_status_t;
  runtime : lua_State;
  reload_ctx_main : ib_status_t;
  reload_ctx_except_main : ib_status_t;
  releasestate : ib_status_t
}.

Inductive modlua_event_t : Set :=
| EV_ACQUIRE
| EV_RELEASE
| EV_PCALL (nargs : nat).

(** The code at the [exit] label, the same in every dispatcher. *)
Definition modlua_exit (env : modlua_env_t) (rc : ib_status_t)
    (trace : list modlua_event_t) : option ib_status_t * list modlua_event_t :=
  let rc2 := releasestate env in
  let trace := trace ++ [EV_RELEASE] in
  if bool_decide (rc2 <> IB_OK) && bool_decide (rc = IB_OK) then (Some rc2, trace)
  else (Some rc, trace).

(** Callback for logevents. *)
Definition modlua_logevent (env : modlua_env_t) (cbdata : modlua_modules_t)
  : option ib_status_t * list modlua_event_t :=
  let modlua_modules := cbdata in
  match module_config env with
  | IB_OK =>
      match acquirestate env with
      | IB_OK =>
          let trace := [EV_ACQUIRE] in
          let L := runtime env in
          if negb (lua_checkstack L) then (Some IB_EOTHER, trace)
          else
            (* Conditionally reload the main module context, if necessary. *)
            match modlua_contains_module L (module modlua_modules) with
            | None => (None, trace)
            | Some contains =>
            let rc := if negb contains then reload_ctx_main env else IB_OK in
            match rc with
            | IB_OK =>
                match reload_ctx_except_main env with
                | IB_OK =>
                    if lua_isnil (global_modlua L) then (Some IB_EINVAL, trace)
                    else if negb (lua_istable (global_modlua L)) then (Some IB_EINVAL, trace)
                    (* Push dispatch_module func. *)
                    else if lua_isnil (dispatch_module_logevent L) then (Some IB_EINVAL, trace)
                    else if negb (lua_isfunction (dispatch_module_logevent L))
                    then (Some IB_EINVAL, trace)
                    else
                      (* Push the log handler. *)
                      match modlua_push_lua_handler_logevents modlua_modules L with
                      | IB_OK =>
                          let rc :=
                            call_dispatch_module_logevent L (idx (module modlua_modules)) in
                          modlua_exit env rc (trace ++ [EV_PCALL 6])
                      | rc => modlua_exit env rc trace
                      end
                | rc => modlua_exit env rc trace
                end
            | rc => modlua_exit env rc trace
            end
            end
      | rc => (Some rc, [])
      end
  | rc => (Some rc, [])
  end.

(** Dispatch a null state into a Lua module. *)
Definition modlua_null (env : modlua_env_t) (state : nat) (cbdata : modlua_modules_t)
  : option ib_status_t * list modlua_event_t :=
  let modlua_modules := cbdata in
  match module_config env with
  | IB_OK =>
      match acquirestate env with
      | IB_OK =>
          let trace := [EV_ACQUIRE] in
          let L := runtime env in
          (* Conditionally reload the main module context, if necessary. *)
          match modlua_contains_module L (module modlua_modules) with
          | None => (None, trace)
          | Some contains =>
          let rc := if negb contains then reload_ctx_main env else IB_OK in
          match rc with
          | IB_OK =>
              match reload_ctx_except_main env with
              | IB_OK =>
                  match modlua_callback_setup state L modlua_modules with
                  | None => (None, trace)
                  | Some IB_OK =>
                      let rc :=
                        call_dispatch_module L (idx (module modlua_modules)) state in
                      modlua_exit env rc (trace ++ [EV_PCALL 8])
                  | Some rc => modlua_exit env rc trace
                  end
              | rc => modlua_exit env rc trace
              end
          | rc => modlua_exit env rc trace
          end
          end
      | rc => (Some rc, [])
      end
  | rc => (Some rc, [])
  end.

(** Dispatch a connection state into a Lua module. *)
Definition modlua_conn (env : modlua_env_t) (state : nat) (cbdata : modlua_modules_t)
  : option ib_status_t * list modlua_event_t :=
  let mod_cbdata := cbdata in
  match module_config env with
  | IB_OK =>
      match acquirestate env with
      | IB_OK =>
          let trace := [EV_ACQUIRE] in
          let L := runtime env in
          match modlua_callback_setup state L mod_cbdata with
          | None => (None, trace)
          | Some IB_OK =>
              (* Custom table setup *)
              let rc := call_dispatch_module L (idx (module mod_cbdata)) state in
              modlua_exit env rc (trace ++ [EV_PCALL 8])
          | Some rc => modlua_exit env rc trace
          end
      | rc => (Some rc, [])
      end
  | rc => (Some rc, [])
  end.

(** Dispatch a transaction state into a Lua module. *)
Definition modlua_tx (env : modlua_env_t) (state : nat) (cbdata : modlua_modules_t)
  : option ib_status_t * list modlua_event_t :=
  let mod_cbdata := cbdata in
  match module_config env with
  | IB_OK =>
      match acquirestate env with
      | IB_OK =>
          let trace := [EV_ACQUIRE] in
          let L := runtime env in
          match modlua_callback_setup state L mod_cbdata with
          | None => (None, trace)
          | Some IB_OK =>
              (* Custom table setup *)
              let rc := call_dispatch_module L (idx (module mod_cbdata)) state in
              modlua_exit env rc (trace ++ [EV_PCALL 8])
          | Some rc => modlua_exit env rc trace
          end
      | rc => (Some rc, [])
      end
  | rc => (Some rc, [])
  end.

(** Dispatch a transaction data state into a Lua module. *)
Definition modlua_txdata (env : modlua_env_t) (state : nat) (cbdata : modlua_modules_t)
  : option ib_status_t * list modlua_event_t :=
  let mod_cbdata := cbdata in
  match module_config env with
  | IB_OK =>
      match acquirestate env with
      | IB_OK =>
          let trace := [EV_ACQUIRE] in
          let L := runtime env in
          match modlua_callback_setup state L mod_cbdata with
          | None => (None, trace)
          | Some IB_OK =>
              (* Custom table setup: the data and its length; [assert(lua_checkstack(runtime->L, 2))] *)
              if negb (lua_checkstack L) then (None, trace)
              else
                let rc := call_dispatch_module L (idx (module mod_cbdata)) state in
                modlua_exit env rc (trace ++ [EV_PCALL 10])
          | Some rc => modlua_exit env rc trace
          end
      | rc => (Some rc, [])
      end
  | rc => (Some rc, [])
  end.

(** Dispatch a header callback hook. *)
Definition modlua_header (env : modlua_env_t) (state : nat) (cbdata : modlua_modules_t)
  : option ib_status_t * list modlua_event_t :=
  let mod_cbdata := cbdata in
  match module_config env with
  | IB_OK =>
      match acquirestate env with
      | IB_OK =>
          let trace := [EV_ACQUIRE] in
          let L := runtime env in
          match modlua_callback_setup state L mod_cbdata with
          | None => (None, trace)
          | Some IB_OK =>
              (* Custom table setup: the parsed header; [assert(lua_checkstack(runtime->L, 1))] *)
              if negb (lua_checkstack L) then (None, trace)
              else
                let rc := call_dispatch_module L (idx (module mod_cbdata)) state in
                modlua_exit env rc (trace ++ [EV_PCALL 9])
          | Some rc => modlua_exit env rc trace
          end
      | rc => (Some rc, [])
      end
  | rc => (Some rc, [])
  end.

(** Dispatch a request line callback hook. *)
Definition modlua_reqline (env : modlua_env_t) (state : nat) (cbdata : modlua_modules_t)
  : option ib_status_t * list modlua_event_t :=
  let mod_cbdata := cbdata in
  match module_config env with
  | IB_OK =>
      match acquirestate env with
      | IB_OK =>
          let trace := [EV_ACQUIRE] in
          let L := runtime env in
          match modlua_callback_setup state L mod_cbdata with
          | None => (None, trace)
          | Some IB_OK =>
              (* Custom table setup: the parsed request line; [assert(lua_checkstack(runtime->L, 1))] *)
              if negb (lua_checkstack L) then (None, trace)
              else
                let rc := call_dispatch_module L (idx (module mod_cbdata)) state in
                modlua_exit env rc (trace ++ [EV_PCALL 9])
          | Some rc => modlua_exit env rc trace
          end
      | rc => (Some rc, [])
      end
  | rc => (Some rc, [])
  end.

(** Dispatch a response line callback hook. *)
Definition modlua_respline (env : modlua_env_t) (state : nat) (cbdata : modlua_modules_t)
  : option ib_status_t * list modlua_event_t :=
  let mod_cbdata := cbdata in
  match module_config env with
  | IB_OK =>
      match acquirestate env with
      | IB_OK =>
          let trace := [EV_ACQUIRE] in
          let L := runtime env in
          match modlua_callback_setup state L mod_cbdata with
          | None => (None, trace)
          | Some IB_OK =>
              (* Custom table setup: the parsed response line; [assert(lua_checkstack(runtime->L, 1))] *)
              if negb (lua_checkstack L) then (None, trace)
              else
                let rc := call_dispatch_module L (idx (module mod_cbdata)) state in
                modlua_exit env rc (trace ++ [EV_PCALL 9])
          | Some rc => modlua_exit env rc trace
          end
      | rc => (Some rc, [])
      end
  | rc => (Some rc, [])
  end.

(** Dispatch a context state into a Lua module. *)
Definition modlua_ctx (env : modlua_env_t) (state : nat) (cbdata : modlua_modules_t)
  : option ib_status_t * list modlua_event_t :=
  let modlua_modules := cbdata in
  match module_config env with
  | IB_OK =>
      match acquirestate env with
      | IB_OK =>
          let trace := [EV_ACQUIRE] in
          let L := runtime env in
          (* Conditionally reload the main module context, if necessary. *)
          match modlua_contains_module L (module modlua_modules) with
          | None => (None, trace)
          | Some contains =>
          let rc := if negb contains then reload_ctx_main env else IB_OK in
          match rc with
          | IB_OK =>
              match reload_ctx_except_main env with
              | IB_OK =>
                  match modlua_callback_setup state L modlua_modules with
                  | None => (None, trace)
                  | Some IB_OK =>
                      let rc :=
                        call_dispatch_module L (idx (module modlua_modules)) state in
                      modlua_exit env rc (trace ++ [EV_PCALL 8])
                  | Some rc => modlua_exit env rc trace
                  end
              | rc => modlua_exit env rc trace
              end
          | rc => modlua_exit env rc trace
          end
          end
      | rc => (Some rc, [])
      end
  | rc => (Some rc, [])
  end.

(** *** Wiring a module's handlers into the engine *)

Inductive ib_state_hook_type_t : Set :=
| IB_STATE_HOOK_INVALID | IB_STATE_HOOK_NULL | IB_STATE_HOOK_CONN | IB_STATE_HOOK_TX
| IB_STATE_HOOK_TXDATA | IB_STATE_HOOK_REQLINE | IB_STATE_HOOK_RESPLINE
| IB_STATE_HOOK_HEADER | IB_STATE_HOOK_CTX.

Definition ib_state_hook_type_eq_dec (a b : ib_state_hook_type_t) : {a = b} + {a <> b}.
Proof. decide equality. Defined.

#[global] Instance ib_state_hook_type_eq : EqDecision ib_state_hook_type_t :=
  ib_state_hook_type_eq_dec.

(** The callbacks the bridge registers, by name. *)
Inductive modlua_callback_t : Set :=
| CB_modlua_null | CB_modlua_ctx | CB_modlua_conn | CB_modlua_tx | CB_modlua_txdata
| CB_modlua_reqline | CB_modlua_respline | CB_modlua_header.

Definition modlua_callback (cb : modlua_callback_t)
  : modlua_env_t -> nat -> modlua_modules_t -> option ib_status_t * list modlua_event_t :=
  match cb with
  | CB_modlua_null => modlua_null
  | CB_modlua_ctx => modlua_ctx
  | CB_modlua_conn => modlua_conn
  | CB_modlua_tx => modlua_tx
  | CB_modlua_txdata => modlua_txdata
  | CB_modlua_reqline => modlua_reqline
  | CB_modlua_respline => modlua_respline
  | CB_modlua_header => modlua_header
  end.

(** The hook shape each callback is written for, by its C signature. *)
Definition modlua_callback_shape (cb : modlua_callback_t) : ib_state_hook_type_t :=
  match cb with
  | CB_modlua_null => IB_STATE_HOOK_NULL
  | CB_modlua_ctx => IB_STATE_HOOK_CTX
  | CB_modlua_conn => IB_STATE_HOOK_CONN
  | CB_modlua_tx => IB_STATE_HOOK_TX
  | CB_modlua_txdata => IB_STATE_HOOK_TXDATA
  | CB_modlua_reqline => IB_STATE_HOOK_REQLINE
  | CB_modlua_respline => IB_STATE_HOOK_RESPLINE
  | CB_modlua_header => IB_STATE_HOOK_HEADER
  end.

Record ib_hook_t : Set := {
  hook_state : nat;
  hook_type : ib_state_hook_type_t;
  hook_callback : modlua_callback_t;
  hook_cbdata : modlua_modules_t
}.

(** Modelled from the spec: the engine is not among the sources.  The spec
    has a hook entry be "(event, shape, callback, opaque callback-data,
    ...)" with "registration order preserved".  The engine is, as far as
    the wiring reaches into it, the main pool ([None] is the null memory
    manager), the hooks in the order they were registered, and the
    log-event callbacks. *)
Record ib_engine_t : Set := {
  mm_main : option ib_mm_t;
  hooks : list ib_hook_t;
  logevent_handlers : list modlua_modules_t
}.

(** Modelled from the spec: the log-event handler is "registered
    separately against the log-event notification".  The entry is a block of
    the main pool; without one the registration fails with [IB_EALLOC] and
    the engine is as it was. *)
Definition ib_engine_notify_logevent_register (ib : ib_engine_t)
    (cbdata : modlua_modules_t) : ib_status_t * ib_engine_t :=
  match mm_main ib with
  | None => (IB_EALLOC, ib)
  | Some mm =>
      match ib_mm_alloc mm with
      | (false, _) => (IB_EALLOC, ib)
      | (true, mm') =>
          (IB_OK,
           {| mm_main := Some mm'; hooks := hooks ib;
              logevent_handlers := logevent_handlers ib ++ [cbdata] |})
      end
  end.

Section Taxonomy.

(** The events and the hook type of each ([engine_state.h]), which this
    file is given. *)
Variable IB_STATE_NUM : nat.
Variable ib_state_hook_type : nat -> ib_state_hook_type_t.

(** Modelled from the spec: the engine's registration functions are not
    among the sources.  The spec has
    "register(event, shape, callback, callback_data) -> ok | invalid_shape"
    and "registration order is preserved": the hook is appended when the
    shape is the event's, and refused otherwise. *)
Definition ib_hook_register (ib : ib_engine_t) (state : nat)
    (shape : ib_state_hook_type_t) (cb : modlua_callback_t) (cbdata : modlua_modules_t)
  : ib_status_t * ib_engine_t :=
  if decide (ib_state_hook_type state = shape) then
    (IB_OK,
     {| mm_main := mm_main ib;
        hooks := hooks ib ++ [{| hook_state := state; hook_type := shape;
                                 hook_callback := cb; hook_cbdata := cbdata |}];
        logevent_handlers := logevent_handlers ib |})
  else (IB_EINVAL, ib).

Definition ib_hook_null_register ib state cb cbdata :=
  ib_hook_register ib state IB_STATE_HOOK_NULL cb cbdata.
Definition ib_hook_context_register ib state cb cbdata :=
  ib_hook_register ib state IB_STATE_HOOK_CTX cb cbdata.
Definition ib_hook_conn_register ib state cb cbdata :=
  ib_hook_register ib state IB_STATE_HOOK_CONN cb cbdata.
Definition ib_hook_tx_register ib state cb cbdata :=
  ib_hook_register ib state IB_STATE_HOOK_TX cb cbdata.
Definition ib_hook_txdata_register ib state cb cbdata :=
  ib_hook_register ib state IB_STATE_HOOK_TXDATA cb cbdata.
Definition ib_hook_parsed_req_line_register ib state cb cbdata :=
  ib_hook_register ib state IB_STATE_HOOK_REQLINE cb cbdata.
Definition ib_hook_parsed_resp_line_register ib state cb cbdata :=
  ib_hook_register ib state IB_STATE_HOOK_RESPLINE cb cbdata.
Definition ib_hook_parsed_header_data_register ib state cb cbdata :=
  ib_hook_register ib state IB_STATE_HOOK_HEADER cb cbdata.

(** The body of the loop over the states, from [state] on. *)
Fixpoint modlua_wire_states (states : list nat) (ib : ib_engine_t)
    (ibmod_modules_cbdata : modlua_modules_t) (L : lua_State)
  : ib_status_t * ib_engine_t :=
  match states with
  | [] => (IB_OK, ib)
  | state :: states' =>
      let rc := module_has_callback ibmod_modules_cbdata state L in
      let '(rc, ib) :=
        match rc with
        | IB_OK =>
            match ib_state_hook_type state with
            | IB_STATE_HOOK_NULL =>
                ib_hook_null_register ib state CB_modlua_null ibmod_modules_cbdata
            | IB_STATE_HOOK_INVALID => (rc, ib)
            | IB_STATE_HOOK_CTX =>
                ib_hook_context_register ib state CB_modlua_ctx ibmod_modules_cbdata
            | IB_STATE_HOOK_CONN =>
                ib_hook_conn_register ib state CB_modlua_conn ibmod_modules_cbdata
            | IB_STATE_HOOK_TX =>
                ib_hook_tx_register ib state CB_modlua_tx ibmod_modules_cbdata
            | IB_STATE_HOOK_TXDATA =>
                ib_hook_txdata_register ib state CB_modlua_txdata ibmod_modules_cbdata
            | IB_STATE_HOOK_REQLINE =>
                ib_hook_parsed_req_line_register ib state CB_modlua_reqline
                  ibmod_modules_cbdata
            | IB_STATE_HOOK_RESPLINE =>
                ib_hook_parsed_resp_line_register ib state CB_modlua_respline
                  ibmod_modules_cbdata
            | IB_STATE_HOOK_HEADER =>
                ib_hook_parsed_header_data_register ib state CB_modlua_header
                  ibmod_modules_cbdata
            end
        | _ => (rc, ib)
        end in
      if bool_decide (rc <> IB_OK) && bool_decide (rc <> IB_ENOENT) then (rc, ib)
      else modlua_wire_states states' ib ibmod_modules_cbdata L
  end.

(** Called by modlua_module_load to wire the callbacks in [ib]. *)
Definition modlua_module_load_wire_callbacks (ib : ib_engine_t) (modlua : ib_module_t)
    (file : string) (module : ib_module_t) (L : lua_State)
  : ib_status_t * ib_engine_t :=
  match mm_main ib with
  | None => (IB_EOTHER, ib)
  | Some mm =>
      match ib_mm_calloc mm with
      | (false, _) => (IB_EALLOC, ib)
      | (true, mm') =>
          let ib := {| mm_main := Some mm'; hooks := hooks ib;
                       logevent_handlers := logevent_handlers ib |} in
          let ibmod_modules_cbdata := {| modlua := modlua; module := module |} in
          let rc := modlua_has_callback_logevents ibmod_modules_cbdata L in
          (* the status of the registration is not assigned: the test that
             follows it in the C code reads the [rc] of the probe, which is
             [IB_OK] there *)
          let ib :=
            match rc with
            | IB_OK => snd (ib_engine_notify_logevent_register ib ibmod_modules_cbdata)
            | _ => ib
            end in
          modlua_wire_states (seq 0 IB_STATE_NUM) ib ibmod_modules_cbdata L
      end
  end.

End Taxonomy.

(** *** Inputs used in the examples *)

Definition module_waf : modlua_modules_t :=
  {| modlua := {| idx := 3; name := "lua" |};
     module := {| idx := 7; name := "waf.lua" |} |}.

(** A runtime in which the module handles states 0 and 2 and log events. *)
Definition runtime_waf : lua_State :=
  {| global_modlua := LUA_TTABLE;
     get_callbacks := LUA_TFUNCTION;
     get_callbacks_logevents := LUA_TFUNCTION;
     dispatch_module := LUA_TFUNCTION;
     dispatch_module_logevent := LUA_TFUNCTION;
     has_module := LUA_TFUNCTION;
     call_get_callbacks :=
       fun _ state => (IB_OK, if Nat.eqb state 1 then LUA_TNIL else LUA_TTABLE);
     call_get_callbacks_logevents := fun _ => (IB_OK, LUA_TTABLE);
     call_has_module := fun _ => Some (Some true);
     call_dispatch_module := fun _ _ => IB_OK;
     call_dispatch_module_logevent := fun _ => IB_OK;
     lua_checkstack := true |}.

(** The same runtime with no room left on its stack. *)
Definition runtime_full : lua_State :=
  {| global_modlua := LUA_TTABLE;
     get_callbacks := LUA_TFUNCTION;
     get_callbacks_logevents := LUA_TFUNCTION;
     dispatch_module := LUA_TFUNCTION;
     dispatch_module_logevent := LUA_TFUNCTION;
     has_module := LUA_TFUNCTION;
     call_get_callbacks := call_get_callbacks runtime_waf;
     call_get_callbacks_logevents := fun _ => (IB_OK, LUA_TTABLE);
     call_has_module := fun _ => Some (Some true);
     call_dispatch_module := fun _ _ => IB_OK;
     call_dispatch_module_logevent := fun _ => IB_OK;
     lua_checkstack := false |}.

Definition env_of (L : lua_State) : modlua_env_t :=
  {| module_config := IB_OK; acquirestate := IB_OK; runtime := L;
     reload_ctx_main := IB_OK; reload_ctx_except_main := IB_OK;
     releasestate := IB_OK |}.

(** A taxonomy of three events: a connection state, a context state and a
    transaction state. *)
Definition three_states (state : nat) : ib_state_hook_type_t :=
  match state with
  | 0 => IB_STATE_HOOK_CONN
  | 1 => IB_STATE_HOOK_CTX
  | 2 => IB_STATE_HOOK_TX
  | _ => IB_STATE_HOOK_INVALID
  end.

Definition engine_empty : ib_engine_t :=
  {| mm_main := Some {| mm_left := 4; mm_stale := 0 |};
     hooks := []; logevent_handlers := [] |}.

(** *** Acquire and release *)

(** A trace in which the runtime acquired is given back at the end. *)
Definition acquired_and_released (trace : list modlua_event_t) : Prop :=
  exists calls, trace = [EV_ACQUIRE] ++ calls ++ [EV_RELEASE].

Lemma modlua_exit_released env rc calls :
  acquired_and_released (snd (modlua_exit env rc ([EV_ACQUIRE] ++ calls))).
Proof.
  unfold modlua_exit. exists calls.
  destruct (bool_decide _ && bool_decide _); simpl; rewrite <- ?app_assoc; reflexivity.
Qed.

(** On a runtime whose stack can grow the assertions hold. *)
Lemma modlua_callback_setup_returns state L modlua_modules :
  lua_checkstack L = true ->
  exists rc, modlua_callback_setup state L modlua_modules = Some rc.
Proof.
  intros H. unfold modlua_callback_setup. rewrite H. cbn [negb].
  destruct (modlua_push_dispatcher state L); eauto.
  destruct (modlua_push_lua_handler modlua_modules state L); eauto.
Qed.

Lemma modlua_contains_module_returns L module :
  lua_checkstack L = true ->
  exists result, modlua_contains_module L module = Some result.
Proof.
  intros H. unfold modlua_contains_module. rewrite H. cbn [negb].
  destruct (lua_isnil (global_modlua L)); eauto.
  destruct (negb (lua_istable (global_modlua L))); eauto.
  destruct (lua_isnil (has_module L)); eauto.
  destruct (negb (lua_isfunction (has_module L))); eauto.
  destruct (call_has_module L (idx module)) as [[r|]|]; eauto.
Qed.

Lemma modlua_callback_setup_checkstack state L modlua_modules rc :
  modlua_callback_setup state L modlua_modules = Some rc ->
  lua_checkstack L = true.
Proof.
  unfold modlua_callback_setup. destruct (lua_checkstack L); [reflexivity|discriminate].
Qed.

Ltac modlua_unfold_dispatchers :=
  unfold modlua_null, modlua_ctx, modlua_conn, modlua_tx, modlua_txdata,
    modlua_reqline, modlua_respline, modlua_header.

Ltac modlua_destruct_statuses :=
  repeat match goal with
    | |- context [match ?x with _ => _ end] =>
        match type of x with
        | ib_status_t => destruct x
        end
    end.

(** Every state dispatcher gives the runtime back once it has acquired it,
    whichever step fails afterwards, on a runtime whose stack can grow. *)
Lemma modlua_dispatchers_release cb env state cbdata :
  module_config env = IB_OK ->
  acquirestate env = IB_OK ->
  lua_checkstack (runtime env) = true ->
  acquired_and_released (snd (modlua_callback cb env state cbdata)).
Proof.
  intros Hc Ha Hs.
  destruct (modlua_callback_setup_returns state (runtime env) cbdata Hs) as [rcs Es].
  destruct (modlua_contains_module_returns (runtime env) (module cbdata) Hs) as [r Er].
  destruct cb; simpl; modlua_unfold_dispatchers;
    rewrite Hc, Ha, ?Er, Es, ?Hs; cbn [negb];
    try destruct r; cbn [negb];
    modlua_destruct_statuses;
    first [ apply (modlua_exit_released env _ [])
          | apply (modlua_exit_released env _ [EV_PCALL _]) ].
Qed.

(** A state dispatcher whose runtime is set up calls the generic Lua
    dispatcher once, between the acquire and the release, and returns what
    it returned (or the status of a failed release). *)
Lemma modlua_callback_dispatches cb env state cbdata :
  module_config env = IB_OK ->
  acquirestate env = IB_OK ->
  reload_ctx_main env = IB_OK ->
  reload_ctx_except_main env = IB_OK ->
  modlua_callback_setup state (runtime env) cbdata = Some IB_OK ->
  exists nargs,
    modlua_callback cb env state cbdata
    = modlua_exit env (call_dispatch_module (runtime env) (idx (module cbdata)) state)
        [EV_ACQUIRE; EV_PCALL nargs].
Proof.
  intros Hc Ha Hm He Hs.
  pose proof (modlua_callback_setup_checkstack _ _ _ _ Hs) as Hk.
  destruct (modlua_contains_module_returns (runtime env) (module cbdata) Hk) as [r Er].
  destruct cb; simpl; modlua_unfold_dispatchers;
    rewrite Hc, Ha, ?Er, ?Hm, ?He, Hs, ?Hk; cbn [negb];
    try (destruct r; cbn [negb]; rewrite ?Hm, ?He);
    eexists; reflexivity.
Qed.

(** C6 (a runtime acquired is released on every exit path).
    [modlua_logevent] does not do so: acquired a runtime whose stack cannot
    grow, it returns [IB_EOTHER] without a call to [modlua_releasestate];
    and where the global [modlua] or its [dispatch_module_logevent] is not
    what it should be, it returns [IB_EINVAL] the same way.  On a runtime
    with room and a well-formed [modlua], a state dispatcher such as
    [modlua_tx] acquires, calls and releases. *)
Theorem modlua_logevent_keeps_the_runtime :
  (forall env cbdata,
      module_config env = IB_OK -> acquirestate env = IB_OK ->
      lua_checkstack (runtime env) = false ->
      modlua_logevent env cbdata = (Some IB_EOTHER, [EV_ACQUIRE]))
  /\ (forall env cbdata,
      module_config env = IB_OK -> acquirestate env = IB_OK ->
      lua_checkstack (runtime env) = true ->
      reload_ctx_main env = IB_OK -> reload_ctx_except_main env = IB_OK ->
      lua_istable (global_modlua (runtime env)) = false
      \/ lua_isfunction (dispatch_module_logevent (runtime env)) = false ->
      modlua_logevent env cbdata = (Some IB_EINVAL, [EV_ACQUIRE]))
  /\ modlua_logevent (env_of runtime_full) module_waf = (Some IB_EOTHER, [EV_ACQUIRE])
  /\ modlua_tx (env_of runtime_waf) 2 module_waf
     = (Some IB_OK, [EV_ACQUIRE; EV_PCALL 8; EV_RELEASE]).
Proof.
  split; [|split; [|split; reflexivity]].
  - intros env cbdata Hc Ha Hs. unfold modlua_logevent. rewrite Hc, Ha, Hs. reflexivity.
  - intros env cbdata Hc Ha Hs Hm He Hbad.
    destruct (modlua_contains_module_returns (runtime env) (module cbdata) Hs) as [r Er].
    unfold modlua_logevent. rewrite Hc, Ha, Hs, Er, Hm, He. simpl.
    destruct r; simpl;
      destruct Hbad as [Hbad | Hbad];
      destruct (global_modlua (runtime env)); try discriminate; simpl; try reflexivity;
      destruct (dispatch_module_logevent (runtime env)); try discriminate; reflexivity.
Qed.

Lemma modlua_logevent_keeps_the_runtime_witness :
  modlua_logevent (env_of runtime_full) module_waf = (Some IB_EOTHER, [EV_ACQUIRE]).
Proof.
  apply (proj1 modlua_logevent_keeps_the_runtime); reflexivity.
Defined.

(** *** The hooks a load leaves behind *)

(** A hook as the bridge registers it for [cbdata]: of the shape of its
    event, with the bridge's dispatcher for that shape as callback. *)
Definition bridged_hook (ib_state_hook_type : nat -> ib_state_hook_type_t)
    (cbdata : modlua_modules_t) (h : ib_hook_t) : Prop :=
  hook_type h = ib_state_hook_type (hook_state h)
  /\ modlua_callback_shape (hook_callback h) = hook_type h
  /\ hook_cbdata h = cbdata.

Lemma modlua_wire_states_hooks ib_state_hook_type states ib cbdata L ib' :
  Forall (fun state => ib_state_hook_type state <> IB_STATE_HOOK_INVALID) states ->
  modlua_wire_states ib_state_hook_type states ib cbdata L = (IB_OK, ib') ->
  exists new,
    hooks ib' = hooks ib ++ new
    /\ map hook_state new
       = filter (fun state => module_has_callback cbdata state L = IB_OK) states
    /\ Forall (bridged_hook ib_state_hook_type cbdata) new
    /\ logevent_handlers ib' = logevent_handlers ib.
Proof.
  revert ib. induction states as [|state states IH]; intros ib0 Hvalid; simpl.
  - intros [= <-]. exists []. rewrite app_nil_r. repeat split. constructor.
  - inversion Hvalid as [|? ? Hv Hrest]; subst.
    destruct (module_has_callback cbdata state L) eqn:Hp;
      simpl; try discriminate.
    + (* the probe found a handler *)
      rewrite filter_cons_True by exact Hp.
      unfold ib_hook_null_register, ib_hook_context_register, ib_hook_conn_register,
        ib_hook_tx_register, ib_hook_txdata_register, ib_hook_parsed_req_line_register,
        ib_hook_parsed_resp_line_register, ib_hook_parsed_header_data_register,
        ib_hook_register.
      destruct (ib_state_hook_type state) eqn:Ht; try contradiction;
        (destruct (decide _) as [_|Hne]; [|contradiction]); simpl;
        intros Hw; apply (IH _ Hrest) in Hw;
        destruct Hw as (new & Hh & Hs & Hb & Hl); simpl in Hh, Hl;
        (eexists (_ :: new); split; [rewrite Hh, <- app_assoc; reflexivity|];
         split; [simpl; rewrite Hs; reflexivity|];
         split; [constructor; [repeat split; simpl; auto|exact Hb]|exact Hl]).
    + (* no handler for this state *)
      rewrite filter_cons_False by (rewrite Hp; discriminate).
      apply (IH _ Hrest).
Qed.

Lemma ib_engine_notify_logevent_register_hooks ib cbdata :
  hooks (snd (ib_engine_notify_logevent_register ib cbdata)) = hooks ib.
Proof.
  unfold ib_engine_notify_logevent_register.
  destruct (mm_main ib) as [mm|]; [|reflexivity].
  destruct (ib_mm_alloc mm) as [[] mm']; reflexivity.
Qed.




Example modlua_wires_waf :
  modlua_module_load_wire_callbacks 3 three_states engine_empty
    (modlua module_waf) "waf.lua" (module module_waf) runtime_waf
  = (IB_OK,
     {| mm_main := Some {| mm_left := 2; mm_stale := 0 |};
        hooks := [ {| hook_state := 0; hook_type := IB_STATE_HOOK_CONN;
                      hook_callback := CB_modlua_conn; hook_cbdata := module_waf |};
                   {| hook_state := 2; hook_type := IB_STATE_HOOK_TX;
                      hook_callback := CB_modlua_tx; hook_cbdata := module_waf |} ];
        logevent_handlers := [module_waf] |}).
Proof. reflexivity. Qed.

(** A runtime in which the module handles log events and no state. *)
Definition runtime_logonly : lua_State :=
  {| global_modlua := LUA_TTABLE;
     get_callbacks := LUA_TFUNCTION;
     get_callbacks_logevents := LUA_TFUNCTION;
     dispatch_module := LUA_TFUNCTION;
     dispatch_module_logevent := LUA_TFUNCTION;
     has_module := LUA_TFUNCTION;
     call_get_callbacks := fun _ _ => (IB_OK, LUA_TNIL);
     call_get_callbacks_logevents := fun _ => (IB_OK, LUA_TTABLE);
     call_has_module := fun _ => Some (Some true);
     call_dispatch_module := fun _ _ => IB_OK;
     call_dispatch_module_logevent := fun _ => IB_OK;
     lua_checkstack := true |}.

(** With one block in the main pool, taken by the callback data, the
    registration of the log-event callback fails and the wiring returns
    [IB_OK] all the same: the module's log-event handler is never called. *)
Example modlua_wires_without_logevent_callback :
  modlua_has_callback_logevents module_waf runtime_logonly = IB_OK
  /\ modlua_module_load_wire_callbacks 3 three_states
       {| mm_main := Some {| mm_left := 1; mm_stale := 0 |};
          hooks := []; logevent_handlers := [] |}
       (modlua module_waf) "waf.lua" (module module_waf) runtime_logonly
     = (IB_OK,
        {| mm_main := Some {| mm_left := 0; mm_stale := 0 |};
           hooks := []; logevent_handlers := [] |}).
Proof. split; reflexivity. Qed.

(** *** The runtime held by a dispatcher *)

Lemma modlua_exit_returns env rc calls :
  exists rc',
    modlua_exit env rc ([EV_ACQUIRE] ++ calls)
    = (Some rc', [EV_ACQUIRE] ++ calls ++ [EV_RELEASE]).
Proof.
  unfold modlua_exit.
  destruct (bool_decide _ && bool_decide _); eexists; reflexivity.
Qed.

(** X11.  A state dispatcher holds a runtime for the time of one call at
    most.  When the module configuration or the runtime pool fails, it
    returns that status and the pool is not asked to release anything.
    With a runtime acquired whose stack can grow it returns a status, and
    the runtime is acquired once, released once, at the end, and in between
    the Lua dispatcher is called once or not at all.  With a runtime
    acquired whose stack cannot grow, the first assertion on the stack
    fails: the dispatcher is aborted there, the runtime acquired and not
    released. *)
Theorem modlua_dispatcher_holds_runtime_once :
  forall cb env state cbdata,
    (module_config env <> IB_OK ->
     modlua_callback cb env state cbdata = (Some (module_config env), []))
    /\ (module_config env = IB_OK -> acquirestate env <> IB_OK ->
        modlua_callback cb env state cbdata = (Some (acquirestate env), []))
    /\ (module_config env = IB_OK -> acquirestate env = IB_OK ->
        lua_checkstack (runtime env) = true ->
        exists rc calls,
          modlua_callback cb env state cbdata
          = (Some rc, [EV_ACQUIRE] ++ calls ++ [EV_RELEASE])
          /\ (calls = [] \/ exists nargs, calls = [EV_PCALL nargs]))
    /\ (module_config env = IB_OK -> acquirestate env = IB_OK ->
        lua_checkstack (runtime env) = false ->
        modlua_callback cb env state cbdata = (None, [EV_ACQUIRE])).
Proof.
  intros cb env state cbdata. split; [|split; [|split]].
  - intros Hc.
    destruct cb; simpl; modlua_unfold_dispatchers;
      destruct (module_config env); try reflexivity; contradiction.
  - intros Hc Ha.
    destruct cb; simpl; modlua_unfold_dispatchers;
      rewrite Hc; destruct (acquirestate env); try reflexivity; contradiction.
  - intros Hc Ha Hs.
    destruct (modlua_callback_setup_returns state (runtime env) cbdata Hs) as [rcs Es].
    destruct (modlua_contains_module_returns (runtime env) (module cbdata) Hs) as [r Er].
    destruct cb; simpl; modlua_unfold_dispatchers;
      rewrite Hc, Ha, ?Er, Es, ?Hs; cbn [negb];
      try destruct r; cbn [negb];
      modlua_destruct_statuses;
      first [ destruct (modlua_exit_returns env IB_OK []) as [rc' E];
              match goal with
              | |- context [modlua_exit env ?rc ?tr] =>
                  destruct (modlua_exit_returns env rc []) as [rc'' E'];
                  exists rc'', []; split; [exact E' | left; reflexivity]
              end
            | match goal with
              | |- context [modlua_exit env ?rc ([EV_ACQUIRE] ++ [EV_PCALL ?n])] =>
                  destruct (modlua_exit_returns env rc [EV_PCALL n]) as [rc'' E'];
                  exists rc'', [EV_PCALL n]; split;
                  [exact E' | right; eexists; reflexivity]
              end ].
  - intros Hc Ha Hs.
    destruct cb; simpl; modlua_unfold_dispatchers;
      rewrite Hc, Ha; unfold modlua_contains_module, modlua_callback_setup;
      rewrite Hs; reflexivity.
Qed.

(** X12.  What a state dispatcher returns.  With the runtime acquired, the
    module contexts reloaded and the call set up (the stack of the runtime
    could be grown and the handler was found), the dispatcher returns the
    status of the Lua dispatcher; a failure to release the runtime is
    reported only when the Lua dispatcher returned [IB_OK], and never
    replaces an error of the call. *)
Theorem modlua_dispatcher_status :
  forall cb env state cbdata,
    module_config env = IB_OK ->
    acquirestate env = IB_OK ->
    reload_ctx_main env = IB_OK ->
    reload_ctx_except_main env = IB_OK ->
    modlua_callback_setup state (runtime env) cbdata = Some IB_OK ->
    exists nargs,
      modlua_callback cb env state cbdata
      = (Some
           (if decide (call_dispatch_module (runtime env) (idx (module cbdata)) state
                       = IB_OK)
            then releasestate env
            else call_dispatch_module (runtime env) (idx (module cbdata)) state),
         [EV_ACQUIRE; EV_PCALL nargs; EV_RELEASE]).
Proof.
  intros cb env state cbdata Hc Ha Hm He Hs.
  destruct (modlua_callback_dispatches cb env state cbdata Hc Ha Hm He Hs) as [nargs ->].
  exists nargs. unfold modlua_exit.
  destruct (call_dispatch_module (runtime env) (idx (module cbdata)) state);
    destruct (releasestate env); reflexivity.
Qed.

Lemma modlua_dispatcher_status_witness :
  exists nargs,
    modlua_callback CB_modlua_txdata (env_of runtime_waf) 2 module_waf
    = (Some IB_OK, [EV_ACQUIRE; EV_PCALL nargs; EV_RELEASE]).
Proof.
  apply (modlua_dispatcher_status CB_modlua_txdata (env_of runtime_waf) 2 module_waf);
    reflexivity.
Defined.

(** *** [modlua_logevent] and the runtime *)

Lemma modlua_exit_last env rc trace :
  last (snd (modlua_exit env rc trace)) = Some EV_RELEASE.
Proof.
  unfold modlua_exit.
  destruct (bool_decide _ && bool_decide _); simpl; apply last_snoc.
Qed.

(** X13.  When [modlua_logevent] gives its runtime back.  With a runtime
    acquired, the log-event callback releases it exactly when the stack of
    the runtime could be grown and either a reload of the module contexts
    failed, or the global [modlua] is a table and its
    [dispatch_module_logevent] a function; in every other case it returns
    with the runtime acquired and never released. *)
Theorem modlua_logevent_releases_iff :
  forall env cbdata,
    module_config env = IB_OK ->
    acquirestate env = IB_OK ->
    let L := runtime env in
    let reloaded :=
      (bool_decide (modlua_contains_module L (module cbdata) = Some true)
       || bool_decide (reload_ctx_main env = IB_OK))
      && bool_decide (reload_ctx_except_main env = IB_OK) in
    let trace := snd (modlua_logevent env cbdata) in
    (last trace = Some EV_RELEASE <->
     lua_checkstack L = true
     /\ (reloaded = false
         \/ (lua_istable (global_modlua L) = true
             /\ lua_isfunction (dispatch_module_logevent L) = true)))
    /\ (last trace <> Some EV_RELEASE -> trace = [EV_ACQUIRE]).
Proof.
  intros env cbdata Hc Ha L reloaded trace. subst L reloaded trace.
  unfold modlua_logevent. rewrite Hc, Ha.
  destruct (lua_checkstack (runtime env)) eqn:Hs; cbn [negb].
  2:{ split; [split; [discriminate | intros [? _]; discriminate] | reflexivity]. }
  assert (Hexit : forall rc tr P,
             P ->
             (last (snd (modlua_exit env rc tr)) = Some EV_RELEASE <-> true = true /\ P)
             /\ (last (snd (modlua_exit env rc tr)) <> Some EV_RELEASE ->
                 snd (modlua_exit env rc tr) = [EV_ACQUIRE])).
  { intros rc tr P HP. pose proof (modlua_exit_last env rc tr) as Hl.
    split; [split; auto | intros Hn; contradiction]. }
  destruct (modlua_contains_module_returns (runtime env) (module cbdata) Hs) as [r ->].
  destruct r; cbn [negb orb].
  - rewrite bool_decide_eq_true_2 by reflexivity. cbn [orb].
    destruct (reload_ctx_except_main env) eqn:He;
      try (apply Hexit; left; reflexivity).
    cbn [andb]. rewrite bool_decide_eq_true_2 by reflexivity.
    destruct (global_modlua (runtime env)); cbn;
      try (split; [split; [discriminate | intros [_ [? | [? _]]]; discriminate]
                  | reflexivity]).
    destruct (dispatch_module_logevent (runtime env)); cbn;
      try (split; [split; [discriminate | intros [_ [? | [_ ?]]]; discriminate]
                  | reflexivity]).
    destruct (modlua_push_lua_handler_logevents cbdata (runtime env));
      apply Hexit; right; split; reflexivity.
  - rewrite (bool_decide_eq_false_2 (Some false = Some true)) by discriminate.
    cbn [orb].
    destruct (reload_ctx_main env) eqn:Hm;
      try (apply Hexit; left; reflexivity).
    destruct (reload_ctx_except_main env) eqn:He;
      try (apply Hexit; left; reflexivity).
    cbn [andb]. rewrite !bool_decide_eq_true_2 by reflexivity.
    destruct (global_modlua (runtime env)); cbn;
      try (split; [split; [discriminate | intros [_ [? | [? _]]]; discriminate]
                  | reflexivity]).
    destruct (dispatch_module_logevent (runtime env)); cbn;
      try (split; [split; [discriminate | intros [_ [? | [_ ?]]]; discriminate]
                  | reflexivity]).
    destruct (modlua_push_lua_handler_logevents cbdata (runtime env));
      apply Hexit; right; split; reflexivity.
Qed.

Lemma modlua_logevent_releases_iff_witness :
  last (snd (modlua_logevent (env_of runtime_waf) module_waf)) = Some EV_RELEASE.
Proof.
  apply (proj1 (modlua_logevent_releases_iff (env_of runtime_waf) module_waf
                  eq_refl eq_refl)).
  split; [reflexivity|]. right. split; reflexivity.
Defined.

(** *** A wiring that fails *)

Lemma modlua_wire_states_app ib_state_hook_type states1 states2 ib cbdata L :
  modlua_wire_states ib_state_hook_type (states1 ++ states2) ib cbdata L
  = match modlua_wire_states ib_state_hook_type states1 ib cbdata L with
    | (IB_OK, ib1) => modlua_wire_states ib_state_hook_type states2 ib1 cbdata L
    | failed => failed
    end.
Proof.
  revert ib. induction states1 as [|state states1 IH]; intros ib0;
    cbn [app modlua_wire_states].
  - reflexivity.
  - match goal with
    | |- context [let '(rc, ib) := ?x in _] => destruct x as [rc ib1]
    end.
    destruct (bool_decide (rc <> IB_OK) && bool_decide (rc <> IB_ENOENT)) eqn:E.
    + destruct rc; try reflexivity. discriminate E.
    + apply IH.
Qed.

(** X14.  A wiring that fails is not undone.  When the probe for an event
    of the taxonomy fails with a status other than [IB_ENOENT], the wiring
    returns that status at once, and the engine is left as the wiring of the
    events before it had made it: the hooks registered for them, and the
    log-event callback, stay registered. *)
Theorem modlua_wiring_stops_at_failed_probe :
  forall IB_STATE_NUM ib_state_hook_type ib modlua file module L state ib1,
    state < IB_STATE_NUM ->
    module_has_callback {| modlua := modlua; module := module |} state L <> IB_OK ->
    module_has_callback {| modlua := modlua; module := module |} state L <> IB_ENOENT ->
    modlua_module_load_wire_callbacks state ib_state_hook_type ib modlua file module L
    = (IB_OK, ib1) ->
    modlua_module_load_wire_callbacks IB_STATE_NUM ib_state_hook_type ib modlua file module L
    = (module_has_callback {| modlua := modlua; module := module |} state L, ib1).
Proof.
  intros IB_STATE_NUM ib_state_hook_type ib0 modlua0 file module0 L state ib1
    Hlt Hok Hnoent.
  unfold modlua_module_load_wire_callbacks.
  destruct (mm_main ib0) as [mm|]; [|discriminate].
  destruct (ib_mm_calloc mm) as [[] mm']; [|discriminate].
  cbv zeta. intros Hw.
  replace IB_STATE_NUM with (state + S (IB_STATE_NUM - S state)) by lia.
  rewrite seq_app, modlua_wire_states_app, Hw.
  cbn [seq modlua_wire_states Nat.add].
  destruct (module_has_callback _ state L); try contradiction; reflexivity.
Qed.

(** A runtime in which the probe for state 1 fails. *)
Definition runtime_broken : lua_State :=
  {| global_modlua := LUA_TTABLE;
     get_callbacks := LUA_TFUNCTION;
     get_callbacks_logevents := LUA_TFUNCTION;
     dispatch_module := LUA_TFUNCTION;
     dispatch_module_logevent := LUA_TFUNCTION;
     has_module := LUA_TFUNCTION;
     call_get_callbacks :=
       fun _ state => (IB_OK, if Nat.eqb state 1 then LUA_TNUMBER else LUA_TTABLE);
     call_get_callbacks_logevents := fun _ => (IB_OK, LUA_TTABLE);
     call_has_module := fun _ => Some (Some true);
     call_dispatch_module := fun _ _ => IB_OK;
     call_dispatch_module_logevent := fun _ => IB_OK;
     lua_checkstack := true |}.

Lemma modlua_wiring_stops_at_failed_probe_witness :
  modlua_module_load_wire_callbacks 3 three_states engine_empty
    (modlua module_waf) "waf.lua" (module module_waf) runtime_broken
  = (IB_EINVAL,
     {| mm_main := Some {| mm_left := 2; mm_stale := 0 |};
        hooks := [ {| hook_state := 0; hook_type := IB_STATE_HOOK_CONN;
                      hook_callback := CB_modlua_conn; hook_cbdata := module_waf |} ];
        logevent_handlers := [module_waf] |}).
Proof.
  apply (modlua_wiring_stops_at_failed_probe 3 three_states engine_empty
           (modlua module_waf) "waf.lua" (module module_waf) runtime_broken 1).
  - lia.
  - discriminate.
  - discriminate.
  - reflexivity.
Defined.

(** *** Loading a module's script *)

(** What [luaL_loadfile] and [lua_pcall] return ([lua.h], [lauxlib.h]);
    [LUA_OK] is 0. *)
Inductive lua_status_t : Set :=
| LUA_OK | LUA_YIELD | LUA_ERRRUN | LUA_ERRSYNTAX | LUA_ERRMEM | LUA_ERRERR
| LUA_ERRFILE.

(** Modelled from the spec: the Lua interpreter is not among the sources;
    the spec has the bridge marshal what it passes "into the scripting
    runtime's calling convention".  Of a load the bridge sees, besides the
    global [modlua], the type of [modlua.load_module], what [luaL_loadfile]
    comes back with for a file, and what the call of [modlua.load_module]
    comes back with for a module, with or without the function that
    registers directives, and a file. *)
Record modlua_loader_t : Type := {
  load_module : lua_type_t;
  luaL_loadfile : string -> lua_status_t;
  call_load_module : ib_module_t -> bool -> string -> lua_status_t
}.

(** The height of the value stack is followed through a load: a push, and
    the lookup of a global or of a field, add one value; [luaL_loadfile]
    adds the chunk, or an error message; [lua_pcall] takes the function and
    its arguments off and leaves the results asked for, or an error
    message. *)
Definition lua_pop (top : Z) (n : Z) : Z := (top - n)%Z.

(** Setup the call stack for the Lua function [modlua.load_module()].  The
    assertion that the stack can take the eight values is taken to hold. *)
Definition modlua_load_module_push_stack (register_directives : bool) (file : string)
    (module : ib_module_t) (L : lua_State) (loader : modlua_loader_t) (top : Z)
  : ib_status_t * Z :=
  (* Get the package. *)
  let top := (top + 1)%Z in
  if lua_isnil (global_modlua L) then (IB_EINVAL, top)
  else if negb (lua_istable (global_modlua L)) then (IB_EINVAL, lua_pop top 1)
  else
    (* Push load_module *)
    let top := (top + 1)%Z in
    if lua_isnil (load_module loader) then (IB_EINVAL, lua_pop top 1)
    else if negb (lua_isfunction (load_module loader)) then (IB_EINVAL, lua_pop top 1)
    else
      (* Push ib engine, module, its name and its index. *)
      let top := (top + 4)%Z in
      (* [modlua_config_register_directive], or nil *)
      let top := (top + 1)%Z in
      let lua_rc := luaL_loadfile loader file in
      let top := (top + 1)%Z in
      match lua_rc with
      | LUA_OK => (IB_OK, top)
      | LUA_ERRSYNTAX => (IB_EINVAL, lua_pop (lua_pop top 1) 1)
      | LUA_ERRMEM => (IB_EINVAL, lua_pop top 1)
      | LUA_ERRFILE => (IB_EINVAL, lua_pop top 1)
      | _ => (IB_EINVAL, lua_pop (lua_pop top 1) 1)
      end.

(** After calling [modlua_load_module_push_stack] call this to evaluate it.
    [lua_rc] is what [lua_pcall(L, 6, 1, 0)] comes back with. *)
Definition modlua_load_module_eval (file : string) (lua_rc : lua_status_t) (top : Z)
  : ib_status_t * Z :=
  let top := (top - 7 + 1)%Z in
  match lua_rc with
  | LUA_OK => (IB_OK, lua_pop top 1)
  | LUA_ERRRUN => (IB_EINVAL, lua_pop (lua_pop top 1) 1)
  | LUA_ERRMEM => (IB_EINVAL, lua_pop top 1)
  | LUA_ERRERR => (IB_EINVAL, lua_pop top 1)
  | _ => (IB_EINVAL, lua_pop (lua_pop top 1) 1)
  end.

(** Called by [modlua_module_load] to load the lua script into the Lua
    runtime; this registers the module's configuration directives. *)
Definition modlua_module_config_lua (file : string) (module : ib_module_t)
    (L : lua_State) (loader : modlua_loader_t) (top : Z) : ib_status_t * Z :=
  (* Load the stack with the register directives function. *)
  match modlua_load_module_push_stack true file module L loader top with
  | (IB_OK, top) =>
      match modlua_load_module_eval file (call_load_module loader module true file) top with
      | (IB_OK, top) => (IB_OK, top)
      | (rc, top) => (rc, top)
      end
  | (rc, top) => (rc, top)
  end.

Definition modlua_module_load_lua (file : string) (module : ib_module_t)
    (L : lua_State) (loader : modlua_loader_t) (top : Z) : ib_status_t * Z :=
  (* Load the stack without the register directives function. *)
  match modlua_load_module_push_stack false file module L loader top with
  | (IB_OK, top) =>
      match modlua_load_module_eval file (call_load_module loader module false file) top with
      | (IB_OK, top) => (IB_OK, top)
      | (rc, top) => (rc, top)
      end
  | (rc, top) => (rc, top)
  end.

(** The pieces of the module initialisation that [modlua_module_load] puts
    together. *)
Record modlua_luamod_init_t : Type := {
  (** Lua File to load. *)
  luamod_file : string;
  (** Lua Module (the ibmod_lua module). *)
  luamod_modlua : ib_module_t;
  (** Configuration for modlua: the Lua state, with what a load sees of
      it. *)
  luamod_L : lua_State;
  luamod_loader : modlua_loader_t
}.

Section Loading.

Variable IB_STATE_NUM : nat.
Variable ib_state_hook_type : nat -> ib_state_hook_type_t.

(** What [modlua_record_reload] answers when asked to record the module and
    its file for reloading. *)
Variable modlua_record_reload : ib_module_t -> string -> ib_status_t.

(** Initialize a dynamically created Lua module.  [top] is the height of
    the Lua stack on entry. *)
Definition modlua_luamod_init (ib : ib_engine_t) (module : ib_module_t)
    (cbdata : modlua_luamod_init_t) (top : Z) : ib_status_t * ib_engine_t :=
  let cfg := cbdata in
  let modlua := luamod_modlua cfg in
  let L := luamod_L cfg in
  let file := luamod_file cfg in
  (* Load the modules into the main Lua stack. Also register directives. *)
  match modlua_module_config_lua file module L (luamod_loader cfg) top with
  | (IB_OK, _) =>
      (* If the previous succeeds, record that we should reload it on each tx. *)
      match modlua_record_reload module file with
      | IB_OK =>
          (* Write up the callbacks. *)
          match modlua_module_load_wire_callbacks IB_STATE_NUM ib_state_hook_type
                  ib modlua file module L with
          | (IB_OK, ib) => (IB_OK, ib)
          | (rc, ib) => (rc, ib)
          end
      | rc => (rc, ib)
      end
  | (rc, _) => (rc, ib)
  end.

End Loading.

(** A loader for which every file loads and every module's script runs. *)
Definition loader_ok : modlua_loader_t :=
  {| load_module := LUA_TFUNCTION;
     luaL_loadfile := fun _ => LUA_OK;
     call_load_module := fun _ _ _ => LUA_OK |}.

(** X15.  Loading a module's script into a runtime, with the directive
    registrar ([modlua_module_config_lua]) or without
    ([modlua_module_load_lua]), returns [IB_OK] or [IB_EINVAL] and nothing
    else, a Lua memory error included.  It returns [IB_OK] exactly when the
    global [modlua] is a table, its [load_module] a function, the file loads
    and the call of [load_module] succeeds, and then one value more than
    before is left on the Lua stack: the pop after the call takes the
    result, and the [modlua] table stays.  A load that fails leaves up to
    seven values more. *)
Theorem modlua_module_load_lua_stack :
  forall register_directives file module L loader top,
    let '(rc, top') :=
      (if register_directives : bool then modlua_module_config_lua
       else modlua_module_load_lua) file module L loader top in
    (rc = IB_OK <->
     lua_istable (global_modlua L) = true
     /\ lua_isfunction (load_module loader) = true
     /\ luaL_loadfile loader file = LUA_OK
     /\ call_load_module loader module register_directives file = LUA_OK)
    /\ (rc = IB_OK -> top' = (top + 1)%Z)
    /\ (rc <> IB_OK -> rc = IB_EINVAL /\ (top <= top' <= top + 7)%Z).
Proof.
  intros register_directives file module0 L loader top.
  assert (H : forall b,
             let '(rc, top') :=
               match modlua_load_module_push_stack b file module0 L loader top with
               | (IB_OK, top) =>
                   match modlua_load_module_eval file
                           (call_load_module loader module0 b file) top with
                   | (IB_OK, top) => (IB_OK, top)
                   | (rc, top) => (rc, top)
                   end
               | (rc, top) => (rc, top)
               end in
             (rc = IB_OK <->
              lua_istable (global_modlua L) = true
              /\ lua_isfunction (load_module loader) = true
              /\ luaL_loadfile loader file = LUA_OK
              /\ call_load_module loader module0 b file = LUA_OK)
             /\ (rc = IB_OK -> top' = (top + 1)%Z)
             /\ (rc <> IB_OK -> rc = IB_EINVAL /\ (top <= top' <= top + 7)%Z)).
  { intros b. unfold modlua_load_module_push_stack, modlua_load_module_eval, lua_pop.
    assert (Hfail : forall top',
               (top <= top' <= top + 7)%Z ->
               lua_istable (global_modlua L) = false
               \/ lua_isfunction (load_module loader) = false
               \/ luaL_loadfile loader file <> LUA_OK
               \/ call_load_module loader module0 b file <> LUA_OK ->
               (IB_EINVAL = IB_OK <->
                lua_istable (global_modlua L) = true
                /\ lua_isfunction (load_module loader) = true
                /\ luaL_loadfile loader file = LUA_OK
                /\ call_load_module loader module0 b file = LUA_OK)
               /\ (IB_EINVAL = IB_OK -> top' = (top + 1)%Z)
               /\ (IB_EINVAL <> IB_OK -> IB_EINVAL = IB_EINVAL /\ (top <= top' <= top + 7)%Z)).
    { intros top' Hb Hbad. split; [|split; [discriminate | auto]].
      split; [discriminate|]. intros (Ht & Hf & Hl & Hc).
      destruct Hbad as [Hbad | [Hbad | [Hbad | Hbad]]]; congruence. }
    destruct (global_modlua L) eqn:Eg; cbn;
      try (apply Hfail; [lia | left; reflexivity]).
    destruct (load_module loader) eqn:Ef; cbn;
      try (apply Hfail; [lia | right; left; reflexivity]).
    destruct (luaL_loadfile loader file) eqn:El; cbn;
      try (apply Hfail; [lia | right; right; left; discriminate]).
    destruct (call_load_module loader module0 b file) eqn:Ec; cbn;
      try (apply Hfail; [lia | right; right; right; discriminate]).
    split; [split; [intros _; repeat split; reflexivity | reflexivity]|].
    split; [intros _; lia | intros Hn; contradiction]. }
  destruct register_directives; apply H.
Qed.


Lemma modlua_module_load_lua_stack_witness :
  modlua_module_load_lua "waf.lua" (module module_waf) runtime_waf loader_ok 0
  = (IB_OK, 1%Z).
Proof.
  pose proof (modlua_module_load_lua_stack false "waf.lua" (module module_waf)
                runtime_waf loader_ok 0) as H.
  cbv iota in H.
  destruct (modlua_module_load_lua "waf.lua" (module module_waf) runtime_waf loader_ok 0)
    as [rc top'].
  destruct H as (Hok & Htop & _).
  assert (Hrc : rc = IB_OK) by (apply Hok; repeat split).
  rewrite (Htop Hrc), Hrc. reflexivity.
Defined.

(** X16.  A Lua module is hooked into the engine only once its script has
    been loaded and the module recorded for reloading.  When
    [modlua_luamod_init] returns [IB_OK], the script was loaded with the
    directive registrar, the reload was recorded, and the engine has, after
    the hooks it had, one hook for each event whose probe found a handler,
    in the order of the events.  When the load of the script or the
    recording fails, that status is returned and the engine is as it
    was. *)
Theorem modlua_luamod_init_hooks :
  forall IB_STATE_NUM ib_state_hook_type modlua_record_reload ib module cbdata top
         rc ib',
    (forall state, state < IB_STATE_NUM ->
                   ib_state_hook_type state <> IB_STATE_HOOK_INVALID) ->
    modlua_luamod_init IB_STATE_NUM ib_state_hook_type modlua_record_reload
      ib module cbdata top = (rc, ib') ->
    let loaded :=
      fst (modlua_module_config_lua (luamod_file cbdata) module (luamod_L cbdata)
             (luamod_loader cbdata) top) in
    let recorded := modlua_record_reload module (luamod_file cbdata) in
    let modules := {| modlua := luamod_modlua cbdata; module := module |} in
    (rc = IB_OK ->
     loaded = IB_OK /\ recorded = IB_OK
     /\ exists new,
          hooks ib' = hooks ib ++ new
          /\ map hook_state new
             = filter (fun state =>
                         module_has_callback modules state (luamod_L cbdata) = IB_OK)
                 (seq 0 IB_STATE_NUM)
          /\ Forall (bridged_hook ib_state_hook_type modules) new)
    /\ (loaded <> IB_OK -> rc = loaded /\ ib' = ib)
    /\ (loaded = IB_OK -> recorded <> IB_OK -> rc = recorded /\ ib' = ib).
Proof.
  intros IB_STATE_NUM ib_state_hook_type record ib0 module0 cbdata top rc ib'
    Hvalid Hinit loaded recorded modules.
  subst loaded recorded. unfold modlua_luamod_init in Hinit.
  destruct (modlua_module_config_lua _ _ _ _ _) as [rc1 top1]. cbn [fst].
  destruct (decide (rc1 = IB_OK)) as [-> | Hne1].
  2:{ assert (Hr : (rc, ib') = (rc1, ib0))
        by (destruct rc1; try congruence; contradiction).
      injection Hr as -> ->.
      split; [intros Hc; contradiction|]. split; [auto | intros Hc; contradiction]. }
  destruct (decide (record module0 (luamod_file cbdata) = IB_OK)) as [Hrec | Hne2].
  2:{ assert (Hr : (rc, ib') = (record module0 (luamod_file cbdata), ib0))
        by (destruct (record module0 (luamod_file cbdata)); try congruence; contradiction).
      injection Hr as -> ->.
      split; [intros Hc; contradiction|]. split; [intros Hc; contradiction | auto]. }
  rewrite Hrec in Hinit.
  split; [|split; intros; contradiction].
  intros ->. split; [reflexivity|]. split; [exact Hrec|].
  destruct (modlua_module_load_wire_callbacks _ _ _ _ _ _ _) as [rc3 ib3] eqn:Hw.
  assert (rc3 = IB_OK /\ ib3 = ib') as [-> ->]
    by (destruct rc3; try discriminate Hinit; injection Hinit as <-; auto).
  unfold modlua_module_load_wire_callbacks in Hw.
  destruct (mm_main ib0) as [mm|]; [|discriminate].
  destruct (ib_mm_calloc mm) as [[] mm']; [|discriminate].
  cbv zeta in Hw. apply modlua_wire_states_hooks in Hw.
  2:{ apply Forall_forall. intros state Hin. apply Hvalid.
      apply list_elem_of_In, in_seq in Hin. lia. }
  destruct Hw as (new & Hh & Hs & Hb & _). exists new.
  split; [|split; [exact Hs | exact Hb]].
  rewrite Hh.
  destruct (modlua_has_callback_logevents _ _);
    rewrite ?ib_engine_notify_logevent_register_hooks; reflexivity.
Qed.

Lemma modlua_luamod_init_hooks_witness :
  exists new,
    hooks (snd (modlua_luamod_init 3 three_states (fun _ _ => IB_OK) engine_empty
                       (module module_waf)
                       {| luamod_file := "waf.lua"; luamod_modlua := modlua module_waf;
                          luamod_L := runtime_waf; luamod_loader := loader_ok |} 0))
    = hooks engine_empty ++ new
    /\ map hook_state new = [0; 2].
Proof.
  destruct (proj1 (modlua_luamod_init_hooks 3 three_states (fun _ _ => IB_OK) engine_empty
              (module module_waf)
              {| luamod_file := "waf.lua"; luamod_modlua := modlua module_waf;
                 luamod_L := runtime_waf; luamod_loader := loader_ok |} 0
              IB_OK _
              ltac:(intros [|[|[|state]]] Hlt; simpl; try discriminate; lia)
              eq_refl) eq_refl)
    as (_ & _ & new & Hh & Hs & _).
  exists new. split; [exact Hh | exact Hs].
Defined.

End ModLua.
